(** * cf-aig-logs-poller: the synchronisation engine

    A shallow embedding of the forward and backfill cycles of the poller
    ([src/index.ts]), the paginated log fetch ([src/ai-gateway.ts]), the
    dedup filter ([src/dedup.ts]) and the BigQuery writer
    ([src/bigquery.ts]), with the properties the design document states
    about them.  The logger ([src/logger.ts]), the encoding of the JWT
    ([src/google-auth.ts]) and the maintenance functions of the dedup
    filter follow, with further properties read off the code.

    Modelling conventions.
    - An [async] function becomes a function in the monad [M]: it takes the
      world (the two KV namespaces and the record of effects performed so
      far) and returns the new world with either a value or the error that
      was thrown.  A [throw] keeps every effect made before it.
    - Everything outside the worker is read from an [Env]: the parsed
      configuration variables, the records held by the remote log API, the
      clock, the answer of BigQuery, and an oracle [faults] saying which
      external calls reject during this cycle.
    - The remote log API is not code of this repository.  It is modelled as
      its interface is documented: it filters the records, orders them by
      (created_at, id) in the requested direction and serves page [p] of
      [per_page] records.
    - Timestamps and ids are strings.  [localeCompare], the [<=] of
      JavaScript on strings and the comparison made by the remote filter are
      all modelled by the lexicographic order on character codes, on which
      they agree for ISO-8601 timestamps of one format.  Ids are compared
      the same way; the collation of the runtime may order two ids
      otherwise, which bears only on the order of the records of one
      timestamp within a sorted backfill batch.
    - The configuration variables are modelled by their parsed values, and
      the clock is read once per cycle ([now], in seconds, for the expiry of
      the markers; [nowMinus10m], its rendering as a timestamp ten minutes
      back, for the default cursor).
    - [logger.debug] and [logger.info] calls are left out; the calls of
      [logger.warn] and [logger.error] are recorded in the world, apart from
      the writes. *)

From Stdlib Require Import Ascii String.
From stdpp Require Import base option list sorting gmap strings.

Open Scope string_scope.
Open Scope list_scope.
Open Scope nat_scope.

(** ** Strings as JavaScript sees them *)

(** [a.localeCompare(b)], as a three-way comparison. *)
Definition localeCompare (a b : string) : comparison := String.compare a b.

(** [a <= b] on strings. *)
Definition str_le (a b : string) : bool :=
  match localeCompare a b with Gt => false | _ => true end.

(** [a < b] on strings. *)
Definition str_lt (a b : string) : bool :=
  match localeCompare a b with Lt => true | _ => false end.

(** Truthiness of a string: only the empty string is falsy. *)
Definition truthy (s : string) : bool :=
  match s with EmptyString => false | String _ _ => true end.

(** Truthiness of [string | null]. *)
Definition truthy_opt (o : option string) : bool :=
  match o with Some s => truthy s | None => false end.

(** ** Data model ([src/types.ts]) *)

(** A log record.  [payload] stands for the descriptive fields (provider,
    model, status, timing, token and cost counters), which the engine only
    copies into the sink row. *)
Record AIGLog := mkLog {
  id : string;
  created_at : string;
  payload : string
}.

Record CursorState := mkCursor {
  cur_ts : string;
  cur_id : string
}.

Inductive TsOp := OpEq | OpGt | OpLt.
Inductive IdKind := KindGt | KindLt.

Record FetchLogsOptions := mkOptions {
  op : TsOp;
  ts : string;
  idCmp : option (IdKind * string);
  asc : bool;
  maxPages : nat
}.

(** One per-row error of a BigQuery [insertAll] response. *)
Record InsertError := mkInsertError {
  index : nat;
  errors : string
}.

(** The response of the [insertAll] endpoint: [response.ok] and the
    [insertErrors] of its body. *)
Record BigQueryInsertResponse := mkResponse {
  ok : bool;
  status : nat;
  insertErrors : list InsertError
}.

Global Instance AIGLog_eq_dec : EqDecision AIGLog.
Proof. solve_decision. Defined.

Global Instance CursorState_eq_dec : EqDecision CursorState.
Proof. solve_decision. Defined.

(** ** Order on records *)

(** The comparator of the sort in [runBackfill]:
    [a.created_at.localeCompare(b.created_at) || a.id.localeCompare(b.id)]. *)
Definition compareLogs (a b : AIGLog) : comparison :=
  match localeCompare (created_at a) (created_at b) with
  | Eq => localeCompare (id a) (id b)
  | c => c
  end.

Definition log_le (a b : AIGLog) : Prop := compareLogs a b ≠ Gt.
Definition log_ge (a b : AIGLog) : Prop := log_le b a.

Global Instance log_le_dec a b : Decision (log_le a b).
Proof. unfold log_le. solve_decision. Defined.

Global Instance log_ge_dec a b : Decision (log_ge a b).
Proof. unfold log_ge. apply _. Defined.

(** ** The world of a cycle *)

(** The [STATE_KV] namespace.  The value under [forward] is the JSON text of
    a [CursorState]; it is kept here in parsed form. *)
Record StateKV := mkState {
  forward : option CursorState;
  oldest : option string;
  backfill_stop_at : option string
}.

(** The writes a cycle performs on the outside world, in program order. *)
Inductive Effect :=
  | StatePutForward (c : CursorState)
  | StatePutOldest (v : string)
  | StateDeleteOldest
  | IdsPut (key value : string) (expirationTtl : N)
  | InsertAll (rows : list AIGLog).

(** The calls of [logger.warn] and [logger.error]. *)
Inductive LogMessage :=
  | LogWithoutId (log : AIGLog)
  | FailedToMark (i : string)
  | CfLogsApiError (code : nat)
  | FailedToFetchPage (page : nat)
  | BqInsertAllError (code : nat)
  | BqInsertErrorsDetected (errs : list InsertError)
  | FailedToInsertLog (i : option string) (err : string)
  | BqInsertAllFailed
  | ForwardFailed
  | BackfillFailed.

Global Instance InsertError_eq_dec : EqDecision InsertError.
Proof. solve_decision. Defined.

Global Instance LogMessage_eq_dec : EqDecision LogMessage.
Proof. solve_decision. Defined.

(** [IDS_KV] maps a key to its value and the time (in seconds of the clock [now]) at which the
    entry expires. *)
Record World := mkWorld {
  STATE_KV : StateKV;
  IDS_KV : gmap string (string * N);
  effects : list Effect;
  logged : list LogMessage
}.

(** The external calls that can reject. *)
Inductive Call :=
  | CallStateGet (key : string)
  | CallStatePut (key : string)
  | CallStateDelete (key : string)
  | CallIdsGet (key : string)
  | CallIdsPut (key : string)
  | CallAccessToken
  | CallInsertAll.

(** What the remote log API does with one page request. *)
Inductive ApiReply :=
  | Served
  | HttpError (code : nat)
  | NotSuccess
  | Rejected.

Record Env := mkEnv {
  LOGS_PER_PAGE : nat;
  FORWARD_MAX_PAGES : nat;
  BACKFILL_MAX_PAGES : nat;
  DEDUP_TTL_DAYS : N;
  source : list AIGLog;
  now : N;
  nowMinus10m : string;
  logs_api : FetchLogsOptions → nat → ApiReply;
  insertAll_response : list AIGLog → BigQueryInsertResponse;
  faults : Call → bool
}.

Inductive Error :=
  | SourceError (page : nat)
  | CallRejected (c : Call)
  | SinkError (code : nat).

Inductive Result (A : Type) :=
  | Ok (a : A)
  | Err (err : Error).
Arguments Ok {A} a.
Arguments Err {A} err.

(** ** The monad of asynchronous code *)

Definition M (A : Type) : Type := World → World * Result A.

Definition ret {A} (a : A) : M A := λ w, (w, Ok a).

Definition throw {A} (err : Error) : M A := λ w, (w, Err err).

Definition bind {A B} (m : M A) (k : A → M B) : M B :=
  λ w, match m w with
       | (w', Ok a) => k a w'
       | (w', Err err) => (w', Err err)
       end.

(** [try { m } catch (error) { h error }] and [promise.catch(h)]. *)
Definition catch {A} (m : M A) (h : Error → M A) : M A :=
  λ w, match m w with
       | (w', Ok a) => (w', Ok a)
       | (w', Err err) => h err w'
       end.

Notation "'await' x ':=' m 'in' k" := (bind m (λ x, k))
  (at level 10, x name, m at level 100, k at level 200,
   format "'[v' 'await'  x  ':='  m  'in' '/' k ']'").
Notation "'wait' m 'then' k" := (bind m (λ _, k))
  (at level 10, m at level 100, k at level 200,
   format "'[v' 'wait'  m  'then' '/' k ']'").

Definition perform (ev : Effect) : M () :=
  λ w, (mkWorld (STATE_KV w) (IDS_KV w) (effects w ++ [ev]) (logged w), Ok ()).

Definition logger (msg : LogMessage) : M () :=
  λ w, (mkWorld (STATE_KV w) (IDS_KV w) (effects w) (logged w ++ [msg]), Ok ()).

Definition setState (f : StateKV → StateKV) : M () :=
  λ w, (mkWorld (f (STATE_KV w)) (IDS_KV w) (effects w) (logged w), Ok ()).

Definition setIds (f : gmap string (string * N) → gmap string (string * N)) : M () :=
  λ w, (mkWorld (STATE_KV w) (f (IDS_KV w)) (effects w) (logged w), Ok ()).

(** A call that rejects when the oracle says so. *)
Definition calling (e : Env) (c : Call) : M () :=
  if faults e c then throw (CallRejected c) else ret ().

(** ** The two KV namespaces *)

Definition stateGetForward (e : Env) : M (option CursorState) :=
  wait calling e (CallStateGet "forward") then λ w, (w, Ok (forward (STATE_KV w))).

Definition stateGetOldest (e : Env) : M (option string) :=
  wait calling e (CallStateGet "oldest") then λ w, (w, Ok (oldest (STATE_KV w))).

Definition stateGetStopAt (e : Env) : M (option string) :=
  wait calling e (CallStateGet "backfill_stop_at") then
  λ w, (w, Ok (backfill_stop_at (STATE_KV w))).

Definition statePutForward (e : Env) (c : CursorState) : M () :=
  wait calling e (CallStatePut "forward") then
  wait setState (λ s, mkState (Some c) (oldest s) (backfill_stop_at s)) then
  perform (StatePutForward c).

Definition statePutOldest (e : Env) (v : string) : M () :=
  wait calling e (CallStatePut "oldest") then
  wait setState (λ s, mkState (forward s) (Some v) (backfill_stop_at s)) then
  perform (StatePutOldest v).

Definition stateDeleteOldest (e : Env) : M () :=
  wait calling e (CallStateDelete "oldest") then
  wait setState (λ s, mkState (forward s) None (backfill_stop_at s)) then
  perform StateDeleteOldest.

(** An entry is visible until its expiration time. *)
Definition live (t : N) (entry : string * N) : option string :=
  if decide (t < entry.2)%N then Some entry.1 else None.

Definition idsGet (e : Env) (key : string) : M (option string) :=
  wait calling e (CallIdsGet key) then
  λ w, (w, Ok (IDS_KV w !! key ≫= live (now e))).

Definition idsPut (e : Env) (key value : string) (expirationTtl : N) : M () :=
  wait calling e (CallIdsPut key) then
  wait setIds (insert key (value, now e + expirationTtl)%N) then
  perform (IdsPut key value expirationTtl).

(** ** The remote log API *)

(** The [created_at] filter of a request. *)
Definition ts_matches (o : TsOp) (t : string) (r : AIGLog) : bool :=
  match o with
  | OpEq => String.eqb (created_at r) t
  | OpGt => str_lt t (created_at r)
  | OpLt => str_lt (created_at r) t
  end.

(** The optional [id] filter of a request. *)
Definition id_matches (c : option (IdKind * string)) (r : AIGLog) : bool :=
  match c with
  | None => true
  | Some (KindGt, i) => str_lt i (id r)
  | Some (KindLt, i) => str_lt (id r) i
  end.

Definition api_matches (options : FetchLogsOptions) (r : AIGLog) : bool :=
  ts_matches (op options) (ts options) r && id_matches (idCmp options) r.

(** All records the API holds for a request, in the order it serves them:
    by [created_at] in the requested direction, records of one timestamp by
    [id] in the same direction.  This is the interface the design document
    gives for the log source; the request itself only names [created_at]. *)
Definition api_listing (e : Env) (options : FetchLogsOptions) : list AIGLog :=
  let selected := filter (λ r, api_matches options r) (source e) in
  if asc options then merge_sort log_le selected else merge_sort log_ge selected.

(** Page [page] (counted from 1) of [per_page] records. *)
Definition api_page (e : Env) (options : FetchLogsOptions) (page : nat) : list AIGLog :=
  take (LOGS_PER_PAGE e) (drop ((page - 1) * LOGS_PER_PAGE e) (api_listing e options)).

(** ** [fetchLogs] *)

(** The body of the [try] of one iteration, up to [json.result || []]. *)
Definition requestPage (e : Env) (options : FetchLogsOptions) (page : nat)
    : M (list AIGLog) :=
  catch
    match logs_api e options page with
    | Served => ret (api_page e options page)
    | HttpError code =>
        wait logger (CfLogsApiError code) then throw (SourceError page)
    | NotSuccess => throw (SourceError page)
    | Rejected => throw (SourceError page)
    end
    (λ err, wait logger (FailedToFetchPage page) then throw err).

(** The [while (page <= options.maxPages)] loop; [remaining] is
    [maxPages + 1 - page], the number of pages the loop may still request. *)
Fixpoint fetchPages (e : Env) (options : FetchLogsOptions) (remaining page : nat)
    (allLogs : list AIGLog) : M (list AIGLog) :=
  match remaining with
  | 0 => ret allLogs
  | S remaining' =>
      await logs := requestPage e options page in
      if decide (length logs = 0) then ret allLogs
      else
        let allLogs' := allLogs ++ logs in
        if decide (length logs < LOGS_PER_PAGE e) then ret allLogs'
        else fetchPages e options remaining' (S page) allLogs'
  end.

Definition fetchLogs (e : Env) (options : FetchLogsOptions) : M (list AIGLog) :=
  fetchPages e options (maxPages options) 1 [].

(** ** [dedupAndFilter] *)

(** [`id:${log.id}`], the key of the membership marker of an id. *)
Definition kvKey (i : string) : string := "id:" +:+ i.

(** The [for (const log of logs)] loop, with its two accumulators. *)
Fixpoint dedupLoop (e : Env) (logs : list AIGLog) (seen : gset string)
    (output : list AIGLog) : M (list AIGLog) :=
  match logs with
  | [] => ret output
  | log :: rest =>
      if negb (truthy (id log)) then
        wait logger (LogWithoutId log) then dedupLoop e rest seen output
      else if decide (id log ∈ seen) then dedupLoop e rest seen output
      else
        let seen' := {[id log]} ∪ seen in
        await existing := idsGet e (kvKey (id log)) in
        if truthy_opt existing then dedupLoop e rest seen' output
        else dedupLoop e rest seen' (output ++ [log])
  end.

Definition ttlSeconds (e : Env) : N := (DEDUP_TTL_DAYS e * 24 * 60 * 60)%N.

(** [Promise.all(output.map(log => IDS_KV.put(..).catch(..)))]; the writes
    are taken in the order of [output] (they touch distinct keys). *)
Fixpoint markProcessed (e : Env) (output : list AIGLog) : M () :=
  match output with
  | [] => ret ()
  | log :: rest =>
      wait catch (idsPut e (kvKey (id log)) "1" (ttlSeconds e))
                 (λ _, logger (FailedToMark (id log))) then
      markProcessed e rest
  end.

Definition dedupAndFilter (e : Env) (logs : list AIGLog) : M (list AIGLog) :=
  await output := dedupLoop e logs ∅ [] in
  wait (if decide (0 < length output) then markProcessed e output else ret ()) then
  ret output.

(** ** [bqInsertAll] *)

Fixpoint logInsertErrors (logs : list AIGLog) (errs : list InsertError) : M () :=
  match errs with
  | [] => ret ()
  | insertError :: rest =>
      let failedLog := logs !! index insertError in
      wait logger (FailedToInsertLog (id <$> failedLog) (errors insertError)) then
      logInsertErrors logs rest
  end.

(** [bqInsertAll].  The token exchange and the POST each go through or
    reject ([faults]); the body of an answer with a success status is taken
    to be readable, so that [response.json()] does not reject. *)
Definition bqInsertAll (e : Env) (logs : list AIGLog) : M () :=
  if decide (length logs = 0) then ret ()
  else
    catch
      (wait calling e CallAccessToken then
       wait calling e CallInsertAll then
       wait perform (InsertAll logs) then
       let response := insertAll_response e logs in
       if negb (ok response) then
         wait logger (BqInsertAllError (status response)) then
         throw (SinkError (status response))
       else if decide (0 < length (insertErrors response)) then
         wait logger (BqInsertErrorsDetected (insertErrors response)) then
         logInsertErrors logs (insertErrors response)
       else ret ())
      (λ err, wait logger BqInsertAllFailed then throw err).

(** ** The two controllers *)

(** Phase 1, phase 2 and their concatenation [allLogs] in [runForward]. *)
Definition fetchForward (e : Env) (lastTs lastId : string) : M (list AIGLog) :=
  await phase1 := fetchLogs e (mkOptions OpEq lastTs (Some (KindGt, lastId)) true 5) in
  await phase2 := fetchLogs e (mkOptions OpGt lastTs None true (FORWARD_MAX_PAGES e)) in
  ret (phase1 ++ phase2).

Definition runForward (e : Env) : M () :=
  catch
    (await cursor := stateGetForward e in
     let lastTs := from_option cur_ts (nowMinus10m e) cursor in
     let lastId := from_option cur_id "" cursor in
     await allLogs := fetchForward e lastTs lastId in
     await toSend := dedupAndFilter e allLogs in
     match toSend with
     | [] => ret ()
     | first :: _ =>
         wait bqInsertAll e toSend then
         let lastLog := List.last toSend first in
         wait statePutForward e (mkCursor (created_at lastLog) (id lastLog)) then
         await oldestNow := stateGetOldest e in
         if negb (truthy_opt oldestNow) then statePutOldest e (created_at first)
         else ret ()
     end)
    (λ err, wait logger ForwardFailed then throw err).

Definition defaultStopAt : string := "1970-01-01T00:00:00Z".

Definition runBackfill (e : Env) : M () :=
  catch
    (await oldestNow := stateGetOldest e in
     if negb (truthy_opt oldestNow) then ret ()
     else
       let oldestTs := default "" oldestNow in
       await stop := stateGetStopAt e in
       let stopAt := if truthy_opt stop then default "" stop else defaultStopAt in
       await batch := fetchLogs e (mkOptions OpLt oldestTs None false (BACKFILL_MAX_PAGES e)) in
       if decide (length batch = 0) then stateDeleteOldest e
       else
         let sortedLogs := merge_sort log_le batch in
         await toSend := dedupAndFilter e sortedLogs in
         match toSend with
         | [] => ret ()
         | first :: _ =>
             wait bqInsertAll e toSend then
             let newOldest := created_at first in
             if str_le newOldest stopAt then stateDeleteOldest e
             else statePutOldest e newOldest
         end)
    (λ err, wait logger BackfillFailed then throw err).

(** [scheduled]: the hourly cron expression starts a backfill cycle, any
    other one a forward cycle.  The handler hands the cycle to
    [ctx.waitUntil] and returns at once; the value here is the outcome of
    the cycle, and the world is the one the cycle leaves. *)
Definition scheduled (cron : string) (e : Env) : M () :=
  if String.eqb cron "0 * * * *" then runBackfill e else runForward e.

(** ** Notions used to state the properties *)

(** [(created_at, id)] of [r] is strictly greater than the cursor. *)
Definition after_cursor (lastTs lastId : string) (r : AIGLog) : bool :=
  match localeCompare (created_at r) lastTs with
  | Gt => true
  | Eq => str_lt lastId (id r)
  | Lt => false
  end.

(** The records phase 1 asks for: at the cursor's timestamp, greater id. *)
Definition same_ts_after (lastTs lastId : string) (r : AIGLog) : bool :=
  String.eqb (created_at r) lastTs && str_lt lastId (id r).

(** The records phase 2 asks for: strictly newer than the cursor. *)
Definition newer (lastTs : string) (r : AIGLog) : bool :=
  str_lt lastTs (created_at r).

(** The stores and the effects are the same: only log lines were added. *)
Definition quietly (w w' : World) : Prop :=
  STATE_KV w' = STATE_KV w ∧ IDS_KV w' = IDS_KV w ∧ effects w' = effects w.

(** A lookup at time [t] finds a truthy marker for the id [i]. *)
Definition marked (t : N) (kv : gmap string (string * N)) (i : string) : bool :=
  truthy_opt (kv !! kvKey i ≫= live t).

(** The dedup filter as the design document words it: going through the
    batch in order, a record is accepted when its id is not empty, did not
    appear earlier in the batch ([earlier] holds the ids met so far) and has
    no membership marker. *)
Fixpoint accepted (isMarked : string → bool) (earlier : list string)
    (batch : list AIGLog) : list AIGLog :=
  match batch with
  | [] => []
  | r :: rest =>
      let keep := truthy (id r) && negb (bool_decide (id r ∈ earlier))
                  && negb (isMarked (id r)) in
      (if keep then [r] else []) ++ accepted isMarked (earlier ++ [id r]) rest
  end.

(** The accepted records whose marker write goes through. *)
Definition written (e : Env) (output : list AIGLog) : list AIGLog :=
  filter (λ r, faults e (CallIdsPut (kvKey (id r))) = false) output.

(** The membership store after markers were written for [rs]. *)
Definition withMarks (e : Env) (kv : gmap string (string * N))
    (rs : list AIGLog) : gmap string (string * N) :=
  foldl (λ m r, <[kvKey (id r) := ("1", (now e + ttlSeconds e)%N)]> m) kv rs.

Definition markEffect (e : Env) (r : AIGLog) : Effect :=
  IdsPut (kvKey (id r)) "1" (ttlSeconds e).

(** The failed marker writes of a batch, as logged. *)
Definition markFailures (e : Env) (output : list AIGLog) : list LogMessage :=
  (λ r, FailedToMark (id r)) <$>
    filter (λ r, faults e (CallIdsPut (kvKey (id r))) = true) output.

(** The token exchange and the POST go through. *)
Definition sinkReachable (e : Env) : bool :=
  negb (faults e CallAccessToken) && negb (faults e CallInsertAll).

(** What [bqInsertAll] logs for a response with a success status. *)
Definition rowErrorLog (logs : list AIGLog) (errs : list InsertError)
    : list LogMessage :=
  match errs with
  | [] => []
  | _ => BqInsertErrorsDetected errs ::
         ((λ err, FailedToInsertLog (id <$> logs !! index err) (errors err)) <$> errs)
  end.

(** The world after the effects [evs] and the log lines [msgs]. *)
Definition after (w : World) (evs : list Effect) (msgs : list LogMessage) : World :=
  mkWorld (STATE_KV w) (IDS_KV w) (effects w ++ evs) (logged w ++ msgs).

(** The first half of [runForward]: read the cursor, fetch, filter. *)
Definition forwardBatch (e : Env) : M (list AIGLog) :=
  await cursor := stateGetForward e in
  let lastTs := from_option cur_ts (nowMinus10m e) cursor in
  let lastId := from_option cur_id "" cursor in
  await allLogs := fetchForward e lastTs lastId in
  dedupAndFilter e allLogs.

(** The second half of [runForward]: send, then commit. *)
Definition forwardCommit (e : Env) (toSend : list AIGLog) : M () :=
  match toSend with
  | [] => ret ()
  | first :: _ =>
      wait bqInsertAll e toSend then
      let lastLog := List.last toSend first in
      wait statePutForward e (mkCursor (created_at lastLog) (id lastLog)) then
      await oldestNow := stateGetOldest e in
      if negb (truthy_opt oldestNow) then statePutOldest e (created_at first)
      else ret ()
  end.

(** The position of a record, as the cursor stores it. *)
Definition cursorOf (r : AIGLog) : CursorState :=
  mkCursor (created_at r) (id r).

(** The cursor writes among some effects. *)
Definition cursorPuts (evs : list Effect) : list CursorState :=
  omap (λ ev, match ev with StatePutForward c => Some c | _ => None end) evs.

(** The writes of the oldest marker among some effects. *)
Definition oldestPuts (evs : list Effect) : list string :=
  omap (λ ev, match ev with StatePutOldest v => Some v | _ => None end) evs.

(** The batches posted to the sink among some effects. *)
Definition sinkWrites (evs : list Effect) : list (list AIGLog) :=
  omap (λ ev, match ev with InsertAll rows => Some rows | _ => None end) evs.

(** The errors of a failed fetch or a failed sink write. *)
Definition fetchOrSinkError (err : Error) : Prop :=
  match err with
  | SourceError _ | SinkError _
  | CallRejected CallAccessToken | CallRejected CallInsertAll => True
  | _ => False
  end.

(** The ways the second half of a forward cycle can end, from the world [w]
    in which the filter returned [toSend] to the final world [w']. *)
Inductive ForwardCommit (e : Env) (toSend : list AIGLog) (w w' : World)
    : Result () → Prop :=
  | FwdNothingToSend :
      toSend = [] → w' = w →
      ForwardCommit e toSend w w' (Ok ())
  | FwdSinkFailed err evs :
      toSend ≠ [] →
      bqInsertAll e toSend w = (w', Err err) →
      fetchOrSinkError err →
      effects w' = effects w ++ evs →
      cursorPuts evs = [] → oldestPuts evs = [] →
      ForwardCommit e toSend w w' (Err err)
  | FwdCursorPutFailed w1 :
      toSend ≠ [] →
      bqInsertAll e toSend w = (w1, Ok ()) →
      faults e (CallStatePut "forward") = true →
      w' = w1 →
      effects w' = effects w ++ [InsertAll toSend] →
      ForwardCommit e toSend w w' (Err (CallRejected (CallStatePut "forward")))
  | FwdCommitted first w1 res :
      head toSend = Some first →
      bqInsertAll e toSend w = (w1, Ok ()) →
      faults e (CallStatePut "forward") = false →
      forward (STATE_KV w') = Some (cursorOf (List.last toSend first)) →
      oldest (STATE_KV w') = oldest (STATE_KV w) →
      effects w' = effects w ++
        [InsertAll toSend; StatePutForward (cursorOf (List.last toSend first))] →
      (res = Ok () ∧ truthy_opt (oldest (STATE_KV w)) ∨
       res = Err (CallRejected (CallStateGet "oldest")) ∨
       res = Err (CallRejected (CallStatePut "oldest")) ∧
         ¬ truthy_opt (oldest (STATE_KV w))) →
      ForwardCommit e toSend w w' res
  | FwdCommittedFirst first w1 :
      head toSend = Some first →
      bqInsertAll e toSend w = (w1, Ok ()) →
      faults e (CallStatePut "forward") = false →
      ¬ truthy_opt (oldest (STATE_KV w)) →
      forward (STATE_KV w') = Some (cursorOf (List.last toSend first)) →
      oldest (STATE_KV w') = Some (created_at first) →
      effects w' = effects w ++
        [InsertAll toSend; StatePutForward (cursorOf (List.last toSend first));
         StatePutOldest (created_at first)] →
      ForwardCommit e toSend w w' (Ok ()).

(** The marker a backfill cycle starts from, and the boundary it stops at
    ([oldest] and [stopAt] in [runBackfill]). *)
Definition oldestOf (w : World) : string := default "" (oldest (STATE_KV w)).

Definition stopAtOf (w : World) : string :=
  let stop := backfill_stop_at (STATE_KV w) in
  if truthy_opt stop then default "" stop else defaultStopAt.

(** The request of a backfill cycle. *)
Definition backfillOptions (e : Env) (oldestTs : string) : FetchLogsOptions :=
  mkOptions OpLt oldestTs None false (BACKFILL_MAX_PAGES e).

(** The end of [runBackfill]: send, then advance or delete the marker. *)
Definition backfillAdvance (e : Env) (stopAt : string) (toSend : list AIGLog)
    : M () :=
  match toSend with
  | [] => ret ()
  | first :: _ =>
      wait bqInsertAll e toSend then
      let newOldest := created_at first in
      if str_le newOldest stopAt then stateDeleteOldest e
      else statePutOldest e newOldest
  end.

(** The error a rejected marker write would be, were it thrown. *)
Definition isMarkerWriteError (err : Error) : bool :=
  match err with CallRejected (CallIdsPut _) => true | _ => false end.

Definition isMarkerWriteError_result {A} (res : Result A) : bool :=
  match res with Err err => isMarkerWriteError err | Ok _ => false end.

(** ** Sequences of cycles *)

(** One timer tick: the cron expression and the outside world at that time. *)
Definition Tick : Type := string * Env.

Definition hourly : string := "0 * * * *".
Definition everyMinute : string := "*/1 * * * *".

Definition runTick (t : Tick) (w : World) : World := (scheduled t.1 t.2 w).1.

(** The effects that [w'] has on top of [w]. *)
Definition newEffects (w w' : World) : list Effect :=
  drop (length (effects w)) (effects w').

(** How many times forward cycles wrote the oldest marker along a sequence
    of ticks. *)
Fixpoint oldestWritesByForward (ticks : list Tick) (w : World) : nat :=
  match ticks with
  | [] => 0
  | t :: rest =>
      let w' := runTick t w in
      (if String.eqb t.1 hourly then 0
       else length (oldestPuts (newEffects w w')))
      + oldestWritesByForward rest w'
  end.

(** ** Sample data *)

Module Sample.

(** Timestamps within one minute: [t10] is ten seconds past the hour. *)
Definition t00 : string := "2024-05-01T12:00:00Z".
Definition t05 : string := "2024-05-01T12:00:05Z".
Definition t10 : string := "2024-05-01T12:00:10Z".
Definition t15 : string := "2024-05-01T12:00:15Z".
Definition t20 : string := "2024-05-01T12:00:20Z".
Definition t30 : string := "2024-05-01T12:00:30Z".

Definition A : AIGLog := mkLog "1" t10 "a".
Definition B : AIGLog := mkLog "2" t10 "b".
Definition C : AIGLog := mkLog "3" t20 "c".
Definition D : AIGLog := mkLog "4" t30 "d".

Definition accepting (rows : list AIGLog) : BigQueryInsertResponse :=
    mkResponse true 200 [].

(** An environment in which every call goes through. *)
Definition env (src : list AIGLog) : Env :=
    mkEnv 50 20 40 45 src 1000 t00 (λ _ _, Served) accepting (λ _, false).

(** The same with a page size of one record. *)
Definition smallPages (src : list AIGLog) : Env :=
    mkEnv 1 20 40 45 src 1000 t00 (λ _ _, Served) accepting (λ _, false).

(** The sink answers every batch with status 503. *)
Definition sinkDown (src : list AIGLog) : Env :=
    mkEnv 50 20 40 45 src 1000 t00 (λ _ _, Served)
  (λ _, mkResponse false 503 []) (λ _, false).

(** The sink accepts the batch but rejects its first row. *)
Definition rowRejected (src : list AIGLog) : Env :=
    mkEnv 50 20 40 45 src 1000 t00 (λ _ _, Served)
  (λ _, mkResponse true 200 [mkInsertError 0 "invalid"]) (λ _, false).

(** Every marker write is rejected. *)
Definition marksRejected (src : list AIGLog) : Env :=
    mkEnv 50 20 40 45 src 1000 t00 (λ _ _, Served) accepting
  (λ c, match c with CallIdsPut _ => true | _ => false end).

(** The log API answers every request with status 500. *)
Definition apiDown (src : list AIGLog) : Env :=
    mkEnv 50 20 40 45 src 1000 t00 (λ _ _, HttpError 500) accepting (λ _, false).

Definition fresh : World := mkWorld (mkState None None None) ∅ [] [].

(** The cursor is on [A]; nothing else is stored. *)
Definition atA : World :=
    mkWorld (mkState (Some (cursorOf A)) None None) ∅ [] [].

(** A backfill marker at [t30] and, optionally, a stop boundary. *)
Definition backfilling (stop : option string) : World :=
    mkWorld (mkState None (Some t30) stop) ∅ [] [].

(** A backfill marker at [t20], with [A] and [B] already marked. *)
Definition allKnown : World :=
    mkWorld (mkState None (Some t20) None)
  {[ "id:1" := ("1", 5000%N); "id:2" := ("1", 5000%N) ]} [] [].

End Sample.

(** More sample data: six records at one timestamp, then one newer. *)
Module Burst.

Definition late : AIGLog := mkLog "7" Sample.t10 "late".

Definition records : list AIGLog :=
    [mkLog "2" Sample.t10 ""; mkLog "3" Sample.t10 ""; mkLog "4" Sample.t10 "";
    mkLog "5" Sample.t10 ""; mkLog "6" Sample.t10 ""; late; mkLog "8" Sample.t20 ""].

End Burst.

(** ** Cycles in which nothing fails *)

(** The log API serves every request. *)
Definition serves (e : Env) : Prop :=
  ∀ options page, logs_api e options page = Served.

(** No call to a KV namespace, to the token endpoint or to the sink rejects. *)
Definition faultless (e : Env) : Prop := ∀ c, faults e c = false.

(** The sink answers every batch with a success status. *)
Definition sinkAccepts (e : Env) : Prop :=
  ∀ rows, ok (insertAll_response e rows) = true.

(** What the two phases of a forward cycle fetch when the API serves. *)
Definition forwardListing (e : Env) (st : StateKV) : list AIGLog :=
  let lastTs := from_option cur_ts (nowMinus10m e) (forward st) in
  let lastId := from_option cur_id "" (forward st) in
  take (5 * LOGS_PER_PAGE e)
       (api_listing e (mkOptions OpEq lastTs (Some (KindGt, lastId)) true 5)) ++
  take (FORWARD_MAX_PAGES e * LOGS_PER_PAGE e)
       (api_listing e (mkOptions OpGt lastTs None true (FORWARD_MAX_PAGES e))).

(** The filtered batch of such a cycle. *)
Definition forwardResult (e : Env) (st : StateKV)
    (kv : gmap string (string * N)) : list AIGLog :=
  accepted (marked (now e) kv) [] (forwardListing e st).

(** The state store after a forward cycle has committed [toSend]. *)
Definition committed (toSend : list AIGLog) (st : StateKV) : StateKV :=
  match toSend with
  | [] => st
  | first :: _ =>
      mkState (Some (cursorOf (List.last toSend first)))
              (if truthy_opt (oldest st) then oldest st
               else Some (created_at first))
              (backfill_stop_at st)
  end.

(** Forward attempts, one after the other, that each threw before the dedup
    filter returned (the cursor read, a fetch or a marker lookup failed);
    the third argument is the world they leave. *)
Inductive AbortedEarly : list Env → World → World → Prop :=
  | AbortedNone w : AbortedEarly [] w w
  | AbortedOnce e rest w w1 w' err :
      forwardBatch e w = (w1, Err err) →
      AbortedEarly rest (runForward e w).1 w' →
      AbortedEarly (e :: rest) w w'.

(** What a backfill cycle fetches when the API serves, and what it sends. *)
Definition backfillListing (e : Env) (w : World) : list AIGLog :=
  take (BACKFILL_MAX_PAGES e * LOGS_PER_PAGE e)
       (api_listing e (backfillOptions e (oldestOf w))).

Definition backfillResult (e : Env) (w : World) : list AIGLog :=
  accepted (marked (now e) (IDS_KV w)) [] (merge_sort log_le (backfillListing e w)).

(** ** Iterated backfill *)

(** [n] backfill cycles in a row; cycle number [start + k] runs in the
    environment [es (start + k)]. *)
Fixpoint backfillFrom (es : nat → Env) (start n : nat) (w : World) : World :=
  match n with
  | 0 => w
  | S n' => backfillFrom es (S start) n' (runBackfill (es start) w).1
  end.

(** The result of the fetch a backfill cycle makes, if it makes one. *)
Definition backfillFetch (e : Env) (w : World) : option (Result (list AIGLog)) :=
  if faults e (CallStateGet "oldest") then None
  else if negb (truthy_opt (oldest (STATE_KV w))) then None
  else if faults e (CallStateGet "backfill_stop_at") then None
  else Some (fetchLogs e (backfillOptions e (oldestOf w)) w).2.

(** The source records older than the marker. *)
Definition older (src : list AIGLog) (w : World) : list AIGLog :=
  filter (λ r, str_lt (created_at r) (oldestOf w)) src.

(** Every source record older than the marker can still be delivered: it
    has an id, and the membership store has no entry for it. *)
Definition deliverable (src : list AIGLog) (w : World) : Prop :=
  ∀ r, r ∈ older src w → truthy (id r) ∧ IDS_KV w !! kvKey (id r) = None.

(** A cycle in which nothing fails, on the source [src]. *)
Definition calm (src : list AIGLog) (e : Env) : Prop :=
  source e = src ∧ serves e ∧ faultless e ∧ sinkAccepts e.

(** How a backfill cycle from [w] came to delete the marker. *)
Definition deletedBecause (e : Env) (w : World) : Prop :=
  truthy_opt (oldest (STATE_KV w)) ∧
  oldest (STATE_KV (runBackfill e w).1) = None ∧
  (backfillFetch e w = Some (Ok []) ∨
   ∃ first, head (backfillResult e w) = Some first ∧
            str_le (created_at first) (stopAtOf w)).

(** A batch with a record seen twice, a record without id and a record
    whose id is already marked, and the store holding that marker. *)
Module Batch.

Definition noId : AIGLog := mkLog "" Sample.t10 "x".

Definition logs : list AIGLog :=
    [Sample.A; Sample.B; Sample.A; noId; Sample.C].

Definition bKnown : World :=
    mkWorld (mkState None None None) {[ "id:2" := ("1", 5000%N) ]} [] [].

End Batch.

(** From [w], the backfill cycles number [start], [start + 1], ... leave
    the marker unset after at most [m + 1] of them, the last one having
    deleted it. *)
Definition settlesWithin (es : nat → Env) (start m : nat) (w : World) : Prop :=
  ∃ n, n ≤ S m ∧
    ¬ truthy_opt (oldest (STATE_KV (backfillFrom es start n w))) ∧
    (n = 0 ∨
     ∃ k, n = S k ∧ deletedBecause (es (start + k)) (backfillFrom es start k w)).

(** The filter looks up the marker of [r] (its id is not empty) and the
    lookup is rejected. *)
Definition lookupRejected (e : Env) (r : AIGLog) : bool :=
  truthy (id r) && faults e (CallIdsGet (kvKey (id r))).

(** ** What a cycle leaves behind *)

(** The records posted to the sink among some effects, in order. *)
Definition posted (evs : list Effect) : list AIGLog :=
  concat (sinkWrites evs).

(** The shape of every cycle, forward or backfill, from [w] to [w']: the
    filter accepted [batch] (the empty batch when the cycle did not get
    that far), the markers of [batch] were written, then [batch] was
    posted at most once, then the state store may have been written. *)
Definition cycleShape (e : Env) (w w' : World) (batch : list AIGLog) : Prop :=
  (∃ l, batch = accepted (marked (now e) (IDS_KV w)) [] l) ∧
  IDS_KV w' = withMarks e (IDS_KV w) (written e batch) ∧
  backfill_stop_at (STATE_KV w') = backfill_stop_at (STATE_KV w) ∧
  ∃ posts tail,
    effects w' =
      effects w ++ (markEffect e <$> written e batch) ++ posts ++ tail ∧
    (posts = [] ∨ posts = [InsertAll batch]) ∧
    sinkWrites tail = [].

(** The cursor a forward cycle starts from: the stored one, or ten minutes
    before now with the empty id ([lastTs] and [lastId] in [runForward]). *)
Definition lastTsOf (e : Env) (w : World) : string :=
  from_option cur_ts (nowMinus10m e) (forward (STATE_KV w)).

Definition lastIdOf (w : World) : string :=
  from_option cur_id "" (forward (STATE_KV w)).

(** A sequence of timer ticks, one cycle after the other. *)
Definition runTicks (ticks : list Tick) (w : World) : World :=
  foldl (λ w t, runTick t w) w ticks.

(** What a backfill cycle from the marker [oldestTs] can do between [w] and
    [w']: it has the shape of a cycle, for a batch of source records older
    than the marker; it leaves the forward cursor alone, and keeps the
    marker, deletes it, or moves it to the timestamp of an older source
    record. *)
Definition backfillOutcome (e : Env) (oldestTs : string) (w w' : World)
    : Prop :=
  (∃ batch, cycleShape e w w' batch ∧
     ∀ r, r ∈ batch → r ∈ source e ∧ str_lt (created_at r) oldestTs) ∧
  forward (STATE_KV w') = forward (STATE_KV w) ∧
  (∃ evs, effects w' = effects w ++ evs ∧ cursorPuts evs = []) ∧
  (oldest (STATE_KV w') = oldest (STATE_KV w) ∨
   oldest (STATE_KV w') = None ∨
   ∃ r, r ∈ source e ∧ str_lt (created_at r) oldestTs ∧
        oldest (STATE_KV w') = Some (created_at r)).

(** The order in which a request asks for its records. *)
Definition requestOrder (options : FetchLogsOptions) : relation AIGLog :=
  if asc options then log_le else log_ge.

(** The order of cursor positions: by timestamp, then by id.  A record is
    after the cursor ([after_cursor]) when its position is greater. *)
Definition cursor_lt (c c' : CursorState) : bool :=
  match localeCompare (cur_ts c') (cur_ts c) with
  | Gt => true
  | Eq => str_lt (cur_id c) (cur_id c')
  | Lt => false
  end.

(** The id [i] has a truthy marker that does not expire before [horizon]. *)
Definition covered (horizon : N) (kv : gmap string (string * N))
    (i : string) : Prop :=
  ∃ v expiry, kv !! kvKey i = Some (v, expiry) ∧ truthy v ∧
              (horizon ≤ expiry)%N.

(** The cursor positions written so far, after the one a run started from. *)
Definition cursorTrail (w w' : World) : list CursorState :=
  option_list (forward (STATE_KV w)) ++ cursorPuts (newEffects w w').

(** ** The logger ([src/logger.ts]) *)

Inductive LogLevel := LevelDebug | LevelInfo | LevelWarn | LevelError.

(** The string of a level, as the type [LogLevel] of the source has it. *)
Definition levelName (l : LogLevel) : string :=
  match l with
  | LevelDebug => "debug"
  | LevelInfo => "info"
  | LevelWarn => "warn"
  | LevelError => "error"
  end.

(** [this.levelPriority[name]]; [None] stands for [undefined], which is
    what the lookup gives (or what the comparison below makes of it) for
    a name that is not a level. *)
Definition levelPriority (name : string) : option nat :=
  if String.eqb name "debug" then Some 0
  else if String.eqb name "info" then Some 1
  else if String.eqb name "warn" then Some 2
  else if String.eqb name "error" then Some 3
  else None.

(** [toLowerCase] on the letters A to Z; the other characters of a level
    name are left as they are. *)
Definition lowerChar (c : ascii) : ascii :=
  let n := nat_of_ascii c in
  if (65 <=? n) && (n <=? 90) then ascii_of_nat (n + 32) else c.

Fixpoint toLowerCase (s : string) : string :=
  match s with
  | EmptyString => EmptyString
  | String c rest => String (lowerChar c) (toLowerCase rest)
  end.

Record Logger := mkLogger { level : string }.

(** [new Logger(level)]:
    [this.level = (level.toLowerCase() as LogLevel) || 'info']. *)
Definition newLogger (lvl : string) : Logger :=
  let lowered := toLowerCase lvl in
  mkLogger (if truthy lowered then lowered else "info").

(** [shouldLog]: [levelPriority[msgLevel] >= levelPriority[this.level]],
    which is false when a side is [undefined]. *)
Definition shouldLog (lg : Logger) (msgLevel : LogLevel) : bool :=
  match levelPriority (levelName msgLevel), levelPriority (level lg) with
  | Some p, Some q => q <=? p
  | _, _ => false
  end.

(** [new Logger(env.LOG_LEVEL || 'info')], the logger of [scheduled]. *)
Definition loggerOf (LOG_LEVEL : option string) : Logger :=
  newLogger (if truthy_opt LOG_LEVEL then default "" LOG_LEVEL else "info").

(** The method with which each recorded line is logged. *)
Definition severity (msg : LogMessage) : LogLevel :=
  match msg with
  | LogWithoutId _ | FailedToMark _ | BqInsertErrorsDetected _ => LevelWarn
  | CfLogsApiError _ | FailedToFetchPage _ | BqInsertAllError _
  | FailedToInsertLog _ _ | BqInsertAllFailed | ForwardFailed
  | BackfillFailed => LevelError
  end.

(** The recorded lines that a logger prints. *)
Definition printed (lg : Logger) (msgs : list LogMessage) : list LogMessage :=
  filter (λ msg, shouldLog lg (severity msg) = true) msgs.

(** The lines that [w'] has logged on top of [w]. *)
Definition newLogged (w w' : World) : list LogMessage :=
  drop (length (logged w)) (logged w').

(** The lines among [msgs] are lines of the stages of a cycle: none is the
    failure line of a cycle. *)
Definition stageLines (msgs : list LogMessage) : Prop :=
  (ForwardFailed ∉ msgs) ∧ (BackfillFailed ∉ msgs).

(** [m] only appends to the log, and only lines of the stages. *)
Definition logsStageLines {A} (m : M A) : Prop :=
  ∀ w, ∃ msgs, logged (m w).1 = logged w ++ msgs ∧ stageLines msgs.

(** ** The JWT of the token request ([src/google-auth.ts]) *)

Definition base64Alphabet : string :=
  "ABCDEFGHIJKLMNOPQRSTUVWXYZabcdefghijklmnopqrstuvwxyz0123456789+/".

(** The character of a 6-bit value. *)
Definition base64Char (n : nat) : ascii :=
  default "="%char (String.get n base64Alphabet).

(** [btoa]: the Base64 encoding of a string of bytes, three bytes to four
    characters, padded with [=]. *)
Fixpoint btoa (data : string) : string :=
  match data with
  | EmptyString => EmptyString
  | String a EmptyString =>
      let a := nat_of_ascii a in
      String (base64Char (a / 4))
        (String (base64Char (a mod 4 * 16)) "==")
  | String a (String b EmptyString) =>
      let a := nat_of_ascii a in
      let b := nat_of_ascii b in
      String (base64Char (a / 4))
        (String (base64Char (a mod 4 * 16 + b / 16))
           (String (base64Char (b mod 16 * 4)) "="))
  | String a (String b (String c rest)) =>
      let a := nat_of_ascii a in
      let b := nat_of_ascii b in
      let c := nat_of_ascii c in
      String (base64Char (a / 4))
        (String (base64Char (a mod 4 * 16 + b / 16))
           (String (base64Char (b mod 16 * 4 + c / 64))
              (String (base64Char (c mod 64)) (btoa rest))))
  end.

(** [s.replace(/c/g, r)] for a pattern of one character. *)
Fixpoint replaceAll (c : ascii) (r : string) (s : string) : string :=
  match s with
  | EmptyString => EmptyString
  | String x rest =>
      (if Ascii.eqb x c then r else String x EmptyString)
      +:+ replaceAll c r rest
  end.

(** The [base64url] closure of [createJWT]; a [Uint8Array] is the string
    of its bytes. *)
Definition base64url (data : string) : string :=
  replaceAll "=" "" (replaceAll "/" "_" (replaceAll "+" "-" (btoa data))).

Definition doubleQuote : string := String (ascii_of_nat 34) EmptyString.

(** [JSON.stringify({ alg: 'RS256', typ: 'JWT' })]. *)
Definition headerJson : string :=
  "{" +:+ doubleQuote +:+ "alg" +:+ doubleQuote +:+ ":" +:+
  doubleQuote +:+ "RS256" +:+ doubleQuote +:+ "," +:+
  doubleQuote +:+ "typ" +:+ doubleQuote +:+ ":" +:+
  doubleQuote +:+ "JWT" +:+ doubleQuote +:+ "}".

(** [createJWT].  The JSON text of the claims and the RS256 signature of
    the signing input come from outside: [claimsJson] is
    [JSON.stringify(claims)], and [signRS256] maps the signing input to
    the bytes of its signature. *)
Definition createJWT (claimsJson : string) (signRS256 : string → string)
    : string :=
  let encodedHeader := base64url headerJson in
  let encodedClaims := base64url claimsJson in
  let signatureInput := encodedHeader +:+ "." +:+ encodedClaims in
  let encodedSignature := base64url (signRS256 signatureInput) in
  signatureInput +:+ "." +:+ encodedSignature.

(** A letter, a digit, [-] or [_]. *)
Definition urlSafe (c : ascii) : bool :=
  let n := nat_of_ascii c in
  (65 <=? n) && (n <=? 90) || (97 <=? n) && (n <=? 122) ||
  (48 <=? n) && (n <=? 57) || (n =? 45) || (n =? 95).

Fixpoint allChars (P : ascii → bool) (s : string) : bool :=
  match s with
  | EmptyString => true
  | String c rest => P c && allChars P rest
  end.

Fixpoint countChar (c : ascii) (s : string) : nat :=
  match s with
  | EmptyString => 0
  | String x rest => (if Ascii.eqb x c then 1 else 0) + countChar c rest
  end.

(** What the three replacements of [base64url] make of one character. *)
Definition urlChar (x : ascii) : string :=
  replaceAll "=" "" (replaceAll "/" "_" (replaceAll "+" "-" (String x ""))).

(** ** Maintenance of the membership store ([src/dedup.ts]) *)

(** [clearDedupCache] and [getDedupStats] only touch the membership
    namespace; they are modelled on it alone. *)

(** The reply of [IDS_KV.list]: the names of the keys and, while the
    listing is not complete, a cursor. *)
Record ListResult := mkListResult {
  keys : list string;
  cursor : option string
}.

(** The calls of the maintenance functions that can reject. *)
Inductive KvCall :=
  | KvList (cur : option string)
  | KvDelete (key : string).

(** How a maintenance function ends: it returns, it throws the rejection
    of a call, or its loop is still running after [fuel] iterations. *)
Inductive Outcome (A : Type) :=
  | Returned (a : A)
  | Threw (c : KvCall)
  | StillRunning.
Arguments Returned {A} a.
Arguments Threw {A} c.
Arguments StillRunning {A}.

(** The names that a listing at time [t] goes through: the keys with the
    prefix whose entry has not expired, in lexicographic order. *)
Definition liveNames (t : N) (store : gmap string (string * N))
    (prefix : string) : list string :=
  merge_sort String.le
    (filter (λ name, String.prefix prefix name = true ∧
                     is_Some (store !! name ≫= live t))
            (elements (dom store))).

(** Workers KV is not code of this repository.  [list] is modelled as it
    is documented: it goes through the live names with the prefix in
    lexicographic order, at most [limit] per call; while names remain the
    reply carries a cursor, here the last name returned, and a call with a
    cursor continues after it. *)
Definition kvList (t : N) (store : gmap string (string * N))
    (prefix : string) (limit : nat) (cur : option string) : ListResult :=
  let names := liveNames t store prefix in
  let rest :=
    match cur with
    | None => names
    | Some c => filter (λ name, ¬ String.le name c) names
    end in
  let page := take limit rest in
  mkListResult page (if decide (limit < length rest) then last page else None).

(** [limit: 1000] of both functions. *)
Definition listLimit : nat := 1000.

(** [Promise.all(listResult.keys.map(key => IDS_KV.delete(key.name)))]:
    every delete is started, and the call throws when one of them is
    rejected (the first in the order of the keys is reported). *)
Fixpoint deleteAll (rejects : KvCall → bool) (names : list string)
    (store : gmap string (string * N))
    : gmap string (string * N) * option KvCall :=
  match names with
  | [] => (store, None)
  | name :: rest =>
      if rejects (KvDelete name) then
        ((deleteAll rejects rest store).1, Some (KvDelete name))
      else deleteAll rejects rest (delete name store)
  end.

(** The [do ... while (cursor)] loop of [clearDedupCache]. *)
Fixpoint clearLoop (e : Env) (rejects : KvCall → bool) (fuel : nat)
    (cur : option string) (deleted : nat) (store : gmap string (string * N))
    : gmap string (string * N) * Outcome nat :=
  match fuel with
  | 0 => (store, StillRunning)
  | S fuel' =>
      if rejects (KvList cur) then (store, Threw (KvList cur))
      else
        let listResult := kvList (now e) store "id:" listLimit cur in
        match deleteAll rejects (keys listResult) store with
        | (store', Some c) => (store', Threw c)
        | (store', None) =>
            let deleted' := deleted + length (keys listResult) in
            if truthy_opt (cursor listResult) then
              clearLoop e rejects fuel' (cursor listResult) deleted' store'
            else (store', Returned deleted')
        end
  end.

(** [clearDedupCache]; the value returned is [deleted], the count that the
    function logs before it returns.  The warning that it logs first is
    not recorded. *)
Definition clearDedupCache (e : Env) (rejects : KvCall → bool) (fuel : nat)
    (store : gmap string (string * N))
    : gmap string (string * N) * Outcome nat :=
  clearLoop e rejects fuel None 0 store.

Fixpoint dropChars (n : nat) (s : string) : string :=
  match n, s with
  | S n', String _ rest => dropChars n' rest
  | _, _ => s
  end.

(** [s.replace(pattern, replacement)] with a string pattern: the first
    occurrence is replaced. *)
Fixpoint replaceFirst (pattern replacement s : string) : string :=
  if String.prefix pattern s then
    replacement +:+ dropChars (String.length pattern) s
  else
    match s with
    | EmptyString => EmptyString
    | String c rest => String c (replaceFirst pattern replacement rest)
    end.

(** The [for (const key of listResult.keys)] loop of [getDedupStats]:
    sample ids are pushed until there are 10. *)
Fixpoint collectSamples (sampleIds : list string) (names : list string)
    : list string :=
  match names with
  | [] => sampleIds
  | name :: rest =>
      if decide (10 ≤ length sampleIds) then sampleIds
      else collectSamples (sampleIds ++ [replaceFirst "id:" "" name]) rest
  end.

Record DedupStats := mkStats {
  totalEntries : nat;
  sampleIds : list string
}.

(** The [do ... while (cursor)] loop of [getDedupStats]. *)
Fixpoint statsLoop (e : Env) (rejects : KvCall → bool) (fuel : nat)
    (cur : option string) (total : nat) (samples : list string)
    (store : gmap string (string * N)) : Outcome DedupStats :=
  match fuel with
  | 0 => StillRunning
  | S fuel' =>
      if rejects (KvList cur) then Threw (KvList cur)
      else
        let listResult := kvList (now e) store "id:" listLimit cur in
        let total' := total + length (keys listResult) in
        let samples' :=
          if decide (length samples < 10) then
            collectSamples samples (keys listResult)
          else samples in
        if truthy_opt (cursor listResult) then
          statsLoop e rejects fuel' (cursor listResult) total' samples' store
        else Returned (mkStats total' samples')
  end.

Definition getDedupStats (e : Env) (rejects : KvCall → bool) (fuel : nat)
    (store : gmap string (string * N)) : Outcome DedupStats :=
  statsLoop e rejects fuel None 0 [] store.

(** The ids whose marker is stored and has not expired at time [t]. *)
Definition liveIds (t : N) (store : gmap string (string * N)) : list string :=
  dropChars 3 <$> liveNames t store "id:".

(** A membership store with two live markers, an expired one and a key
    that is not a marker (the clock of the samples is at 1000). *)
Module Markers.

Definition store : gmap string (string * N) :=
    {[ "id:1" := ("1", 5000%N); "id:2" := ("1", 500%N);
    "other" := ("x", 9000%N); "id:10" := ("1", 5000%N) ]}.

End Markers.

(** ** [checkBigQueryTable] ([src/bigquery.ts]) *)

(** [response.ok]: the status is in the range 200 to 299. *)
Definition response_ok (code : nat) : bool :=
  (200 <=? code) && (code <=? 299).

(** [checkBigQueryTable].  The GET of the table resource is a parameter:
    [tableGet] returns the status of the response, or throws when the
    request is rejected.  The lines that the function logs are left out. *)
Definition checkBigQueryTable (e : Env) (tableGet : M nat) : M bool :=
  catch
    (wait calling e CallAccessToken then
     await code := tableGet in
     if decide (code = 404) then ret false
     else if negb (response_ok code) then ret false
     else ret true)
    (λ _, ret false).

(** * Properties *)

(** ** The order on strings and on records *)

Section string_order.

Lemma localeCompare_refl s : localeCompare s s = Eq.
Proof.
  unfold localeCompare. induction s as [|a s IH]; simpl; [done|].
  unfold Ascii.compare. by rewrite N.compare_refl.
Qed.

Lemma localeCompare_eq a b : localeCompare a b = Eq → a = b.
Proof. apply String.compare_eq_iff. Qed.

Lemma localeCompare_flip a b : localeCompare b a = CompOpp (localeCompare a b).
Proof. apply String.compare_antisym. Qed.

Lemma localeCompare_lt_trans a b c :
  localeCompare a b = Lt → localeCompare b c = Lt → localeCompare a c = Lt.
Proof.
  unfold localeCompare. revert b c.
  induction a as [|x a IH]; intros [|y b] [|z c]; simpl; try done.
  destruct (Ascii.compare x y) eqn:Hxy; try done;
    destruct (Ascii.compare y z) eqn:Hyz; try done; intros Hab Hbc.
  - apply Ascii.compare_eq_iff in Hxy, Hyz. subst.
    unfold Ascii.compare. rewrite N.compare_refl. eauto.
  - apply Ascii.compare_eq_iff in Hxy. subst. by rewrite Hyz.
  - apply Ascii.compare_eq_iff in Hyz. subst. by rewrite Hxy.
  - unfold Ascii.compare in *.
    rewrite N.compare_lt_iff in Hxy, Hyz.
    assert (N_of_ascii x < N_of_ascii z)%N as Hxz by lia.
    apply N.compare_lt_iff in Hxz. by rewrite Hxz.
Qed.

Lemma str_lt_trans a b c : str_lt a b → str_lt b c → str_lt a c.
Proof.
  unfold str_lt. intros Hab Hbc.
  destruct (localeCompare a b) eqn:E1; try done.
  destruct (localeCompare b c) eqn:E2; try done.
  by rewrite (localeCompare_lt_trans a b c).
Qed.

Lemma str_lt_irrefl a : ¬ str_lt a a.
Proof. unfold str_lt. rewrite localeCompare_refl. intros []. Qed.

Lemma str_lt_le_trans a b c : str_lt a b → str_le b c → str_lt a c.
Proof.
  unfold str_le. intros Hab Hbc.
  destruct (localeCompare b c) eqn:E; try done.
  - apply localeCompare_eq in E. by subst.
  - apply (str_lt_trans a b c); [done|]. unfold str_lt. by rewrite E.
Qed.

Lemma eqb_Is_true a b : String.eqb a b → a = b.
Proof. intros H. by apply String.eqb_eq, Is_true_true. Qed.

Lemma str_le_refl a : str_le a a.
Proof. unfold str_le. by rewrite localeCompare_refl. Qed.

Lemma str_le_empty a : str_le "" a.
Proof. by destruct a. Qed.

Lemma compareLogs_flip a b : compareLogs b a = CompOpp (compareLogs a b).
Proof.
  unfold compareLogs.
  rewrite (localeCompare_flip (created_at a)), (localeCompare_flip (id a)).
  by destruct (localeCompare (created_at a) (created_at b)).
Qed.

Lemma compareLogs_lt_trans a b c :
  compareLogs a b = Lt → compareLogs b c = Lt → compareLogs a c = Lt.
Proof.
  unfold compareLogs.
  destruct (localeCompare (created_at a) (created_at b)) eqn:E1; try done;
    destruct (localeCompare (created_at b) (created_at c)) eqn:E2; try done;
    intros Hab Hbc.
  - apply localeCompare_eq in E1, E2. rewrite E1, E2, localeCompare_refl.
    eauto using localeCompare_lt_trans.
  - apply localeCompare_eq in E1. by rewrite E1, E2.
  - apply localeCompare_eq in E2. by rewrite <-E2, E1.
  - by rewrite (localeCompare_lt_trans _ _ _ E1 E2).
Qed.

Lemma compareLogs_eq_keys a b :
  compareLogs a b = Eq → created_at a = created_at b ∧ id a = id b.
Proof.
  unfold compareLogs.
  destruct (localeCompare (created_at a) (created_at b)) eqn:E; try done.
  intros E'. split; by apply localeCompare_eq.
Qed.

Global Instance log_le_total : Total log_le.
Proof.
  intros a b. unfold log_le. rewrite (compareLogs_flip a b).
  destruct (compareLogs a b); simpl; [left|left|right]; done.
Qed.

Global Instance log_le_trans : Transitive log_le.
Proof.
  intros a b c. unfold log_le. intros Hab Hbc.
  destruct (compareLogs a b) eqn:E1; [| |done];
    destruct (compareLogs b c) eqn:E2; try done.
  - apply compareLogs_eq_keys in E1 as [E1 E1'].
    apply compareLogs_eq_keys in E2 as [E2 E2'].
    unfold compareLogs. by rewrite E1, E2, E1', E2', !localeCompare_refl.
  - apply compareLogs_eq_keys in E1 as [E1 E1'].
    unfold compareLogs in *. rewrite E1, E1'. by rewrite E2.
  - apply compareLogs_eq_keys in E2 as [E2 E2'].
    unfold compareLogs in *. rewrite <-E2, <-E2'. by rewrite E1.
  - by rewrite (compareLogs_lt_trans _ _ _ E1 E2).
Qed.

Global Instance log_ge_total : Total log_ge.
Proof. intros a b. unfold log_ge. destruct (total log_le a b); auto. Qed.

Global Instance log_ge_trans : Transitive log_ge.
Proof. intros a b c. unfold log_ge. intros. by transitivity b. Qed.

(** In a list sorted ascending the first record has the least timestamp. *)
Lemma log_le_created_at a b : log_le a b → str_le (created_at a) (created_at b).
Proof.
  unfold log_le, compareLogs, str_le.
  by destruct (localeCompare (created_at a) (created_at b)).
Qed.

End string_order.

(** ** Pagination *)

Section pagination.
Context (e : Env) (options : FetchLogsOptions).

Lemma requestPage_served page w :
  logs_api e options page = Served →
  requestPage e options page w = (w, Ok (api_page e options page)).
Proof. intros H. unfold requestPage, catch. by rewrite H. Qed.

(** While the API serves, the loop returns the first [remaining] pages of
    the listing that starts at page [page]. *)
Lemma fetchPages_served remaining : ∀ (page : nat) allLogs w,
  (∀ p, logs_api e options p = Served) →
  (1 ≤ page)%nat →
  fetchPages e options remaining page allLogs w =
    (w, Ok (allLogs ++ take (remaining * LOGS_PER_PAGE e)
                            (drop ((page - 1) * LOGS_PER_PAGE e)
                                  (api_listing e options)))).
Proof.
  induction remaining as [|r IH]; intros page allLogs w Hserved Hpage.
  { simpl. unfold ret. by rewrite app_nil_r. }
  cbn [fetchPages]. unfold bind. rewrite requestPage_served by done.
  unfold api_page.
  set (pp := LOGS_PER_PAGE e).
  set (D := drop ((page - 1) * pp) (api_listing e options)).
  assert (length (take pp D) = pp `min` length D) as Hlen by apply length_take.
  destruct (decide (length (take pp D) = 0)) as [H0|H0].
  { unfold ret. do 2 f_equal.
    destruct (decide (pp = 0)) as [->|Hpp].
    - by rewrite Nat.mul_0_r, take_0, app_nil_r.
    - assert (D = []) as -> by (apply length_zero_iff_nil; lia).
      by rewrite take_nil, app_nil_r. }
  destruct (decide (length (take pp D) < pp)) as [Hlt|Hge].
  { unfold ret. do 3 f_equal.
    rewrite !take_ge; [done| |]; lia. }
  rewrite IH by (done || lia).
  do 2 f_equal. rewrite <-app_assoc. f_equal.
  fold pp. replace ((S page - 1) * pp) with ((page - 1) * pp + pp) by nia.
  rewrite <-drop_drop. fold D.
  replace (S r * pp) with (pp + r * pp) by lia.
  by rewrite take_take_drop.
Qed.

(** [fetchLogs] returns the listing cut at the page budget. *)
Lemma fetchLogs_served w :
  (∀ p, logs_api e options p = Served) →
  fetchLogs e options w =
    (w, Ok (take (maxPages options * LOGS_PER_PAGE e) (api_listing e options))).
Proof.
  intros H. unfold fetchLogs. rewrite fetchPages_served by (done || lia).
  by rewrite Nat.mul_0_l, drop_0.
Qed.

(** [fetchLogs] never writes to a store: it only reads pages and logs. *)
Lemma requestPage_frame page w w' res :
  requestPage e options page w = (w', res) →
  STATE_KV w' = STATE_KV w ∧ IDS_KV w' = IDS_KV w ∧ effects w' = effects w.
Proof.
  unfold requestPage, catch.
  destruct (logs_api e options page); by intros [= <- <-].
Qed.

Lemma fetchPages_frame remaining : ∀ page allLogs w w' res,
  fetchPages e options remaining page allLogs w = (w', res) →
  STATE_KV w' = STATE_KV w ∧ IDS_KV w' = IDS_KV w ∧ effects w' = effects w.
Proof.
  induction remaining as [|r IH]; intros page allLogs w w' res.
  { simpl. unfold ret. by intros [= <- <-]. }
  cbn [fetchPages]. unfold bind.
  destruct (requestPage e options page w) as [w1 [logs|err]] eqn:E;
    apply requestPage_frame in E as (E1 & E2 & E3).
  - repeat case_decide; unfold ret; try (by intros [= <- <-]).
    intros Hrec%IH. by rewrite <-E1, <-E2, <-E3.
  - by intros [= <- <-].
Qed.

Lemma fetchLogs_frame w w' res :
  fetchLogs e options w = (w', res) →
  STATE_KV w' = STATE_KV w ∧ IDS_KV w' = IDS_KV w ∧ effects w' = effects w.
Proof. apply fetchPages_frame. Qed.

End pagination.

(** ** The two-phase forward fetch *)

Section two_phase.
Context (lastTs lastId : string).

Lemma after_cursor_split r :
  after_cursor lastTs lastId r =
    same_ts_after lastTs lastId r || newer lastTs r.
Proof.
  unfold after_cursor, same_ts_after, newer.
  generalize (str_lt lastId (id r)). intros b. unfold str_lt.
  rewrite (localeCompare_flip (created_at r) lastTs).
  destruct (String.eqb_spec (created_at r) lastTs) as [->|Hne].
  - rewrite localeCompare_refl. simpl. by rewrite orb_false_r.
  - destruct (localeCompare (created_at r) lastTs) eqn:E; simpl; try done.
    by apply localeCompare_eq in E.
Qed.

Lemma phases_disjoint r :
  same_ts_after lastTs lastId r → newer lastTs r → False.
Proof.
  unfold same_ts_after, newer. intros [H1 _]%andb_prop_elim H2.
  apply eqb_Is_true in H1. rewrite H1 in H2.
  by apply str_lt_irrefl in H2.
Qed.

Lemma filter_after_cursor (l : list AIGLog) :
  filter (λ r, after_cursor lastTs lastId r) l ≡ₚ
  filter (λ r, same_ts_after lastTs lastId r) l ++
  filter (λ r, newer lastTs r) l.
Proof.
  induction l as [|r l IH]; [done|].
  rewrite !filter_cons, after_cursor_split.
  pose proof (phases_disjoint r) as Hdis.
  destruct (same_ts_after lastTs lastId r), (newer lastTs r); simpl in *;
    repeat case_decide; try done; try (by destruct Hdis).
  - by rewrite IH.
  - by rewrite IH, Permutation_middle.
Qed.

(** Every phase-1 record sorts before every phase-2 record. *)
Lemma phase1_before_phase2 x1 x2 :
  same_ts_after lastTs lastId x1 → newer lastTs x2 → log_le x1 x2.
Proof.
  unfold same_ts_after, newer, log_le, compareLogs, str_lt.
  intros [H1 _]%andb_prop_elim H2.
  apply eqb_Is_true in H1. rewrite H1.
  by destruct (localeCompare lastTs (created_at x2)).
Qed.

End two_phase.

Section listing.
Context (e : Env).

Lemma api_listing_Permutation options :
  api_listing e options ≡ₚ filter (λ r, api_matches options r) (source e).
Proof.
  unfold api_listing. destruct (asc options); apply merge_sort_Permutation.
Qed.

Lemma api_listing_ascending options :
  asc options = true → StronglySorted log_le (api_listing e options).
Proof.
  unfold api_listing. intros ->. apply StronglySorted_merge_sort; apply _.
Qed.

Lemma api_listing_elem_of options r :
  r ∈ api_listing e options ↔ api_matches options r ∧ r ∈ source e.
Proof. by rewrite api_listing_Permutation, list_elem_of_filter. Qed.

Lemma phase1_matches lastTs lastId r :
  api_matches (mkOptions OpEq lastTs (Some (KindGt, lastId)) true 5) r =
    same_ts_after lastTs lastId r.
Proof. done. Qed.

Lemma phase2_matches lastTs n r :
  api_matches (mkOptions OpGt lastTs None true n) r = newer lastTs r.
Proof. unfold api_matches, newer. simpl. by rewrite andb_true_r. Qed.

Lemma backfill_matches oldestTs n r :
  api_matches (mkOptions OpLt oldestTs None false n) r =
    str_lt (created_at r) oldestTs.
Proof. unfold api_matches. simpl. by rewrite andb_true_r. Qed.

End listing.

(** ** The dedup filter *)

Ltac run_m :=
  unfold bind, catch, ret, throw, calling, perform, logger, setState, setIds
    in *.

Section dedup.
Context (e : Env).

Lemma quietly_trans w1 w2 w3 : quietly w1 w2 → quietly w2 w3 → quietly w1 w3.
Proof. unfold quietly. intros (-> & -> & ->) (-> & -> & ->). done. Qed.

Lemma idsGet_run key w :
  idsGet e key w =
    if faults e (CallIdsGet key) then (w, Err (CallRejected (CallIdsGet key)))
    else (w, Ok (IDS_KV w !! key ≫= live (now e))).
Proof. unfold idsGet. run_m. by destruct (faults e _). Qed.

(** The loop decides as the design document says, and writes nothing. *)
Lemma dedupLoop_accepted logs : ∀ seen earlier output w,
  (∀ r, r ∈ logs → faults e (CallIdsGet (kvKey (id r))) = false) →
  (∀ i, truthy i → i ∈ seen ↔ i ∈ earlier) →
  ∃ w', dedupLoop e logs seen output w =
    (w', Ok (output ++ accepted (marked (now e) (IDS_KV w)) earlier logs)) ∧
  quietly w w'.
Proof.
  induction logs as [|r rest IH]; intros seen earlier output w Hok Hseen.
  { exists w. simpl. unfold ret. by rewrite app_nil_r. }
  cbn [dedupLoop accepted].
  assert (∀ r', r' ∈ rest → faults e (CallIdsGet (kvKey (id r'))) = false)
    as Hrest by (intros; apply Hok; by right).
  destruct (truthy (id r)) eqn:Hid; simpl.
  - assert (∀ i, truthy i → i ∈ {[id r]} ∪ seen ↔ i ∈ earlier ++ [id r])
      as Hseen'.
    { intros i Hi. rewrite elem_of_union, elem_of_singleton, elem_of_app,
      list_elem_of_singleton, (Hseen i Hi). tauto. }
    destruct (decide (id r ∈ seen)) as [Hin|Hin].
    + rewrite bool_decide_true by (apply Hseen; [by rewrite Hid|done]).
      simpl.
      destruct (IH seen (earlier ++ [id r]) output w Hrest) as (w' & -> & ?).
      { intros i Hi. rewrite elem_of_app, list_elem_of_singleton, (Hseen i Hi).
        split; [tauto|]. intros [?| ->]; [done|]. by apply Hseen. }
      eauto.
    + rewrite bool_decide_false
        by (rewrite <-Hseen; [done|by rewrite Hid]).
      unfold bind. rewrite idsGet_run, Hok by left. fold (marked (now e) (IDS_KV w) (id r)).
      destruct (marked (now e) (IDS_KV w) (id r)); simpl.
      * destruct (IH _ _ output w Hrest Hseen') as (w' & -> & ?). eauto.
      * destruct (IH _ _ (output ++ [r]) w Hrest Hseen') as (w' & -> & ?).
        rewrite <-app_assoc. eauto.
  - run_m.
    set (w1 := mkWorld _ _ _ _).
    destruct (IH seen (earlier ++ [id r]) output w1 Hrest) as (w' & -> & Hq).
    { intros i Hi. rewrite elem_of_app, list_elem_of_singleton, (Hseen i Hi).
      split; [tauto|]. intros [?| ->]; [done|]. by rewrite Hid in Hi. }
    exists w'. split; [done|]. eapply quietly_trans; [|done]. done.
Qed.

(** Whatever happens in the loop, it writes nothing. *)
Lemma dedupLoop_quietly logs : ∀ seen output w w' res,
  dedupLoop e logs seen output w = (w', res) → quietly w w'.
Proof.
  induction logs as [|r rest IH]; intros seen output w w' res.
  { simpl. unfold ret. by intros [= <- <-]. }
  cbn [dedupLoop].
  destruct (negb (truthy (id r))).
  { run_m. intros H%IH. eapply quietly_trans; [|done]. done. }
  destruct (decide (id r ∈ seen)); [apply IH|].
  unfold bind. rewrite idsGet_run.
  destruct (faults e _); [by intros [= <- <-]|].
  destruct (truthy_opt _); apply IH.
Qed.

End dedup.

Section marking.
Context (e : Env).

Lemma idsPut_run key value ttl w :
  idsPut e key value ttl w =
    if faults e (CallIdsPut key) then (w, Err (CallRejected (CallIdsPut key)))
    else (mkWorld (STATE_KV w) (<[key := (value, (now e + ttl)%N)]> (IDS_KV w))
                  (effects w ++ [IdsPut key value ttl]) (logged w), Ok ()).
Proof. unfold idsPut. run_m. by destruct (faults e _). Qed.

(** Marking never throws: a rejected write leaves a log line only. *)
Lemma markProcessed_run output : ∀ w,
  markProcessed e output w =
    (mkWorld (STATE_KV w)
             (withMarks e (IDS_KV w) (written e output))
             (effects w ++ (markEffect e <$> written e output))
             (logged w ++ markFailures e output),
     Ok ()).
Proof.
  unfold written, markFailures.
  induction output as [|r rest IH]; intros w.
  { simpl. unfold ret. rewrite !app_nil_r. by destruct w. }
  cbn [markProcessed]. unfold bind, catch. rewrite idsPut_run, !filter_cons.
  destruct (faults e (CallIdsPut (kvKey (id r)))) eqn:Hf.
  - unfold logger. rewrite IH. simpl. by rewrite <-app_assoc.
  - rewrite IH. simpl. by rewrite <-app_assoc.
Qed.

(** The result of the filter when no marker lookup rejects. *)
Lemma dedupAndFilter_run logs w :
  (∀ r, r ∈ logs → faults e (CallIdsGet (kvKey (id r))) = false) →
  let output := accepted (marked (now e) (IDS_KV w)) [] logs in
  ∃ w', dedupAndFilter e logs w = (w', Ok output) ∧
  STATE_KV w' = STATE_KV w ∧
  IDS_KV w' = withMarks e (IDS_KV w) (written e output) ∧
  effects w' = effects w ++ (markEffect e <$> written e output).
Proof.
  intros Hok output. unfold dedupAndFilter, bind.
  destruct (dedupLoop_accepted e logs ∅ [] [] w Hok) as (w1 & -> & Hq).
  { intros i _. set_solver. }
  simpl. fold output. destruct Hq as (Hs & Hi & He).
  case_decide as Hlen.
  - rewrite markProcessed_run. unfold ret. eexists. split; [done|].
    simpl. by rewrite Hs, Hi, He.
  - unfold ret. exists w1. split; [done|].
    assert (output = []) as -> by (apply length_zero_iff_nil; lia).
    unfold written. simpl. by rewrite app_nil_r.
Qed.

(** The result of the filter in general: it throws without having written,
    or returns after marking what it accepted. *)
Lemma dedupAndFilter_inv logs w w' res :
  dedupAndFilter e logs w = (w', res) →
  (∃ err, res = Err err ∧ quietly w w') ∨
  (∃ output, res = Ok output ∧
    STATE_KV w' = STATE_KV w ∧
    IDS_KV w' = withMarks e (IDS_KV w) (written e output) ∧
    effects w' = effects w ++ (markEffect e <$> written e output)).
Proof.
  unfold dedupAndFilter, bind.
  destruct (dedupLoop e logs ∅ [] w) as [w1 [output|err]] eqn:E;
    apply dedupLoop_quietly in E as Hq.
  - destruct Hq as (Hs & Hi & He). case_decide as Hlen.
    + rewrite markProcessed_run. unfold ret. intros [= <- <-].
      right. eexists. split; [done|]. simpl. by rewrite Hs, Hi, He.
    + unfold ret. intros [= <- <-]. right. exists output. split; [done|].
      assert (output = []) as -> by (apply length_zero_iff_nil; lia).
      unfold written. simpl. by rewrite app_nil_r.
  - intros [= <- <-]. left. eauto.
Qed.

End marking.

(** ** The sink writer *)

Section sink.
Context (e : Env).

Lemma logInsertErrors_run logs errs : ∀ w,
  logInsertErrors logs errs w =
    (after w []
       ((λ err, FailedToInsertLog (id <$> logs !! index err) (errors err)) <$> errs),
     Ok ()).
Proof.
  unfold after. induction errs as [|err errs IH]; intros w.
  { simpl. unfold ret. rewrite !app_nil_r. by destruct w. }
  cbn [logInsertErrors]. run_m. rewrite IH. simpl.
  by rewrite !app_nil_r, <-app_assoc.
Qed.

Lemma bqInsertAll_nil w : bqInsertAll e [] w = (w, Ok ()).
Proof. done. Qed.

(** All the ways a non-empty batch can go. *)
Lemma bqInsertAll_run logs w :
  logs ≠ [] →
  bqInsertAll e logs w =
    if faults e CallAccessToken then
      (after w [] [BqInsertAllFailed], Err (CallRejected CallAccessToken))
    else if faults e CallInsertAll then
      (after w [] [BqInsertAllFailed], Err (CallRejected CallInsertAll))
    else if ok (insertAll_response e logs) then
      (after w [InsertAll logs]
             (rowErrorLog logs (insertErrors (insertAll_response e logs))),
       Ok ())
    else
      (after w [InsertAll logs]
             [BqInsertAllError (status (insertAll_response e logs));
              BqInsertAllFailed],
       Err (SinkError (status (insertAll_response e logs)))).
Proof.
  intros Hne. unfold bqInsertAll, after.
  rewrite decide_False by (by destruct logs).
  run_m.
  destruct (faults e CallAccessToken); [by rewrite app_nil_r|].
  destruct (faults e CallInsertAll); [by rewrite app_nil_r|].
  simpl. destruct (ok (insertAll_response e logs)); simpl.
  - destruct (insertErrors (insertAll_response e logs)) as [|err errs] eqn:Herrs.
    + simpl. by rewrite app_nil_r.
    + rewrite decide_True by (simpl; lia).
      rewrite logInsertErrors_run. unfold after. simpl.
      by rewrite app_nil_r, <-app_assoc.
  - by rewrite <-app_assoc.
Qed.

(** The writer touches no store. *)
Lemma bqInsertAll_stores logs w w' res :
  bqInsertAll e logs w = (w', res) →
  STATE_KV w' = STATE_KV w ∧ IDS_KV w' = IDS_KV w.
Proof.
  destruct logs as [|r logs]; [rewrite bqInsertAll_nil; by intros [= <- <-]|].
  rewrite bqInsertAll_run by done.
  repeat case_match; by intros [= <- <-].
Qed.

End sink.

(** ** The state store *)

Section state_store.
Context (e : Env).

Lemma stateGetForward_run w :
  stateGetForward e w =
    if faults e (CallStateGet "forward")
    then (w, Err (CallRejected (CallStateGet "forward")))
    else (w, Ok (forward (STATE_KV w))).
Proof. unfold stateGetForward. run_m. by destruct (faults e _). Qed.

Lemma stateGetOldest_run w :
  stateGetOldest e w =
    if faults e (CallStateGet "oldest")
    then (w, Err (CallRejected (CallStateGet "oldest")))
    else (w, Ok (oldest (STATE_KV w))).
Proof. unfold stateGetOldest. run_m. by destruct (faults e _). Qed.

Lemma stateGetStopAt_run w :
  stateGetStopAt e w =
    if faults e (CallStateGet "backfill_stop_at")
    then (w, Err (CallRejected (CallStateGet "backfill_stop_at")))
    else (w, Ok (backfill_stop_at (STATE_KV w))).
Proof. unfold stateGetStopAt. run_m. by destruct (faults e _). Qed.

Lemma statePutForward_run c w :
  statePutForward e c w =
    if faults e (CallStatePut "forward")
    then (w, Err (CallRejected (CallStatePut "forward")))
    else (mkWorld (mkState (Some c) (oldest (STATE_KV w))
                           (backfill_stop_at (STATE_KV w)))
                  (IDS_KV w) (effects w ++ [StatePutForward c]) (logged w),
          Ok ()).
Proof. unfold statePutForward. run_m. by destruct (faults e _). Qed.

Lemma statePutOldest_run v w :
  statePutOldest e v w =
    if faults e (CallStatePut "oldest")
    then (w, Err (CallRejected (CallStatePut "oldest")))
    else (mkWorld (mkState (forward (STATE_KV w)) (Some v)
                           (backfill_stop_at (STATE_KV w)))
                  (IDS_KV w) (effects w ++ [StatePutOldest v]) (logged w),
          Ok ()).
Proof. unfold statePutOldest. run_m. by destruct (faults e _). Qed.

Lemma stateDeleteOldest_run w :
  stateDeleteOldest e w =
    if faults e (CallStateDelete "oldest")
    then (w, Err (CallRejected (CallStateDelete "oldest")))
    else (mkWorld (mkState (forward (STATE_KV w)) None
                           (backfill_stop_at (STATE_KV w)))
                  (IDS_KV w) (effects w ++ [StateDeleteOldest]) (logged w),
          Ok ()).
Proof. unfold stateDeleteOldest. run_m. by destruct (faults e _). Qed.

(** [runForward] is its two halves, under its [catch]. *)
Lemma runForward_stages w :
  runForward e w =
    catch (await toSend := forwardBatch e in forwardCommit e toSend)
          (λ err, wait logger ForwardFailed then throw err) w.
Proof.
  unfold runForward, forwardBatch, forwardCommit, catch, bind.
  destruct (stateGetForward e w) as [w0 [cursor|err]]; [|done].
  destruct (fetchForward e _ _ w0) as [w1 [allLogs|err]]; [|done].
  by destruct (dedupAndFilter e allLogs w1) as [w2 [[|first rest]|err]].
Qed.

End state_store.

(** ** What a fetch and a filter can return *)

Section results.
Context (e : Env).

Lemma requestPage_ok options page w w' logs :
  requestPage e options page w = (w', Ok logs) →
  w' = w ∧ logs = api_page e options page.
Proof.
  unfold requestPage, catch.
  destruct (logs_api e options page); run_m; by intros [= <- <-].
Qed.

Lemma requestPage_err options page w w' err :
  requestPage e options page w = (w', Err err) → err = SourceError page.
Proof.
  unfold requestPage, catch.
  destruct (logs_api e options page); run_m; by intros [= <- <-].
Qed.

Lemma api_page_sublist options page :
  api_page e options page `sublist_of` api_listing e options.
Proof.
  unfold api_page. etrans; [apply sublist_take|apply sublist_drop].
Qed.

(** A fetch only returns records of the listing it asked for. *)
Lemma fetchPages_elem_of options remaining : ∀ page allLogs w w' logs r,
  fetchPages e options remaining page allLogs w = (w', Ok logs) →
  r ∈ logs → r ∈ allLogs ∨ r ∈ api_listing e options.
Proof.
  induction remaining as [|n IH]; intros page allLogs w w' logs r.
  { simpl. unfold ret. intros [= <- <-]. auto. }
  cbn [fetchPages]. unfold bind.
  destruct (requestPage e options page w) as [w1 [pg|err]] eqn:E; [|done].
  apply requestPage_ok in E as [-> ->].
  assert (∀ x, x ∈ allLogs ++ api_page e options page →
    x ∈ allLogs ∨ x ∈ api_listing e options) as Happ.
  { intros x [?|?]%elem_of_app; [by left|right].
    by eapply elem_of_sublist, api_page_sublist. }
  repeat case_decide; unfold ret.
  - intros [= <- <-]. auto.
  - intros [= <- <-]. auto.
  - intros Hrec Hr. destruct (IH _ _ _ _ _ _ Hrec Hr); auto.
Qed.

Lemma fetchLogs_elem_of options w w' logs r :
  fetchLogs e options w = (w', Ok logs) → r ∈ logs →
  api_matches options r ∧ r ∈ source e.
Proof.
  intros H Hr. apply api_listing_elem_of.
  destruct (fetchPages_elem_of _ _ _ _ _ _ _ _ H Hr) as [?%elem_of_nil|?]; done.
Qed.

Lemma fetchPages_err options remaining : ∀ page allLogs w w' err,
  fetchPages e options remaining page allLogs w = (w', Err err) →
  ∃ p, err = SourceError p.
Proof.
  induction remaining as [|n IH]; intros page allLogs w w' err; [done|].
  cbn [fetchPages]. unfold bind.
  destruct (requestPage e options page w) as [w1 [pg|err1]] eqn:E.
  - repeat case_decide; unfold ret; try done. apply IH.
  - apply requestPage_err in E as ->. intros [= <- <-]. eauto.
Qed.

(** The forward fetch writes nothing, whatever its outcome. *)
Lemma fetchForward_quietly lastTs lastId w w' res :
  fetchForward e lastTs lastId w = (w', res) → quietly w w'.
Proof.
  unfold fetchForward, bind.
  destruct (fetchLogs e _ w) as [w1 [phase1|err]] eqn:E1;
    apply fetchLogs_frame in E1.
  - destruct (fetchLogs e _ w1) as [w2 [phase2|err]] eqn:E2;
      apply fetchLogs_frame in E2; unfold ret; intros [= <- <-];
      eapply quietly_trans; done.
  - by intros [= <- <-].
Qed.

Lemma fetchForward_err lastTs lastId w w' err :
  fetchForward e lastTs lastId w = (w', Err err) → ∃ p, err = SourceError p.
Proof.
  unfold fetchForward, bind.
  destruct (fetchLogs e _ w) as [w1 [phase1|err1]] eqn:E1.
  - destruct (fetchLogs e _ w1) as [w2 [phase2|err2]] eqn:E2; [done|].
    intros [= <- <-]. by eapply fetchPages_err.
  - intros [= <- <-]. by eapply fetchPages_err.
Qed.

(** The filter returns a sub-list of its input, in the input's order. *)
Lemma dedupLoop_sublist logs : ∀ seen output w w' output',
  dedupLoop e logs seen output w = (w', Ok output') →
  ∃ kept, output' = output ++ kept ∧ kept `sublist_of` logs.
Proof.
  induction logs as [|r rest IH]; intros seen output w w' output'.
  { simpl. unfold ret. intros [= <- <-]. exists []. by rewrite app_nil_r. }
  cbn [dedupLoop].
  destruct (negb (truthy (id r))).
  { run_m. intros (kept & -> & ?)%IH. exists kept. split; [done|].
    by apply sublist_cons. }
  destruct (decide (id r ∈ seen)).
  { intros (kept & -> & ?)%IH. exists kept. split; [done|].
    by apply sublist_cons. }
  unfold bind. rewrite idsGet_run.
  destruct (faults e _); [done|].
  destruct (truthy_opt _).
  - intros (kept & -> & ?)%IH. exists kept. split; [done|].
    by apply sublist_cons.
  - intros (kept & -> & ?)%IH. exists (r :: kept).
    rewrite <-app_assoc. split; [done|]. by apply sublist_skip.
Qed.

Lemma dedupAndFilter_sublist logs w w' output :
  dedupAndFilter e logs w = (w', Ok output) → output `sublist_of` logs.
Proof.
  unfold dedupAndFilter, bind.
  destruct (dedupLoop e logs ∅ [] w) as [w1 [out|err]] eqn:E; [|done].
  apply dedupLoop_sublist in E as (kept & -> & Hsub).
  case_decide; [rewrite markProcessed_run|]; unfold ret; by intros [= <- <-].
Qed.

(** The filter throws only when a marker lookup rejects. *)
Lemma dedupLoop_err logs : ∀ seen output w w' err,
  dedupLoop e logs seen output w = (w', Err err) →
  ∃ r, r ∈ logs ∧ err = CallRejected (CallIdsGet (kvKey (id r))).
Proof.
  induction logs as [|r rest IH]; intros seen output w w' err; [done|].
  cbn [dedupLoop].
  assert (∀ r', r' ∈ rest → r' ∈ r :: rest) as Hin by (intros; by right).
  destruct (negb (truthy (id r))).
  { run_m. intros (r' & ? & ->)%IH. eauto. }
  destruct (decide (id r ∈ seen)).
  { intros (r' & ? & ->)%IH. eauto. }
  unfold bind. rewrite idsGet_run.
  destruct (faults e _).
  { intros [= <- <-]. exists r. split; [by left|done]. }
  destruct (truthy_opt _); intros (r' & ? & ->)%IH; eauto.
Qed.

Lemma dedupAndFilter_err logs w w' err :
  dedupAndFilter e logs w = (w', Err err) →
  ∃ r, r ∈ logs ∧ err = CallRejected (CallIdsGet (kvKey (id r))).
Proof.
  unfold dedupAndFilter, bind.
  destruct (dedupLoop e logs ∅ [] w) as [w1 [out|err1]] eqn:E.
  - case_decide; [rewrite markProcessed_run|]; by unfold ret.
  - intros [= <- <-]. by eapply dedupLoop_err.
Qed.

End results.

(** ** The forward cycle, stage by stage *)

Section forward.
Context (e : Env).

Lemma bqInsertAll_err logs w w' err :
  bqInsertAll e logs w = (w', Err err) →
  fetchOrSinkError err ∧
  (effects w' = effects w ∨ effects w' = effects w ++ [InsertAll logs]).
Proof.
  destruct logs as [|r logs]; [by rewrite bqInsertAll_nil|].
  rewrite bqInsertAll_run by done.
  repeat case_match; intros [= <- <-]; simpl; rewrite ?app_nil_r; auto.
Qed.

Lemma bqInsertAll_ok logs w w' :
  logs ≠ [] →
  bqInsertAll e logs w = (w', Ok ()) →
  sinkReachable e ∧ ok (insertAll_response e logs) ∧
  effects w' = effects w ++ [InsertAll logs].
Proof.
  intros Hne. rewrite bqInsertAll_run by done. unfold sinkReachable.
  repeat case_match; intros [= <-]; simpl; auto.
Qed.

(** The stores after the first half: unchanged on an error, marked for
    the accepted batch otherwise. *)
Lemma forwardBatch_inv w w1 res :
  forwardBatch e w = (w1, res) →
  STATE_KV w1 = STATE_KV w ∧
  match res with
  | Err err =>
      quietly w w1 ∧
      (err = CallRejected (CallStateGet "forward") ∨
        (∃ p, err = SourceError p) ∨
        (∃ i, err = CallRejected (CallIdsGet (kvKey i))))
  | Ok toSend =>
      IDS_KV w1 = withMarks e (IDS_KV w) (written e toSend) ∧
      effects w1 = effects w ++ (markEffect e <$> written e toSend)
  end.
Proof.
  unfold forwardBatch, bind. rewrite stateGetForward_run.
  destruct (faults e (CallStateGet "forward")).
  { intros [= <- <-]. split; [done|]. split; [done|]. by left. }
  destruct (fetchForward e _ _ w) as [w0 [allLogs|err]] eqn:E0.
  - apply fetchForward_quietly in E0 as (Hs & Hi & He).
    intros E2.
    destruct (dedupAndFilter_inv e _ _ _ _ E2)
      as [(err & -> & (Hs' & Hi' & He'))|(out & -> & Hs' & Hi' & He')].
    + split; [congruence|]. split; [split_and!; congruence|].
      right; right.
      apply dedupAndFilter_err in E2 as (r & _ & ->). eauto.
    + rewrite Hs', Hi', He', Hs, Hi, He. done.
  - intros [= <- <-]. apply fetchForward_quietly in E0 as Hq.
    split; [apply Hq|]. split; [done|]. right; left.
    by eapply fetchForward_err.
Qed.

Lemma forwardCommit_outcome toSend w w' res :
  forwardCommit e toSend w = (w', res) → ForwardCommit e toSend w w' res.
Proof.
  destruct toSend as [|first rest].
  { simpl. unfold ret. intros [= <- <-]. by constructor. }
  unfold forwardCommit. remember (first :: rest) as toSend eqn:Hts.
  assert (toSend ≠ []) as Hne by (by rewrite Hts).
  assert (head toSend = Some first) as Hhead by (by rewrite Hts).
  clear Hts. unfold bind.
  destruct (bqInsertAll e toSend w) as [w1 [[]|err]] eqn:Ebq.
  - destruct (bqInsertAll_ok _ _ _ Hne Ebq) as (_ & _ & He).
    destruct (bqInsertAll_stores _ _ _ _ _ Ebq) as [Hs Hi].
    rewrite statePutForward_run.
    destruct (faults e (CallStatePut "forward")) eqn:Hput.
    { intros [= <- <-]. by eapply FwdCursorPutFailed. }
    rewrite stateGetOldest_run. cbn [STATE_KV oldest].
    destruct (faults e (CallStateGet "oldest")).
    { intros [= <- <-].
      eapply FwdCommitted; try done; simpl;
        rewrite ?Hs, ?He, <-?app_assoc; auto. }
    rewrite Hs.
    destruct (truthy_opt (oldest (STATE_KV w))) eqn:Hold; simpl.
    { unfold ret. intros [= <- <-].
      eapply FwdCommitted; try done; simpl;
        rewrite ?Hs, ?He, <-?app_assoc, ?Hold; auto. }
    rewrite statePutOldest_run.
    destruct (faults e (CallStatePut "oldest")).
    { intros [= <- <-].
      eapply FwdCommitted; try done; simpl;
        rewrite ?Hs, ?He, <-?app_assoc, ?Hold; auto. }
    intros [= <- <-].
    eapply FwdCommittedFirst; try done; simpl;
      rewrite ?Hs, ?He, <-?app_assoc, ?Hold; auto.
  - intros [= <- <-].
    destruct (bqInsertAll_err _ _ _ _ Ebq) as [Herr [He|He]].
    + by apply (FwdSinkFailed _ _ _ _ err []); rewrite ?app_nil_r.
    + by apply (FwdSinkFailed _ _ _ _ err [InsertAll toSend]).
Qed.

(** A forward cycle is its first half followed by its second half; the
    [catch] only adds a log line. *)
Lemma runForward_inv w w' res :
  runForward e w = (w', res) →
  ∃ w1 w2,
  quietly w2 w' ∧
  match forwardBatch e w with
  | (w0, Err err) => w1 = w0 ∧ w2 = w0 ∧ res = Err err
  | (w0, Ok toSend) => w1 = w0 ∧ ForwardCommit e toSend w1 w2 res
  end.
Proof.
  rewrite runForward_stages. unfold catch, bind at 1.
  destruct (forwardBatch e w) as [w0 [toSend|err]] eqn:E0.
  - destruct (forwardCommit e toSend w0) as [w2 [[]|err]] eqn:E1;
      apply forwardCommit_outcome in E1; run_m; intros [= <- <-];
      exists w0, w2; done.
  - run_m. intros [= <- <-]. by exists w0, w0.
Qed.

End forward.

Section effects_of_marking.
Context (e : Env).

Lemma cursorPuts_marks rs : cursorPuts (markEffect e <$> rs) = [].
Proof. induction rs; done. Qed.

Lemma oldestPuts_marks rs : oldestPuts (markEffect e <$> rs) = [].
Proof. induction rs; done. Qed.

Lemma sinkWrites_marks rs : sinkWrites (markEffect e <$> rs) = [].
Proof. induction rs; done. Qed.

Lemma cursorPuts_app evs1 evs2 :
  cursorPuts (evs1 ++ evs2) = cursorPuts evs1 ++ cursorPuts evs2.
Proof. apply omap_app. Qed.

Lemma oldestPuts_app evs1 evs2 :
  oldestPuts (evs1 ++ evs2) = oldestPuts evs1 ++ oldestPuts evs2.
Proof. apply omap_app. Qed.

End effects_of_marking.

(** C3.  In every forward cycle a failed fetch or a failed sink write leaves
    the forward cursor as it was.  The cursor is written at most once per
    cycle, and when it is, the filter had returned a non-empty batch, the
    sink had answered that batch with a success status, the put comes right
    after that write in the cycle's effects, and the cursor then holds the
    [created_at] and [id] of the last record of the batch. *)
Theorem forward_cursor_commit e w :
  let w' := (runForward e w).1 in
  let res := (runForward e w).2 in
  ∃ evs, effects w' = effects w ++ evs ∧
    (∀ err, res = Err err → fetchOrSinkError err →
       forward (STATE_KV w') = forward (STATE_KV w) ∧ cursorPuts evs = []) ∧
    (cursorPuts evs = [] ∧ forward (STATE_KV w') = forward (STATE_KV w) ∨
     ∃ w1 toSend first marks tail,
       forwardBatch e w = (w1, Ok toSend) ∧ head toSend = Some first ∧
       sinkReachable e ∧ ok (insertAll_response e toSend) ∧
       evs = marks ++ [InsertAll toSend;
                       StatePutForward (cursorOf (List.last toSend first))] ++ tail ∧
       sinkWrites marks = [] ∧
       cursorPuts evs = [cursorOf (List.last toSend first)] ∧
       forward (STATE_KV w') = Some (cursorOf (List.last toSend first))).
Proof.
  intros w' res. subst w' res.
  destruct (runForward e w) as [w' res] eqn:Hrun. simpl.
  apply runForward_inv in Hrun as (w1 & w2 & (Hqs & Hqi & Hqe) & Hrun).
  destruct (forwardBatch e w) as [w0 [toSend|err]] eqn:Hbatch;
    apply forwardBatch_inv in Hbatch as Hinv; destruct Hinv as [Hs0 Hinv].
  - destruct Hrun as [-> Hcommit]. destruct Hinv as [Hi0 He0].
    set (marks := markEffect e <$> written e toSend) in *.
    assert (cursorPuts marks = []) as Hcm by apply cursorPuts_marks.
    inversion Hcommit as
      [Hnil Hw|err evs Hne Hbq Herr Hev Hcp Hop
      |w3 Hne Hbq Hput Hw Hev
      |first w3 res' Hhead Hbq Hput Hfw Hold Hev Hres
      |first w3 Hhead Hbq Hput Hunset Hfw Hold Hev]; subst.
    + exists marks. rewrite Hqe, He0. split; [done|]. split; [done|].
      left. by rewrite Hqs, Hs0.
    + exists (marks ++ evs). rewrite Hqe, Hev, He0, <-app_assoc.
      rewrite cursorPuts_app, Hcm, Hcp.
      apply bqInsertAll_stores in Hbq as [Hs2 _].
      split; [done|]. split; [|left]; by rewrite Hqs, Hs2, Hs0.
    + exists (marks ++ [InsertAll toSend]).
      rewrite Hqe, Hev, He0, <-app_assoc, cursorPuts_app, Hcm.
      apply bqInsertAll_stores in Hbq as [Hs2 _].
      split; [done|]. split; [by intros err [= <-] []|].
      left. by rewrite Hqs, Hs2, Hs0.
    + eexists. rewrite Hqe, Hev, He0, <-app_assoc. split; [done|].
      assert (toSend ≠ []) as Hne by (by destruct toSend).
      destruct (bqInsertAll_ok _ _ _ _ Hne Hbq) as (Hreach & Hok & _).
      split.
      { intros err -> Herr. by destruct Hres as [[? _]|[[= ->]|[[= ->] _]]]. }
      right. exists w0, toSend, first, marks, []. rewrite Hqs, Hfw.
      split_and!; try done; try apply sinkWrites_marks.
      by rewrite cursorPuts_app, Hcm.
    + eexists. rewrite Hqe, Hev, He0, <-app_assoc. split; [done|].
      assert (toSend ≠ []) as Hne by (by destruct toSend).
      destruct (bqInsertAll_ok _ _ _ _ Hne Hbq) as (Hreach & Hok & _).
      split; [done|].
      right. exists w0, toSend, first, marks, [StatePutOldest (created_at first)].
      rewrite Hqs, Hfw.
      split_and!; try done; try apply sinkWrites_marks.
      by rewrite cursorPuts_app, Hcm.
  - destruct Hrun as (-> & -> & ->). destruct Hinv as [(_ & _ & He0) _].
    exists []. rewrite app_nil_r, Hqe, He0, Hqs, Hs0. split; [done|].
    split; [done|]. by left.
Qed.

(** ** The backfill cycle, stage by stage *)

Section backfill.
Context (e : Env).

(** [runBackfill] with its reads of the state store resolved. *)
Lemma runBackfill_stages w :
  runBackfill e w =
    catch
      (if faults e (CallStateGet "oldest") then
         throw (CallRejected (CallStateGet "oldest"))
       else if negb (truthy_opt (oldest (STATE_KV w))) then ret ()
       else if faults e (CallStateGet "backfill_stop_at") then
         throw (CallRejected (CallStateGet "backfill_stop_at"))
       else
         await batch := fetchLogs e (backfillOptions e (oldestOf w)) in
         if decide (length batch = 0) then stateDeleteOldest e
         else
           await toSend := dedupAndFilter e (merge_sort log_le batch) in
           backfillAdvance e (stopAtOf w) toSend)
      (λ err, wait logger BackfillFailed then throw err) w.
Proof.
  unfold runBackfill, catch, bind at 1.
  rewrite stateGetOldest_run.
  destruct (faults e (CallStateGet "oldest")); [done|].
  destruct (negb (truthy_opt (oldest (STATE_KV w)))); [done|].
  unfold bind at 1. rewrite stateGetStopAt_run.
  destruct (faults e (CallStateGet "backfill_stop_at")); [done|].
  unfold bind, backfillAdvance, stopAtOf, oldestOf, backfillOptions.
  destruct (fetchLogs e _ w) as [w1 [batch|err]]; [|done].
  case_decide; [done|].
  by destruct (dedupAndFilter e _ w1) as [w2 [[|first rest]|err]].
Qed.

(** A cycle without marker does nothing. *)
Lemma runBackfill_no_marker w :
  faults e (CallStateGet "oldest") = false →
  ¬ truthy_opt (oldest (STATE_KV w)) →
  runBackfill e w = (w, Ok ()).
Proof.
  intros Hget Hunset. rewrite runBackfill_stages. unfold catch.
  rewrite Hget. by destruct (truthy_opt (oldest (STATE_KV w))).
Qed.

(** The cycle from the fetch on, for a cycle that reads its state. *)
Lemma runBackfill_fetched w w1 batch :
  faults e (CallStateGet "oldest") = false →
  faults e (CallStateGet "backfill_stop_at") = false →
  truthy_opt (oldest (STATE_KV w)) →
  fetchLogs e (backfillOptions e (oldestOf w)) w = (w1, Ok batch) →
  runBackfill e w =
    catch
      (if decide (length batch = 0) then stateDeleteOldest e
       else
         await toSend := dedupAndFilter e (merge_sort log_le batch) in
         backfillAdvance e (stopAtOf w) toSend)
      (λ err, wait logger BackfillFailed then throw err) w1.
Proof.
  intros Hget Hstop Hset Hfetch. rewrite runBackfill_stages.
  unfold catch. rewrite Hget.
  destruct (truthy_opt (oldest (STATE_KV w))); [simpl|done].
  rewrite Hstop. unfold bind at 1 3. by rewrite Hfetch.
Qed.

End backfill.

(** C10.  A backfill cycle that reads its marker, fetches a non-empty batch
    and gets nothing back from the dedup filter returns without error; the
    state store and the membership store are as before, the cycle made no
    write at all (no sink write, no put, no delete), and the next cycle
    starts from the same marker. *)
Theorem backfill_nothing_new_is_noop e w w1 w2 batch :
  faults e (CallStateGet "oldest") = false →
  faults e (CallStateGet "backfill_stop_at") = false →
  truthy_opt (oldest (STATE_KV w)) →
  fetchLogs e (backfillOptions e (oldestOf w)) w = (w1, Ok batch) →
  batch ≠ [] →
  dedupAndFilter e (merge_sort log_le batch) w1 = (w2, Ok []) →
  runBackfill e w = (w2, Ok ()) ∧
  STATE_KV w2 = STATE_KV w ∧ IDS_KV w2 = IDS_KV w ∧
  effects w2 = effects w ∧
  oldestOf w2 = oldestOf w.
Proof.
  intros Hget Hstop Hset Hfetch Hne Hdedup.
  rewrite (runBackfill_fetched e w w1 batch) by done.
  unfold catch, bind. rewrite decide_False by (by destruct batch).
  rewrite Hdedup. simpl. split; [done|].
  apply fetchLogs_frame in Hfetch as (Hs1 & Hi1 & He1).
  apply dedupAndFilter_inv in Hdedup
    as [(err & [=] & _)|(out & [= <-] & Hs2 & Hi2 & He2)].
  unfold written in *. simpl in *. rewrite app_nil_r in He2.
  unfold oldestOf. rewrite Hs2, Hi2, He2, Hs1, Hi1, He1. done.
Qed.

Section sorted_batches.

Lemma StronglySorted_sublist {A} (R : relation A) (l k : list A) :
  l `sublist_of` k → StronglySorted R k → StronglySorted R l.
Proof.
  induction 1 as [|x l k Hsub IH|x l k Hsub IH]; intros Hk; [done|..].
  - apply StronglySorted_cons in Hk as [Hx Hk].
    apply StronglySorted_cons. split; [|by apply IH].
    apply Forall_forall. intros y Hy.
    rewrite Forall_forall in Hx. by eapply Hx, elem_of_sublist.
  - apply StronglySorted_cons in Hk as [_ Hk]. by apply IH.
Qed.

(** What the filter returns for an ascending batch starts with the record
    of least timestamp. *)
Lemma filtered_head_earliest e batch w w' toSend first :
  dedupAndFilter e (merge_sort log_le batch) w = (w', Ok toSend) →
  head toSend = Some first →
  ∀ r, r ∈ toSend → str_le (created_at first) (created_at r).
Proof.
  intros Hsub%dedupAndFilter_sublist Hhead r Hr.
  assert (StronglySorted log_le toSend) as Hsorted.
  { eapply StronglySorted_sublist; [done|].
    apply StronglySorted_merge_sort; apply _. }
  destruct toSend as [|x rest]; simplify_eq/=.
  apply elem_of_cons in Hr as [->|Hr].
  - apply str_le_refl.
  - apply StronglySorted_cons in Hsorted as [Hall _].
    rewrite Forall_forall in Hall. by apply log_le_created_at, Hall.
Qed.

(** Every record a backfill cycle sends is older than the marker. *)
Lemma backfill_batch_older e oldestTs w w1 w2 batch toSend r :
  fetchLogs e (backfillOptions e oldestTs) w = (w1, Ok batch) →
  dedupAndFilter e (merge_sort log_le batch) w1 = (w2, Ok toSend) →
  r ∈ toSend → str_lt (created_at r) oldestTs ∧ r ∈ source e.
Proof.
  intros Hfetch Hsub%dedupAndFilter_sublist Hr.
  eapply elem_of_sublist in Hr; [|done].
  rewrite merge_sort_Permutation in Hr.
  destruct (fetchLogs_elem_of _ _ _ _ _ _ Hfetch Hr) as [Hm ?].
  unfold backfillOptions in Hm. by rewrite backfill_matches in Hm.
Qed.

End sorted_batches.

(** C5.  In a backfill cycle that sends a batch and completes, the first
    record of the batch carries the batch's earliest timestamp, which is
    strictly earlier than the marker the cycle started from.  If that
    timestamp is less than or equal to the stop boundary the marker is
    deleted in this cycle; otherwise the marker is set to it. *)
Theorem backfill_marker_advance e w w1 w2 w' batch toSend first :
  truthy_opt (oldest (STATE_KV w)) →
  fetchLogs e (backfillOptions e (oldestOf w)) w = (w1, Ok batch) →
  dedupAndFilter e (merge_sort log_le batch) w1 = (w2, Ok toSend) →
  head toSend = Some first →
  runBackfill e w = (w', Ok ()) →
  (∀ r, r ∈ toSend → str_le (created_at first) (created_at r)) ∧
  str_lt (created_at first) (oldestOf w) ∧
  if str_le (created_at first) (stopAtOf w) then
    oldest (STATE_KV w') = None ∧
    effects w' = effects w2 ++ [InsertAll toSend; StateDeleteOldest]
  else
    oldest (STATE_KV w') = Some (created_at first) ∧
    effects w' = effects w2 ++ [InsertAll toSend; StatePutOldest (created_at first)].
Proof.
  intros Hset Hfetch Hdedup Hhead Hrun.
  split; [by eapply filtered_head_earliest|].
  split.
  { eapply backfill_batch_older; [done..|]. destruct toSend; simplify_eq/=. by left. }
  assert (batch ≠ []) as Hne.
  { intros ->. apply dedupAndFilter_sublist in Hdedup.
    apply sublist_nil_r in Hdedup. by subst. }
  rewrite runBackfill_stages in Hrun. unfold catch in Hrun.
  destruct (faults e (CallStateGet "oldest")); [done|].
  destruct (truthy_opt (oldest (STATE_KV w))); [simpl in Hrun|done].
  destruct (faults e (CallStateGet "backfill_stop_at")); [done|].
  unfold bind at 1 in Hrun. rewrite Hfetch in Hrun.
  rewrite decide_False in Hrun by (by destruct batch).
  unfold bind at 1 in Hrun. rewrite Hdedup in Hrun.
  destruct toSend as [|x rest]; simplify_eq/=.
  remember (first :: rest) as toSend eqn:Hts.
  assert (toSend ≠ []) as Hts' by (by rewrite Hts). clear Hts.
  unfold bind in Hrun.
  destruct (bqInsertAll e toSend w2) as [w3 [[]|err]] eqn:Hbq; [|done].
  destruct (bqInsertAll_ok _ _ _ _ Hts' Hbq) as (_ & _ & He).
  destruct (str_le (created_at first) (stopAtOf w)).
  - rewrite stateDeleteOldest_run in Hrun.
    destruct (faults e _); [done|]. simplify_eq/=.
    by rewrite He, <-app_assoc.
  - rewrite statePutOldest_run in Hrun.
    destruct (faults e _); [done|]. simplify_eq/=.
    by rewrite He, <-app_assoc.
Qed.

(** ** What the filter accepts *)

Section accepted_records.
Context (isMarked : string → bool).

Lemma accepted_elem_of batch : ∀ earlier r,
  r ∈ accepted isMarked earlier batch →
  r ∈ batch ∧ truthy (id r) ∧ isMarked (id r) = false ∧ id r ∉ earlier.
Proof.
  induction batch as [|x rest IH]; intros earlier r; cbn [accepted].
  { by intros ?%elem_of_nil. }
  intros [Hr|Hr]%elem_of_app.
  - destruct (truthy (id x)) eqn:Ht; [|by apply elem_of_nil in Hr].
    destruct (bool_decide (id x ∈ earlier)) eqn:He;
      [by apply elem_of_nil in Hr|].
    destruct (isMarked (id x)) eqn:Hm; [by apply elem_of_nil in Hr|].
    apply list_elem_of_singleton in Hr as ->.
    apply bool_decide_eq_false in He.
    split_and!; [by left|by rewrite Ht|done..].
  - apply IH in Hr as (? & ? & ? & Hnot).
    split_and!; [by right|done..|].
    intros ?. apply Hnot, elem_of_app. by left.
Qed.

(** No id is accepted twice. *)
Lemma accepted_NoDup batch : ∀ earlier,
  NoDup (id <$> accepted isMarked earlier batch).
Proof.
  induction batch as [|x rest IH]; intros earlier; cbn [accepted].
  { constructor. }
  rewrite fmap_app. apply NoDup_app. split_and!; [|..|apply IH].
  - destruct (_ && _); simpl; repeat constructor. by intros ?%elem_of_nil.
  - intros i Hi (r & -> & Hr)%list_elem_of_fmap.
    apply accepted_elem_of in Hr as (_ & _ & _ & Hnot).
    destruct (_ && _); simpl in Hi; [|by apply elem_of_nil in Hi].
    apply list_elem_of_singleton in Hi. apply Hnot, elem_of_app. right.
    rewrite Hi. by apply list_elem_of_singleton.
Qed.

End accepted_records.

Section marks.
Context (e : Env).

Lemma kvKey_inj i j : kvKey i = kvKey j → i = j.
Proof. unfold kvKey. by intros [=]. Qed.

(** A marker that was written is found until it expires. *)
Lemma withMarks_lookup rs : ∀ kv r,
  r ∈ rs ∨ kv !! kvKey (id r) = Some ("1", (now e + ttlSeconds e)%N) →
  withMarks e kv rs !! kvKey (id r) = Some ("1", (now e + ttlSeconds e)%N).
Proof.
  unfold withMarks.
  induction rs as [|x rs IH]; intros kv r; simpl.
  { by intros [?%elem_of_nil|?]. }
  intros [[->|Hr]%elem_of_cons|Hkv]; apply IH; auto.
  - right. apply lookup_insert_eq.
  - right. destruct (decide (kvKey (id x) = kvKey (id r))) as [->|Hne].
    + apply lookup_insert_eq.
    + by rewrite lookup_insert_ne.
Qed.

(** Marking leaves the other keys alone. *)
Lemma withMarks_lookup_other rs : ∀ kv i,
  i ∉ id <$> rs → withMarks e kv rs !! kvKey i = kv !! kvKey i.
Proof.
  unfold withMarks.
  induction rs as [|x rs IH]; intros kv i; simpl; [done|].
  rewrite not_elem_of_cons. intros [Hne Hnot].
  rewrite IH by done. apply lookup_insert_ne. by intros ?%kvKey_inj.
Qed.

Lemma marked_live kv t i v expiry :
  kv !! kvKey i = Some (v, expiry) → truthy v → (t < expiry)%N →
  marked t kv i = true.
Proof.
  unfold marked, live. intros -> Hv Hlt. simpl.
  rewrite decide_True by done. by apply Is_true_true.
Qed.

End marks.

(** C6.  When the marker lookups answer, the dedup filter returns the batch
    filtered as the design document says: in input order, without the
    records of empty id, without those whose id came earlier in the batch
    and without those for which a live marker is found.  The pass that
    decides writes nothing; the markers are written after it, for the
    accepted records.  In particular a record whose id has an unexpired
    truthy marker is not in the output, and neither is a record whose id a
    previous call marked less than the retention time ago. *)
Theorem dedup_filter_decides e logs w :
  (∀ r, r ∈ logs → faults e (CallIdsGet (kvKey (id r))) = false) →
  let output := accepted (marked (now e) (IDS_KV w)) [] logs in
  ∃ w1 w',
    dedupLoop e logs ∅ [] w = (w1, Ok output) ∧ quietly w w1 ∧
    dedupAndFilter e logs w = (w', Ok output) ∧
    IDS_KV w' = withMarks e (IDS_KV w) (written e output) ∧
    effects w' = effects w ++ (markEffect e <$> written e output) ∧
    output `sublist_of` logs ∧
    NoDup (id <$> output) ∧
    (∀ r, r ∈ output → truthy (id r) ∧ marked (now e) (IDS_KV w) (id r) = false) ∧
    (∀ i v expiry, IDS_KV w !! kvKey i = Some (v, expiry) → truthy v →
       (now e < expiry)%N → i ∉ id <$> output) ∧
    (∀ e0 logs0 w0 output0 r0,
       dedupAndFilter e0 logs0 w0 = (w, Ok output0) →
       r0 ∈ written e0 output0 →
       (now e < now e0 + ttlSeconds e0)%N → id r0 ∉ id <$> output).
Proof.
  intros Hok output.
  destruct (dedupLoop_accepted e logs ∅ [] [] w Hok) as (w1 & Hloop & Hq).
  { intros i _. set_solver. }
  destruct (dedupAndFilter_run e logs w Hok) as (w' & Hrun & _ & Hi & He).
  simpl in Hloop. fold output in Hloop, Hrun, Hi, He.
  assert (∀ r, r ∈ output →
            truthy (id r) ∧ marked (now e) (IDS_KV w) (id r) = false) as Hacc.
  { intros r Hr. by apply accepted_elem_of in Hr as (_ & ? & ? & _). }
  assert (∀ i v expiry, IDS_KV w !! kvKey i = Some (v, expiry) → truthy v →
            (now e < expiry)%N → i ∉ id <$> output) as Hlive.
  { intros i v expiry Hkv Hv Hlt (r & -> & Hr)%list_elem_of_fmap.
    apply Hacc in Hr as [_ Hr].
    by rewrite (marked_live _ _ _ _ _ Hkv Hv Hlt) in Hr. }
  exists w1, w'. split_and!; try done.
  - by eapply dedupAndFilter_sublist.
  - apply accepted_NoDup.
  - intros e0 logs0 w0 output0 r0 Hprev Hr0 Hlt.
    apply dedupAndFilter_inv in Hprev
      as [(err & [=] & _)|(out & [= <-] & _ & Hi0 & _)].
    eapply Hlive; [rewrite Hi0; apply withMarks_lookup; by left|done|done].
Qed.

(** ** Errors a cycle can end with *)

Section cycle_errors.
Context (e : Env).

Lemma fetchOrSinkError_not_marker err :
  fetchOrSinkError err → isMarkerWriteError err = false.
Proof. by destruct err as [|[]|]. Qed.

Lemma runForward_not_marker_error w w' err :
  runForward e w = (w', Err err) → isMarkerWriteError err = false.
Proof.
  intros (w1 & w2 & _ & Hrun)%runForward_inv.
  destruct (forwardBatch e w) as [w0 [toSend|err0]] eqn:Hbatch.
  - destruct Hrun as [-> Hcommit].
    inversion Hcommit as
      [|? ? ? ? Herr| |? ? ? ? ? ? ? ? ? Hres|]; subst; try done.
    + by apply fetchOrSinkError_not_marker.
    + by destruct Hres as [[[=] _]|[[= ->]|[[= ->] _]]].
  - destruct Hrun as (-> & -> & [= ->]).
    apply forwardBatch_inv in Hbatch
      as (_ & _ & [->|[[p ->]|[i ->]]]); done.
Qed.

Lemma backfillAdvance_not_marker_error stopAt toSend w w' err :
  backfillAdvance e stopAt toSend w = (w', Err err) →
  isMarkerWriteError err = false.
Proof.
  destruct toSend as [|first rest]; [done|].
  unfold backfillAdvance. unfold bind.
  destruct (bqInsertAll e _ w) as [w1 [[]|err1]] eqn:Hbq.
  - destruct (str_le _ _);
      rewrite ?stateDeleteOldest_run, ?statePutOldest_run;
      destruct (faults e _); by intros [= <- <-].
  - intros [= <- <-].
    apply bqInsertAll_err in Hbq as [? _].
    by apply fetchOrSinkError_not_marker.
Qed.

Lemma runBackfill_not_marker_error w w' err :
  runBackfill e w = (w', Err err) → isMarkerWriteError err = false.
Proof.
  rewrite runBackfill_stages. unfold catch.
  destruct (faults e (CallStateGet "oldest")).
  { run_m. by intros [= <- <-]. }
  destruct (negb (truthy_opt (oldest (STATE_KV w)))); [done|].
  destruct (faults e (CallStateGet "backfill_stop_at")).
  { run_m. by intros [= <- <-]. }
  unfold bind at 1.
  destruct (fetchLogs e _ w) as [w1 [batch|err1]] eqn:Hfetch.
  - case_decide.
    + rewrite stateDeleteOldest_run. destruct (faults e _); [|done].
      run_m. by intros [= <- <-].
    + unfold bind at 1.
      destruct (dedupAndFilter e _ w1) as [w2 [toSend|err2]] eqn:Hdedup.
      * destruct (backfillAdvance e _ toSend w2) as [w3 [[]|err3]] eqn:Hadv;
          [done|].
        run_m. intros [= <- <-].
        by eapply backfillAdvance_not_marker_error.
      * run_m. intros [= <- <-].
        by apply dedupAndFilter_err in Hdedup as (r & _ & ->).
  - run_m. intros [= <- <-].
    by apply fetchPages_err in Hfetch as [p ->].
Qed.

End cycle_errors.

(** C8.  Whatever marker writes are rejected, the dedup filter returns its
    full accepted output: the output does not depend on the outcome of the
    writes, every rejected write is logged as a warning and the entry is
    left unwritten, and no error of a marker write ever comes out of the
    filter, of a forward cycle or of a backfill cycle. *)
Theorem marker_write_failures_swallowed e logs w :
  (∀ r, r ∈ logs → faults e (CallIdsGet (kvKey (id r))) = false) →
  let output := accepted (marked (now e) (IDS_KV w)) [] logs in
  (∃ w', dedupAndFilter e logs w = (w', Ok output) ∧
     IDS_KV w' = withMarks e (IDS_KV w) (written e output) ∧
     ∀ r, r ∈ output → faults e (CallIdsPut (kvKey (id r))) = true →
          FailedToMark (id r) ∈ logged w') ∧
  (∀ logs0 w0, isMarkerWriteError_result (dedupAndFilter e logs0 w0).2 = false) ∧
  (∀ w0, isMarkerWriteError_result (runForward e w0).2 = false) ∧
  (∀ w0, isMarkerWriteError_result (runBackfill e w0).2 = false).
Proof.
  intros Hok output. split_and!.
  - unfold dedupAndFilter, bind.
    destruct (dedupLoop_accepted e logs ∅ [] [] w Hok) as (w1 & -> & Hq).
    { intros i _. set_solver. }
    simpl. fold output. destruct Hq as (_ & Hi & _).
    case_decide as Hlen.
    + rewrite markProcessed_run. unfold ret. eexists. split; [done|].
      simpl. split; [by rewrite Hi|].
      intros r Hr Hf. apply elem_of_app. right.
      unfold markFailures. apply list_elem_of_fmap. exists r. split; [done|].
      by apply list_elem_of_filter.
    + assert (output = []) as -> by (apply length_zero_iff_nil; lia).
      unfold ret. exists w1. split; [done|]. split; [by rewrite Hi|].
      by intros r ?%elem_of_nil.
  - intros logs0 w0.
    destruct (dedupAndFilter e logs0 w0) as [w' [out|err]] eqn:E; [done|].
    by apply dedupAndFilter_err in E as (r & _ & ->).
  - intros w0. destruct (runForward e w0) as [w' [[]|err]] eqn:E; [done|].
    by eapply runForward_not_marker_error.
  - intros w0. destruct (runBackfill e w0) as [w' [[]|err]] eqn:E; [done|].
    by eapply runBackfill_not_marker_error.
Qed.

(** C7.  Let the sink be reachable and a cycle have a non-empty filtered
    batch.  If the sink answers with a non-success status, [bqInsertAll]
    throws, the cycle fails with that error and the state store (cursor and
    oldest marker) is as before the cycle.  If it answers with a success
    status, [bqInsertAll] returns normally whatever per-row errors the
    response carries, having logged them, and the cycle goes on to its
    commit: the forward cursor is set to the last record of the batch, the
    backfill marker is deleted or set to the first record's timestamp. *)
Theorem sink_failure_and_row_errors e w :
  sinkReachable e →
  (∀ w1 toSend first,
     forwardBatch e w = (w1, Ok toSend) → head toSend = Some first →
     let response := insertAll_response e toSend in
     let w' := (runForward e w).1 in
     let res := (runForward e w).2 in
     if ok response then
       bqInsertAll e toSend w1 =
         (after w1 [InsertAll toSend] (rowErrorLog toSend (insertErrors response)),
          Ok ()) ∧
       (faults e (CallStatePut "forward") = false →
        forward (STATE_KV w') = Some (cursorOf (List.last toSend first)))
     else
       (bqInsertAll e toSend w1).2 = Err (SinkError (status response)) ∧
       res = Err (SinkError (status response)) ∧
       STATE_KV w' = STATE_KV w) ∧
  (∀ w1 w2 batch toSend first,
     faults e (CallStateGet "oldest") = false →
     faults e (CallStateGet "backfill_stop_at") = false →
     truthy_opt (oldest (STATE_KV w)) →
     fetchLogs e (backfillOptions e (oldestOf w)) w = (w1, Ok batch) →
     dedupAndFilter e (merge_sort log_le batch) w1 = (w2, Ok toSend) →
     head toSend = Some first →
     let response := insertAll_response e toSend in
     let w' := (runBackfill e w).1 in
     let res := (runBackfill e w).2 in
     if ok response then
       bqInsertAll e toSend w2 =
         (after w2 [InsertAll toSend] (rowErrorLog toSend (insertErrors response)),
          Ok ()) ∧
       (faults e (CallStateDelete "oldest") = false →
        faults e (CallStatePut "oldest") = false →
        res = Ok () ∧
        oldest (STATE_KV w') =
          if str_le (created_at first) (stopAtOf w) then None
          else Some (created_at first))
     else
       (bqInsertAll e toSend w2).2 = Err (SinkError (status response)) ∧
       res = Err (SinkError (status response)) ∧
       STATE_KV w' = STATE_KV w).
Proof.
  intros Hreach. unfold sinkReachable in Hreach.
  apply andb_prop_elim in Hreach as [Htok Hpost].
  apply negb_prop_elim, Is_true_false in Htok, Hpost.
  split.
  - intros w1 toSend first Hbatch Hhead response w' res.
    assert (toSend ≠ []) as Hne by (by destruct toSend).
    pose proof (bqInsertAll_run e toSend w1 Hne) as Hbq.
    rewrite Htok, Hpost in Hbq. fold response in Hbq.
    subst w' res. destruct (runForward e w) as [w' res] eqn:Hrun. simpl.
    apply runForward_inv in Hrun as (w1' & w2 & (Hqs & _ & _) & Hrun).
    rewrite Hbatch in Hrun. destruct Hrun as [-> Hcommit].
    apply forwardBatch_inv in Hbatch as [Hs0 _].
    destruct (ok response).
    + split; [done|]. intros Hput.
      inversion Hcommit as
        [|? ? ? Hbq'|? ? Hbq' Hput'
         |first' ? ? Hhead' ? ? Hfw|first' ? Hhead' ? ? ? Hfw];
        subst; try congruence; rewrite Hqs, Hfw; congruence.
    + rewrite Hbq. split; [done|].
      inversion Hcommit as
        [|? ? ? Hbq'|? ? Hbq'|? ? ? ? Hbq'|? ? ? Hbq'];
        subst; try congruence.
      rewrite Hbq in Hbq'. injection Hbq' as <- <-.
      split; [done|]. by rewrite Hqs.
  - intros w1 w2 batch toSend first Hget Hstop Hset Hfetch Hdedup Hhead
      response w' res.
    assert (toSend ≠ []) as Hne by (by destruct toSend).
    assert (batch ≠ []) as Hbne.
    { intros ->. apply dedupAndFilter_sublist in Hdedup.
      apply sublist_nil_r in Hdedup. by subst. }
    pose proof (bqInsertAll_run e toSend w2 Hne) as Hbq.
    rewrite Htok, Hpost in Hbq. fold response in Hbq.
    subst w' res. destruct (runBackfill e w) as [w' res] eqn:Hrun. simpl.
    rewrite (runBackfill_fetched e w w1 batch) in Hrun by done.
    unfold catch, bind at 1 in Hrun.
    rewrite decide_False in Hrun by (by destruct batch).
    rewrite Hdedup in Hrun.
    apply fetchLogs_frame in Hfetch as (Hs1 & _ & _).
    apply dedupAndFilter_inv in Hdedup
      as [(err & [=] & _)|(out & [= <-] & Hs2 & _ & _)].
    unfold backfillAdvance, bind in Hrun.
    destruct toSend as [|x rest]; [done|]. injection Hhead as ->.
    rewrite Hbq in Hrun.
    destruct (ok response).
    + split; [done|]. intros Hdel Hput.
      destruct (str_le (created_at first) (stopAtOf w)).
      * rewrite stateDeleteOldest_run, Hdel in Hrun. by injection Hrun as <- <-.
      * rewrite statePutOldest_run, Hput in Hrun. by injection Hrun as <- <-.
    + run_m. injection Hrun as <- <-. rewrite Hbq. simpl.
      split; [done|]. split; [done|]. congruence.
Qed.

(** ** The oldest marker in forward cycles *)

(** C9 (as amended).  A forward cycle writes the oldest marker exactly
    when it completes a batch while the marker is unset (absent or empty):
    such a cycle writes it once, to the [created_at] of the first record of
    the batch, and no other forward cycle writes it.  A forward cycle that
    finds the marker set neither writes nor moves it, and no forward cycle
    deletes it.  This holds from every world, so at every point of a
    sequence of forward and backfill cycles. *)
Theorem forward_writes_oldest_iff_unset e w :
  let w' := (runForward e w).1 in
  let res := (runForward e w).2 in
  ∃ evs, effects w' = effects w ++ evs ∧
    (truthy_opt (oldest (STATE_KV w)) →
       oldestPuts evs = [] ∧ oldest (STATE_KV w') = oldest (STATE_KV w)) ∧
    (StateDeleteOldest ∉ evs) ∧
    (oldestPuts evs = [] ∧ oldest (STATE_KV w') = oldest (STATE_KV w) ∨
     ∃ w1 toSend first,
       forwardBatch e w = (w1, Ok toSend) ∧ head toSend = Some first ∧
       ¬ truthy_opt (oldest (STATE_KV w)) ∧
       res = Ok () ∧
       forward (STATE_KV w') = Some (cursorOf (List.last toSend first)) ∧
       oldestPuts evs = [created_at first] ∧
       oldest (STATE_KV w') = Some (created_at first)) ∧
    (∀ w1 toSend first,
       forwardBatch e w = (w1, Ok toSend) → head toSend = Some first →
       ¬ truthy_opt (oldest (STATE_KV w)) → res = Ok () →
       oldestPuts evs = [created_at first] ∧
       oldest (STATE_KV w') = Some (created_at first)).
Proof.
  intros w' res. subst w' res.
  destruct (runForward e w) as [w' res] eqn:Hrun. simpl.
  apply runForward_inv in Hrun as (w1 & w2 & (Hqs & Hqi & Hqe) & Hrun).
  destruct (forwardBatch e w) as [w0 [toSend|err]] eqn:Hbatch;
    apply forwardBatch_inv in Hbatch as Hinv; destruct Hinv as [Hs0 Hinv].
  - destruct Hrun as [-> Hcommit]. destruct Hinv as [Hi0 He0].
    set (marks := markEffect e <$> written e toSend) in *.
    assert (oldestPuts marks = []) as Hom by apply oldestPuts_marks.
    assert (StateDeleteOldest ∉ marks) as Hdm.
    { by intros (r & ? & _)%list_elem_of_fmap. }
    inversion Hcommit as
      [Hnil Hw|err evs Hne Hbq Herr Hev Hcp Hop
      |w3 Hne Hbq Hput Hw Hev
      |first w3 res' Hhead Hbq Hput Hfw Hold Hev Hres
      |first w3 Hhead Hbq Hput Hunset Hfw Hold Hev]; subst.
    + exists marks. rewrite Hqe, He0, Hqs, Hs0. split_and!; auto.
      by intros ? ? ? [= _ <-].
    + exists (marks ++ evs). rewrite Hqe, Hev, He0, <-app_assoc.
      rewrite oldestPuts_app, Hom, Hop, Hqs.
      destruct (bqInsertAll_stores _ _ _ _ _ Hbq) as [-> _]. rewrite Hs0.
      split_and!; auto; [|done].
      rewrite not_elem_of_app. split; [done|].
      destruct (bqInsertAll_err _ _ _ _ _ Hbq) as [_ [He|He]];
        rewrite He in Hev.
      * rewrite <-(app_nil_r (effects w0)) in Hev at 1.
        apply app_inv_head in Hev as <-. by intros ?%elem_of_nil.
      * apply app_inv_head in Hev as <-.
        by intros [= ]%list_elem_of_singleton.
    + exists (marks ++ [InsertAll toSend]).
      rewrite Hqe, Hev, He0, <-app_assoc, oldestPuts_app, Hom, Hqs.
      destruct (bqInsertAll_stores _ _ _ _ _ Hbq) as [-> _]. rewrite Hs0.
      split_and!; auto; [|done].
      rewrite not_elem_of_app. split; [done|].
      by intros [= ]%list_elem_of_singleton.
    + eexists. rewrite Hqe, Hev, He0, <-app_assoc. split; [done|].
      rewrite oldestPuts_app, Hom, Hqs, Hold, Hs0. split_and!; auto.
      * rewrite not_elem_of_app. split; [done|].
        rewrite !not_elem_of_cons. split_and!; try done.
        by intros ?%elem_of_nil.
      * intros ? ? ? _ _ Hunset ->. rewrite Hs0 in Hres.
        by destruct Hres as [[_ ?]|[[=]|[[=] _]]].
    + eexists. rewrite Hqe, Hev, He0, <-app_assoc. split; [done|].
      rewrite oldestPuts_app, Hom, Hqs, Hold, Hfw. rewrite Hs0 in Hunset.
      split_and!; [done| | |].
      { rewrite not_elem_of_app. split; [done|].
        rewrite !not_elem_of_cons. split_and!; try done.
        by intros ?%elem_of_nil. }
      { right. exists w0, toSend, first. split_and!; done. }
      intros ? ? first' [= _ <-] Hhead' _ _.
      rewrite Hhead in Hhead'. by injection Hhead' as <-.
  - destruct Hrun as (-> & -> & ->). destruct Hinv as [(_ & _ & He0) _].
    exists []. rewrite app_nil_r, Hqe, He0, Hqs, Hs0. split_and!; auto.
    + by intros ?%elem_of_nil.
    + by intros ? ? ? [=].
Qed.

(** ** The sample scenario *)

(** The source holds A and B at [t10] and C at [t20], and the cursor is on
    A: the cycle sends [B; C], moves the cursor to C and sets the oldest
    marker to [t10]. *)
Example sample_scenario :
  let w' := (runForward (Sample.env [Sample.A; Sample.B; Sample.C]) Sample.atA).1 in
  sinkWrites (effects w') = [[Sample.B; Sample.C]] ∧
  forward (STATE_KV w') = Some (mkCursor Sample.t20 "3") ∧
  oldest (STATE_KV w') = Some Sample.t10.
Proof. vm_compute. done. Qed.

(** C1.  The claim does not hold of the code.  With pages of one record,
    phase 1 stops after its 5 pages although a sixth record, [Burst.late],
    shares the cursor's timestamp: that record is after the cursor and in
    neither phase.  The cycle posts the other records, commits the cursor
    past the record it left out and sets the oldest marker to that record's
    timestamp; neither request of the next forward cycle nor the request of
    the next backfill cycle selects it. *)
Lemma forward_commits_past_unfetched_record :
  let e := Sample.smallPages Burst.records in
  let w' := (runForward e Sample.atA).1 in
  (∃ allLogs,
     fetchForward e Sample.t10 "1" Sample.atA = (Sample.atA, Ok allLogs) ∧
     Burst.late ∉ allLogs) ∧
  Burst.late ∈ source e ∧
  after_cursor Sample.t10 "1" Burst.late = true ∧
  (runForward e Sample.atA).2 = Ok () ∧
  (Burst.late ∉ posted (newEffects Sample.atA w')) ∧
  forward (STATE_KV w') = Some (mkCursor Sample.t20 "8") ∧
  oldest (STATE_KV w') = Some Sample.t10 ∧
  api_matches (mkOptions OpEq Sample.t20 (Some (KindGt, "8")) true 5)
              Burst.late = false ∧
  api_matches (mkOptions OpGt Sample.t20 None true (FORWARD_MAX_PAGES e))
              Burst.late = false ∧
  api_matches (backfillOptions e Sample.t10) Burst.late = false.
Proof.
  intros e w'. subst e w'. split_and!.
  - eexists. split; [vm_compute; reflexivity|].
    apply (bool_decide_unpack _). by vm_compute.
  - apply (bool_decide_unpack _). by vm_compute.
  - done.
  - by vm_compute.
  - apply (bool_decide_unpack _). by vm_compute.
  - by vm_compute.
  - by vm_compute.
  - done.
  - done.
  - done.
Qed.

(** C9, as stated, fails: a forward cycle sets the marker, a backfill cycle
    finds nothing older and deletes it, and the next forward cycle that
    sends a batch writes the marker a second time. *)
Lemma forward_writes_oldest_twice :
  oldestWritesByForward
    [(everyMinute, Sample.env [Sample.A; Sample.B; Sample.C]);
     (hourly, Sample.env [Sample.A; Sample.B; Sample.C]);
     (everyMinute, Sample.env [Sample.A; Sample.B; Sample.C; Sample.D])]
    Sample.atA = 2.
Proof. by vm_compute. Qed.

(** ** Cycles in which nothing fails *)

Section quiet_cycles.
Context (e : Env) (Hserves : serves e) (Hfaultless : faultless e).

Lemma written_faultless output : written e output = output.
Proof.
  unfold written. induction output as [|r rest IH]; [done|].
  rewrite filter_cons, decide_True by apply Hfaultless. by rewrite IH.
Qed.

Lemma fetchForward_quiet lastTs lastId w :
  fetchForward e lastTs lastId w =
    (w, Ok (take (5 * LOGS_PER_PAGE e)
              (api_listing e (mkOptions OpEq lastTs (Some (KindGt, lastId)) true 5)) ++
            take (FORWARD_MAX_PAGES e * LOGS_PER_PAGE e)
              (api_listing e (mkOptions OpGt lastTs None true (FORWARD_MAX_PAGES e))))).
Proof.
  unfold fetchForward, bind.
  rewrite !fetchLogs_served by (intros; apply Hserves). done.
Qed.

Lemma forwardBatch_quiet w :
  ∃ w1, forwardBatch e w =
    (w1, Ok (forwardResult e (STATE_KV w) (IDS_KV w))) ∧
  STATE_KV w1 = STATE_KV w ∧
  IDS_KV w1 =
    withMarks e (IDS_KV w) (forwardResult e (STATE_KV w) (IDS_KV w)).
Proof.
  unfold forwardBatch, bind.
  rewrite stateGetForward_run, Hfaultless, fetchForward_quiet.
  destruct (dedupAndFilter_run e (forwardListing e (STATE_KV w)) w)
    as (w1 & Hrun & Hs & Hi & _).
  { intros; apply Hfaultless. }
  exists w1. unfold forwardListing in Hrun. rewrite Hrun.
  by rewrite written_faultless in Hi.
Qed.

Lemma forwardCommit_quiet toSend w :
  sinkAccepts e →
  ∃ w', forwardCommit e toSend w = (w', Ok ()) ∧
  STATE_KV w' = committed toSend (STATE_KV w) ∧
  IDS_KV w' = IDS_KV w.
Proof.
  intros Hsink. destruct toSend as [|first rest].
  { exists w. done. }
  unfold forwardCommit, committed. remember (first :: rest) as toSend eqn:Hts.
  assert (toSend ≠ []) as Hne by (by rewrite Hts). clear Hts.
  unfold bind. rewrite bqInsertAll_run, !Hfaultless, Hsink by done.
  rewrite statePutForward_run, Hfaultless, stateGetOldest_run, Hfaultless.
  cbn [STATE_KV oldest after].
  destruct (truthy_opt (oldest (STATE_KV w))); simpl.
  - eexists. split; [done|]. done.
  - rewrite statePutOldest_run, Hfaultless. eexists. split; [done|]. done.
Qed.

(** A forward cycle in which nothing fails commits its batch. *)
Lemma runForward_quiet w :
  sinkAccepts e →
  let toSend := forwardResult e (STATE_KV w) (IDS_KV w) in
  ∃ w', runForward e w = (w', Ok ()) ∧
  STATE_KV w' = committed toSend (STATE_KV w) ∧
  IDS_KV w' = withMarks e (IDS_KV w) toSend.
Proof.
  intros Hsink toSend. rewrite runForward_stages. unfold catch, bind.
  destruct (forwardBatch_quiet w) as (w1 & -> & Hs & Hi). fold toSend.
  destruct (forwardCommit_quiet toSend w1 Hsink) as (w' & -> & Hs' & Hi').
  exists w'. by rewrite Hs', Hi', Hs, Hi.
Qed.

(** A backfill cycle in which nothing fails. *)
Lemma runBackfill_quiet w :
  sinkAccepts e →
  truthy_opt (oldest (STATE_KV w)) →
  ∃ w', runBackfill e w = (w', Ok ()) ∧
        forward (STATE_KV w') = forward (STATE_KV w) ∧
        backfill_stop_at (STATE_KV w') = backfill_stop_at (STATE_KV w) ∧
        if decide (backfillListing e w = []) then
          oldest (STATE_KV w') = None ∧ IDS_KV w' = IDS_KV w
        else
          match backfillResult e w with
          | [] => STATE_KV w' = STATE_KV w ∧ IDS_KV w' = IDS_KV w
          | first :: _ =>
              IDS_KV w' = withMarks e (IDS_KV w) (backfillResult e w) ∧
              oldest (STATE_KV w') =
                if str_le (created_at first) (stopAtOf w) then None
                else Some (created_at first)
          end.
Proof.
  intros Hsink Hset.
  rewrite (runBackfill_fetched e w w (backfillListing e w));
    [|apply Hfaultless|apply Hfaultless|done|].
  2:{ rewrite fetchLogs_served by (intros; apply Hserves). done. }
  unfold catch.
  destruct (decide (backfillListing e w = [])) as [Hnil|Hne].
  { rewrite decide_True by (by rewrite Hnil).
    rewrite stateDeleteOldest_run, Hfaultless. eexists. split; [done|].
    done. }
  rewrite decide_False by (by destruct (backfillListing e w)).
  unfold bind.
  destruct (dedupAndFilter_run e (merge_sort log_le (backfillListing e w)) w)
    as (w1 & -> & Hs & Hi & _).
  { intros; apply Hfaultless. }
  fold (backfillResult e w) in *. rewrite written_faultless in Hi.
  destruct (backfillResult e w) as [|first rest] eqn:Hres.
  { exists w1. simpl. split; [done|]. by rewrite Hs, Hi. }
  unfold backfillAdvance. rewrite <-Hres in *.
  assert (backfillResult e w ≠ []) as Hne' by (by rewrite Hres).
  unfold bind. rewrite bqInsertAll_run, !Hfaultless, Hsink by done.
  destruct (str_le (created_at first) (stopAtOf w)).
  - rewrite stateDeleteOldest_run, Hfaultless. eexists. split; [done|].
    simpl. by rewrite Hs, Hi.
  - rewrite statePutOldest_run, Hfaultless. eexists. split; [done|].
    simpl. by rewrite Hs, Hi.
Qed.

End quiet_cycles.

(** ** Retrying a forward cycle *)

Lemma AbortedEarly_stores attempts w w' :
  AbortedEarly attempts w w' →
  STATE_KV w' = STATE_KV w ∧ IDS_KV w' = IDS_KV w.
Proof.
  induction 1 as [|e rest w w1 w' err Hbatch _ [IHs IHi]]; [done|].
  destruct (runForward e w) as [w2 res] eqn:Hrun. simpl in *.
  apply runForward_inv in Hrun as (w3 & w4 & (Hqs & Hqi & _) & Hrun).
  rewrite Hbatch in Hrun. destruct Hrun as (-> & -> & ->).
  apply forwardBatch_inv in Hbatch as (_ & (Hs & Hi & _) & _).
  split; congruence.
Qed.

(** C2 (as amended).  Let forward attempts have aborted before the dedup
    filter returned, any number of times, and let the cycle then be run
    again in an environment where nothing fails.  The filtered batch of that
    run is the batch the same run would have had as first attempt, and
    committing it leaves the same cursor: the last record of the batch, or
    the old cursor when the batch is empty. *)
Theorem forward_retry_idempotent e attempts w w' :
  AbortedEarly attempts w w' →
  serves e → faultless e → sinkAccepts e →
  let toSend := forwardResult e (STATE_KV w) (IDS_KV w) in
  (forwardBatch e w).2 = Ok toSend ∧
  (forwardBatch e w').2 = Ok toSend ∧
  (runForward e w').2 = Ok () ∧
  STATE_KV (runForward e w').1 = committed toSend (STATE_KV w) ∧
  STATE_KV (runForward e w).1 = committed toSend (STATE_KV w) ∧
  forward (STATE_KV (runForward e w').1) =
    match toSend with
    | [] => forward (STATE_KV w)
    | first :: _ => Some (cursorOf (List.last toSend first))
    end.
Proof.
  intros [Hs Hi]%AbortedEarly_stores Hserves Hfaultless Hsink toSend.
  destruct (forwardBatch_quiet e Hserves Hfaultless w) as (w1 & -> & _).
  destruct (forwardBatch_quiet e Hserves Hfaultless w') as (w1' & -> & _).
  destruct (runForward_quiet e Hserves Hfaultless w' Hsink) as (w2' & -> & Hs2' & _).
  destruct (runForward_quiet e Hserves Hfaultless w Hsink) as (w2 & -> & Hs2 & _).
  simpl. rewrite Hs2', Hs2, Hs, Hi. fold toSend.
  split_and!; try done. by destruct toSend.
Qed.

(** C2, an instance: two attempts fail on the log API, the third succeeds. *)
Lemma forward_retry_idempotent_witness :
  let src := [Sample.A; Sample.B; Sample.C] in
  let e := Sample.env src in
  let w' := (runForward (Sample.apiDown src)
               (runForward (Sample.apiDown src) Sample.atA).1).1 in
  let toSend := forwardResult e (STATE_KV Sample.atA) (IDS_KV Sample.atA) in
  (forwardBatch e Sample.atA).2 = Ok toSend ∧
  (forwardBatch e w').2 = Ok toSend ∧
  (runForward e w').2 = Ok () ∧
  STATE_KV (runForward e w').1 = committed toSend (STATE_KV Sample.atA) ∧
  STATE_KV (runForward e Sample.atA).1 = committed toSend (STATE_KV Sample.atA) ∧
  forward (STATE_KV (runForward e w').1) =
    match toSend with
    | [] => forward (STATE_KV Sample.atA)
    | first :: _ => Some (cursorOf (List.last toSend first))
    end.
Proof.
  intros src e w' toSend.
  apply (forward_retry_idempotent e [Sample.apiDown src; Sample.apiDown src]).
  - eapply AbortedOnce; [vm_compute; reflexivity|].
    eapply AbortedOnce; [vm_compute; reflexivity|].
    apply AbortedNone.
  - intros options page. reflexivity.
  - intros c. reflexivity.
  - intros rows. reflexivity.
Defined.

(** C2, as stated, fails: the first attempt filters [B; C], marks both and
    aborts at the sink write, before the commit.  The retry, with the source
    unchanged and the sink back, finds both records marked: its filtered
    batch is empty, it sends nothing and the cursor stays on A, whereas the
    batch of the first attempt would have moved it to C. *)
Lemma forward_retry_after_sink_failure_differs :
  let src := [Sample.A; Sample.B; Sample.C] in
  let first := runForward (Sample.sinkDown src) Sample.atA in
  let retry := runForward (Sample.env src) first.1 in
  first.2 = Err (SinkError 503) ∧
  forward (STATE_KV first.1) = forward (STATE_KV Sample.atA) ∧
  (forwardBatch (Sample.sinkDown src) Sample.atA).2 = Ok [Sample.B; Sample.C] ∧
  (forwardBatch (Sample.env src) first.1).2 = Ok [] ∧
  retry.2 = Ok () ∧
  forward (STATE_KV retry.1) = Some (cursorOf Sample.A) ∧
  forward (STATE_KV (runForward (Sample.env src) Sample.atA).1)
    = Some (cursorOf Sample.C).
Proof. vm_compute. done. Qed.

(** ** Backfill makes progress *)

Section backfill_progress.
Context (src : list AIGLog) (Hids : NoDup (id <$> src)).

Lemma same_id_same_record r t :
  r ∈ src → t ∈ src → id r = id t → r = t.
Proof.
  clear -Hids. induction src as [|x l IH]; [by intros ?%elem_of_nil|].
  rewrite fmap_cons, NoDup_cons in Hids. destruct Hids as [Hx Hl].
  intros [->|Hr]%elem_of_cons [->|Ht]%elem_of_cons Heq; [done|..].
  - destruct Hx. rewrite Heq. by apply list_elem_of_fmap_2.
  - destruct Hx. rewrite <-Heq. by apply list_elem_of_fmap_2.
  - by apply IH.
Qed.

Lemma filter_length_lt (P Q : AIGLog → bool) (l : list AIGLog) x :
  (∀ r, P r → Q r) → x ∈ l → Q x → ¬ P x →
  length (filter (λ r, P r) l) < length (filter (λ r, Q r) l).
Proof.
  intros HPQ Hx HQ HP.
  assert (∀ k, length (filter (λ r, P r) k) ≤ length (filter (λ r, Q r) k))
    as Hle.
  { induction k as [|y k IH]; [done|]. rewrite !filter_cons.
    specialize (HPQ y). destruct (P y), (Q y); simpl in *;
      repeat case_decide; simpl; try lia; try done; by destruct HPQ. }
  induction l as [|y l IH]; [by apply elem_of_nil in Hx|].
  rewrite !filter_cons. apply elem_of_cons in Hx as [<-|Hx].
  - rewrite decide_False, decide_True by done. simpl.
    specialize (Hle l). lia.
  - specialize (IH Hx). specialize (HPQ y).
    destruct (P y), (Q y); simpl in *; repeat case_decide; simpl;
      try lia; try done; by destruct HPQ.
Qed.

Context (e : Env) (Hcalm : calm src e).

Lemma backfillFetch_calm w :
  truthy_opt (oldest (STATE_KV w)) →
  backfillFetch e w = Some (Ok (backfillListing e w)).
Proof.
  destruct Hcalm as (_ & Hserves & Hfaultless & _). intros Hset.
  unfold backfillFetch. rewrite !Hfaultless.
  destruct (truthy_opt (oldest (STATE_KV w))); [simpl|done].
  by rewrite fetchLogs_served by (intros; apply Hserves).
Qed.

Lemma backfillListing_older w r :
  r ∈ merge_sort log_le (backfillListing e w) → r ∈ older src w.
Proof.
  destruct Hcalm as (Hsrc & _). rewrite merge_sort_Permutation.
  unfold backfillListing. intros Hr.
  eapply elem_of_sublist in Hr; [|apply sublist_take].
  apply api_listing_elem_of in Hr as [Hm Hr].
  unfold backfillOptions in Hm. rewrite backfill_matches in Hm.
  unfold older. apply list_elem_of_filter. by rewrite <-Hsrc.
Qed.

(** When the older records are deliverable, the filter accepts the first
    record of a non-empty batch. *)
Lemma backfillResult_head w :
  deliverable src w → backfillListing e w ≠ [] →
  ∃ first rest,
  merge_sort log_le (backfillListing e w) = first :: rest ∧
  head (backfillResult e w) = Some first.
Proof.
  intros Hdel Hne. unfold backfillResult.
  pose proof (backfillListing_older w) as Hold.
  destruct (merge_sort log_le (backfillListing e w)) as [|x xs] eqn:Hsorted.
  { destruct Hne. apply Permutation_nil_r. by rewrite <-Hsorted, merge_sort_Permutation. }
  exists x, xs. split; [done|]. cbn [accepted].
  destruct (Hdel x) as [Hid Hkv]; [apply Hold; by left|].
  unfold marked at 1. rewrite Hkv. simpl.
  apply Is_true_true in Hid. by rewrite Hid.
Qed.

(** One cycle either deletes the marker or moves it strictly back, keeping
    the older records deliverable. *)
Lemma backfill_step w :
  truthy_opt (oldest (STATE_KV w)) → deliverable src w →
  deletedBecause e w ∨
  (truthy_opt (oldest (STATE_KV (runBackfill e w).1)) ∧
    deliverable src (runBackfill e w).1 ∧
    length (older src (runBackfill e w).1) < length (older src w)).
Proof.
  intros Hset Hdel. pose proof Hcalm as (Hsrc & Hserves & Hfaultless & Hsink).
  destruct (runBackfill_quiet e Hserves Hfaultless w Hsink Hset)
    as (w' & Hrun & _ & _ & Hcases).
  unfold deletedBecause. rewrite Hrun, backfillFetch_calm by done. simpl.
  destruct (decide (backfillListing e w = [])) as [Hnil|Hne].
  { left. destruct Hcases as [Hold _]. rewrite Hnil. auto. }
  destruct (backfillResult_head w Hdel Hne) as (first & rest & Hsorted & Hhead).
  destruct (backfillResult e w) as [|x toSend] eqn:Hres; [done|].
  injection Hhead as ->. destruct Hcases as [Hi Hold].
  destruct (str_le (created_at first) (stopAtOf w)) eqn:Hstop.
  { left. split; [done|]. split; [done|]. right. exists first.
    split; [done|]. by rewrite Hstop. }
  right.
  assert (first ∈ older src w) as Hfirst.
  { apply backfillListing_older. rewrite Hsorted. by left. }
  assert (str_lt (created_at first) (oldestOf w)) as Hlt.
  { unfold older in Hfirst. by apply list_elem_of_filter in Hfirst as [? _]. }
  assert (oldestOf w' = created_at first) as Hnew.
  { unfold oldestOf. by rewrite Hold. }
  split_and!.
  - rewrite Hold. simpl. destruct (created_at first); [|done].
    by rewrite (Is_true_true_1 _ (str_le_empty _)) in Hstop.
  - intros r. unfold older. rewrite list_elem_of_filter, Hnew.
    intros [Hr Hin].
    destruct (Hdel r) as [Hid Hkv].
    { apply list_elem_of_filter. split; [|done].
      by apply (str_lt_trans _ (created_at first)). }
    split; [done|]. rewrite Hi, withMarks_lookup_other; [done|].
    intros (t & Heq & Ht)%list_elem_of_fmap.
    rewrite <-Hres in Ht. unfold backfillResult in Ht.
    apply accepted_elem_of in Ht as (Ht & _).
    assert (t ∈ src) as Htsrc.
    { apply backfillListing_older in Ht. unfold older in Ht.
      by apply list_elem_of_filter in Ht as [_ ?]. }
    assert (r = t) as -> by (by apply same_id_same_record).
    assert (StronglySorted log_le (first :: rest)) as Hss.
    { rewrite <-Hsorted. apply StronglySorted_merge_sort; apply _. }
    rewrite Hsorted in Ht. apply elem_of_cons in Ht as [->|Ht].
    + by apply str_lt_irrefl in Hr.
    + apply StronglySorted_cons in Hss as [Hall _].
      rewrite Forall_forall in Hall.
      apply Hall, log_le_created_at in Ht.
      by apply (str_lt_irrefl (created_at t)), (str_lt_le_trans _ (created_at first)).
  - unfold older. rewrite Hnew.
    apply (filter_length_lt _ _ _ first).
    + intros r Hr. by apply (str_lt_trans _ (created_at first)).
    + unfold older in Hfirst. by apply list_elem_of_filter in Hfirst as [_ ?].
    + done.
    + apply str_lt_irrefl.
Qed.

End backfill_progress.

(** ** Backfill terminates *)

Section backfill_termination.
Context (src : list AIGLog) (Hids : NoDup (id <$> src)).
Context (es : nat → Env) (Hcalm : ∀ k, calm src (es k)).

Lemma terminated_at_start m start w :
  ¬ truthy_opt (oldest (STATE_KV w)) →
  settlesWithin es start m w.
Proof. intros Hunset. exists 0. split; [lia|]. split; [done|]. by left. Qed.

Lemma terminated_by_next_cycle m start w :
  deletedBecause (es start) w →
  settlesWithin es start m w.
Proof.
  intros Hend. exists 1. split; [lia|]. split.
  - simpl. destruct Hend as (_ & -> & _). by intros [].
  - right. exists 0. split; [done|]. by replace (start + 0) with start by lia.
Qed.

Lemma backfill_terminates_from m : ∀ start w,
  length (older src w) ≤ m → deliverable src w →
  settlesWithin es start m w.
Proof.
  induction m as [|m IH]; intros start w Hm Hdel.
  - destruct (truthy_opt (oldest (STATE_KV w))) eqn:Hset.
    + destruct (backfill_step src Hids (es start) (Hcalm start) w)
        as [Hend|(_ & _ & Hlt)]; [by rewrite Hset|done| |lia].
      by apply terminated_by_next_cycle.
    + apply terminated_at_start. rewrite Hset. by intros [].
  - destruct (truthy_opt (oldest (STATE_KV w))) eqn:Hset.
    + destruct (backfill_step src Hids (es start) (Hcalm start) w)
        as [Hend|(Hset' & Hdel' & Hlt)]; [by rewrite Hset|done| |].
      { by apply terminated_by_next_cycle. }
      destruct (IH (S start) (runBackfill (es start) w).1)
        as (n & Hn & Hunset & Hhow); [lia|done|].
      exists (S n). split; [lia|]. split; [done|]. right.
      destruct Hhow as [->|(k & -> & Hhow)].
      * simpl in Hunset. by destruct Hunset.
      * exists (S k). split; [done|].
        by replace (start + S k) with (S start + k) by lia.
    + apply terminated_at_start. rewrite Hset. by intros [].
Qed.

End backfill_termination.

(** C4 (as amended).  Let the source be finite and static with distinct
    ids, let every source record older than the initial marker have an id
    and no membership entry, and let no call fail.  Then within as many
    backfill cycles as there are such records, plus one, the oldest marker
    is unset: either it was unset from the start, or some cycle deleted it,
    because its fetch returned zero records or because the earliest
    timestamp of its batch was less than or equal to the stop boundary.
    From then on every backfill cycle is a no-op. *)
Theorem backfill_terminates src es w :
  NoDup (id <$> src) →
  (∀ k, calm src (es k)) →
  deliverable src w →
  ∃ n, n ≤ S (length (older src w)) ∧
    ¬ truthy_opt (oldest (STATE_KV (backfillFrom es 0 n w))) ∧
    (n = 0 ∨
     ∃ k, n = S k ∧ deletedBecause (es k) (backfillFrom es 0 k w)) ∧
    (∀ k, runBackfill (es k) (backfillFrom es 0 n w)
          = (backfillFrom es 0 n w, Ok ())).
Proof.
  intros Hids Hcalm Hdel.
  destruct (backfill_terminates_from src Hids es Hcalm _ 0 w (le_n _) Hdel)
    as (n & Hn & Hunset & Hhow).
  exists n. split_and!; try done.
  intros k. apply runBackfill_no_marker; [|done].
  by destruct (Hcalm k) as (_ & _ & -> & _).
Qed.

(** ** Instances on the sample data *)

Lemma backfillFrom_fixed es w :
  (∀ k, (runBackfill (es k) w).1 = w) →
  ∀ n start, backfillFrom es start n w = w.
Proof.
  intros Hfix. induction n as [|n IH]; intros start; [done|].
  simpl. by rewrite Hfix.
Qed.

(** C4, an instance: the marker goes from [t30] to [t10] and is then
    deleted by a cycle that fetches nothing. *)
Lemma backfill_terminates_witness :
  let src := [Sample.A; Sample.B; Sample.C] in
  let es := λ _ : nat, Sample.env src in
  let w := Sample.backfilling (Some Sample.t05) in
  ∃ n, n ≤ S (length (older src w)) ∧
    ¬ truthy_opt (oldest (STATE_KV (backfillFrom es 0 n w))) ∧
    (n = 0 ∨
     ∃ k, n = S k ∧ deletedBecause (es k) (backfillFrom es 0 k w)) ∧
    (∀ k, runBackfill (es k) (backfillFrom es 0 n w)
          = (backfillFrom es 0 n w, Ok ())).
Proof.
  intros src es w. apply (backfill_terminates src es w).
  - apply (bool_decide_unpack _). by vm_compute.
  - intros k. split_and!; [done|by intros ??|by intros ?|by intros ?].
  - unfold deliverable. apply Forall_forall.
    apply (bool_decide_unpack _). by vm_compute.
Defined.

(** C4, as stated, fails: with a stop boundary at [t15] the first cycle
    fetches three records, sends them and deletes the marker because the
    earliest one is at [t10]; no later cycle fetches at all, so no cycle
    ever has a fetch that returns zero records. *)
Lemma backfill_ends_at_boundary_without_empty_fetch :
  let e := Sample.env [Sample.A; Sample.B; Sample.C] in
  let w := Sample.backfilling (Some Sample.t15) in
  backfillFetch e w = Some (Ok [Sample.C; Sample.B; Sample.A]) ∧
  oldest (STATE_KV (runBackfill e w).1) = None ∧
  ∀ n, backfillFetch e (backfillFrom (λ _, e) 0 n w) ≠ Some (Ok []).
Proof.
  intros e w. split; [by vm_compute|]. split; [by vm_compute|].
  intros [|n]; [by vm_compute|].
  simpl. rewrite backfillFrom_fixed; [by vm_compute|].
  intros _. by vm_compute.
Qed.

(** Without the hypothesis on the membership store backfill can stall: when
    every record of the fetched batch is already marked, the cycle changes
    nothing and the next one fetches the same batch. *)
Lemma backfill_stalls_on_known_batch :
  let e := Sample.env [Sample.A; Sample.B; Sample.C] in
  backfillFetch e Sample.allKnown = Some (Ok [Sample.B; Sample.A]) ∧
  ∀ n, backfillFrom (λ _, e) 0 n Sample.allKnown = Sample.allKnown.
Proof.
  intros e. split; [by vm_compute|].
  intros n. apply backfillFrom_fixed. intros _. by vm_compute.
Qed.

(** C5, an instance: from a marker at [t30] and a boundary at [t05] the
    cycle sends [A; B; C] and moves the marker to [t10]. *)
Lemma backfill_marker_advance_witness :
  let e := Sample.env [Sample.A; Sample.B; Sample.C] in
  let w := Sample.backfilling (Some Sample.t05) in
  let toSend := [Sample.A; Sample.B; Sample.C] in
  let w2 := (dedupAndFilter e toSend w).1 in
  let w' := (runBackfill e w).1 in
  (∀ r, r ∈ toSend → str_le (created_at Sample.A) (created_at r)) ∧
  str_lt (created_at Sample.A) (oldestOf w) ∧
  if str_le (created_at Sample.A) (stopAtOf w) then
    oldest (STATE_KV w') = None ∧
    effects w' = effects w2 ++ [InsertAll toSend; StateDeleteOldest]
  else
    oldest (STATE_KV w') = Some (created_at Sample.A) ∧
    effects w' = effects w2 ++ [InsertAll toSend; StatePutOldest (created_at Sample.A)].
Proof.
  intros e w toSend w2 w'.
  apply (backfill_marker_advance e w w w2 w'
           [Sample.C; Sample.B; Sample.A] toSend Sample.A).
  - done.
  - by vm_compute.
  - by vm_compute.
  - done.
  - by vm_compute.
Defined.

(** C6, an instance: of [A; B; A; noId; C] with B marked, the filter keeps
    [A; C]. *)
Lemma dedup_filter_decides_witness :
  (∀ r, r ∈ Batch.logs →
        faults (Sample.env []) (CallIdsGet (kvKey (id r))) = false) ∧
  (dedupAndFilter (Sample.env []) Batch.logs Batch.bKnown).2
    = Ok [Sample.A; Sample.C] ∧
  "2" ∉ id <$> [Sample.A; Sample.C].
Proof.
  assert (∀ r, r ∈ Batch.logs →
               faults (Sample.env []) (CallIdsGet (kvKey (id r))) = false)
    as Hok by done.
  split; [exact Hok|].
  destruct (dedup_filter_decides (Sample.env []) Batch.logs Batch.bKnown Hok)
    as (w1 & w' & _ & _ & Hrun & _ & _ & _ & _ & _ & Hlive & _).
  split; [by rewrite Hrun|].
  apply (Hlive "2" "1" 5000%N); by vm_compute.
Defined.

(** C7, instances: a row error does not stop the commit of a forward cycle
    nor the advance of a backfill cycle; a 503 answer fails the cycle and
    leaves the state store as it was. *)
Lemma sink_failure_and_row_errors_witness :
  let src := [Sample.A; Sample.B; Sample.C] in
  let e := Sample.rowRejected src in
  let down := Sample.sinkDown src in
  let w := Sample.backfilling (Some Sample.t05) in
  sinkReachable e ∧
  (runForward e Sample.atA).2 = Ok () ∧
  forward (STATE_KV (runForward e Sample.atA).1) = Some (cursorOf Sample.C) ∧
  FailedToInsertLog (Some "2") "invalid" ∈ logged (runForward e Sample.atA).1 ∧
  oldest (STATE_KV (runBackfill e w).1) = Some Sample.t10 ∧
  (runForward down Sample.atA).2 = Err (SinkError 503) ∧
  STATE_KV (runForward down Sample.atA).1 = STATE_KV Sample.atA.
Proof.
  intros src e down w. assert (sinkReachable e) as Hreach by done.
  split; [exact Hreach|].
  destruct (sink_failure_and_row_errors e Sample.atA Hreach) as [Hfwd _].
  specialize (Hfwd (forwardBatch e Sample.atA).1 [Sample.B; Sample.C] Sample.B).
  destruct Hfwd as [_ Hcursor]; [by vm_compute|done|].
  split; [by vm_compute|]. split; [by apply Hcursor|].
  split; [apply (bool_decide_unpack _); by vm_compute|].
  destruct (sink_failure_and_row_errors e w Hreach) as [_ Hback].
  specialize (Hback w (dedupAndFilter e src w).1
                [Sample.C; Sample.B; Sample.A] src Sample.A).
  destruct Hback as [_ Hadvance]; [done|done|done|by vm_compute|by vm_compute|done|].
  destruct Hadvance as [_ Hold]; [done|done|].
  split; [exact Hold|].
  assert (sinkReachable down) as Hreach' by done.
  destruct (sink_failure_and_row_errors down Sample.atA Hreach') as [Hdown _].
  specialize (Hdown (forwardBatch down Sample.atA).1 [Sample.B; Sample.C] Sample.B).
  destruct Hdown as (_ & Hres & Hstate); [by vm_compute|done|].
  split; [exact Hres|exact Hstate].
Defined.

(** C8, an instance: every marker write is rejected, the filter still
    returns [A; B], and both failures are logged. *)
Lemma marker_write_failures_swallowed_witness :
  let e := Sample.marksRejected [] in
  let logs := [Sample.A; Sample.B] in
  (∀ r, r ∈ logs → faults e (CallIdsGet (kvKey (id r))) = false) ∧
  ∃ w', dedupAndFilter e logs Sample.fresh = (w', Ok logs) ∧
        IDS_KV w' = ∅ ∧
        FailedToMark "1" ∈ logged w' ∧ FailedToMark "2" ∈ logged w'.
Proof.
  intros e logs.
  assert (∀ r, r ∈ logs → faults e (CallIdsGet (kvKey (id r))) = false)
    as Hok by done.
  split; [exact Hok|].
  destruct (marker_write_failures_swallowed e logs Sample.fresh Hok)
    as [(w' & Hrun & Hi & Hlog) _].
  exists w'. split; [exact Hrun|]. split; [by rewrite Hi|].
  split; [apply (Hlog Sample.A)|apply (Hlog Sample.B)];
    (apply (bool_decide_unpack _); by vm_compute) || done.
Defined.

(** C10, an instance: A and B are already marked. *)
Lemma backfill_nothing_new_is_noop_witness :
  let e := Sample.env [Sample.A; Sample.B; Sample.C] in
  let w := Sample.allKnown in
  runBackfill e w = (w, Ok ()) ∧
  STATE_KV w = STATE_KV w ∧ IDS_KV w = IDS_KV w ∧
  effects w = effects w ∧
  oldestOf w = oldestOf w.
Proof.
  intros e w.
  apply (backfill_nothing_new_is_noop e w w w [Sample.B; Sample.A]).
  - done.
  - done.
  - done.
  - by vm_compute.
  - done.
  - by vm_compute.
Defined.

(** C3, an instance: in the sample scenario the cycle writes the cursor
    once, after the sink write, to the position of C. *)
Lemma forward_cursor_commit_witness :
  let e := Sample.env [Sample.A; Sample.B; Sample.C] in
  ∃ evs, effects (runForward e Sample.atA).1 = effects Sample.atA ++ evs ∧
    sinkWrites evs = [[Sample.B; Sample.C]] ∧
    cursorPuts evs = [cursorOf Sample.C] ∧
    forward (STATE_KV (runForward e Sample.atA).1) = Some (cursorOf Sample.C).
Proof.
  intros e.
  destruct (forward_cursor_commit e Sample.atA) as (evs & Hev & _ & _).
  exists evs. split; [exact Hev|].
  vm_compute in Hev. subst evs. by vm_compute.
Defined.

(** C9, an instance: the first forward cycle finds no marker, completes
    the batch [B; C] and sets the marker to the timestamp of B, the first
    record it sends. *)
Lemma forward_writes_oldest_iff_unset_witness :
  let e := Sample.env [Sample.A; Sample.B; Sample.C] in
  ∃ evs, effects (runForward e Sample.atA).1 = effects Sample.atA ++ evs ∧
    oldestPuts evs = [created_at Sample.B] ∧
    oldest (STATE_KV (runForward e Sample.atA).1) = Some (created_at Sample.B).
Proof.
  intros e.
  destruct (forward_writes_oldest_iff_unset e Sample.atA)
    as (evs & Hev & _ & _ & _ & Hfirst).
  exists evs. split; [exact Hev|].
  apply (Hfirst (forwardBatch e Sample.atA).1 [Sample.B; Sample.C] Sample.B).
  - by vm_compute.
  - done.
  - by vm_compute.
  - by vm_compute.
Defined.

(** * Further properties of the code *)

(** ** What [fetchLogs] returns, in general *)

Section fetch_outcomes.
Context (e : Env) (options : FetchLogsOptions).

(** A page request that returns was served. *)
Lemma requestPage_ok_served page w w' logs :
  requestPage e options page w = (w', Ok logs) →
  logs_api e options page = Served.
Proof.
  unfold requestPage, catch.
  destruct (logs_api e options page); run_m; by intros [= <- <-].
Qed.

(** A page request that throws was not served; it has logged the page. *)
Lemma requestPage_err_log page w w' err :
  requestPage e options page w = (w', Err err) →
  logs_api e options page ≠ Served ∧
  last (logged w') = Some (FailedToFetchPage page).
Proof.
  unfold requestPage, catch.
  destruct (logs_api e options page); run_m; intros [= <- <-]; simpl;
    by rewrite last_snoc.
Qed.

Lemma api_page_length page :
  length (api_page e options page) ≤ LOGS_PER_PAGE e.
Proof. unfold api_page. rewrite length_take. lia. Qed.

(** When the loop returns, it returns the first [remaining] pages of the
    listing that starts at page [page], whatever the API would have
    answered on the pages that were not requested. *)
Lemma fetchPages_ok_prefix remaining : ∀ page allLogs w w' logs,
  1 ≤ page →
  fetchPages e options remaining page allLogs w = (w', Ok logs) →
  w' = w ∧
  logs = allLogs ++ take (remaining * LOGS_PER_PAGE e)
                         (drop ((page - 1) * LOGS_PER_PAGE e)
                               (api_listing e options)).
Proof.
  induction remaining as [|r IH]; intros page allLogs w w' logs Hpage.
  { simpl. unfold ret. intros [= <- <-]. by rewrite app_nil_r. }
  cbn [fetchPages]. unfold bind.
  destruct (requestPage e options page w) as [w1 [pg|err]] eqn:E; [|done].
  apply requestPage_ok in E as [-> ->]. unfold api_page.
  set (pp := LOGS_PER_PAGE e).
  set (D := drop ((page - 1) * pp) (api_listing e options)).
  assert (length (take pp D) = pp `min` length D) as Hlen by apply length_take.
  destruct (decide (length (take pp D) = 0)) as [H0|H0].
  { unfold ret. intros [= <- <-]. split; [done|].
    destruct (decide (pp = 0)) as [->|Hpp].
    - by rewrite Nat.mul_0_r, take_0, app_nil_r.
    - assert (D = []) as -> by (apply length_zero_iff_nil; lia).
      by rewrite take_nil, app_nil_r. }
  destruct (decide (length (take pp D) < pp)) as [Hlt|Hge].
  { unfold ret. intros [= <- <-]. split; [done|]. f_equal.
    rewrite !take_ge; [done| |]; lia. }
  intros [-> ->]%IH; [|lia]. split; [done|].
  rewrite <-app_assoc. f_equal.
  fold pp. replace ((S page - 1) * pp) with ((page - 1) * pp + pp) by nia.
  rewrite <-drop_drop. fold D.
  replace (S r * pp) with (pp + r * pp) by lia.
  by rewrite take_take_drop.
Qed.

(** When the loop throws, it throws for the first page that was not
    served; the pages before it were served in full. *)
Lemma fetchPages_err_page remaining : ∀ page allLogs w w' err,
  fetchPages e options remaining page allLogs w = (w', Err err) →
  ∃ p, err = SourceError p ∧ page ≤ p < page + remaining ∧
    logs_api e options p ≠ Served ∧
    (∀ q, page ≤ q < p →
       logs_api e options q = Served ∧
       length (api_page e options q) = LOGS_PER_PAGE e) ∧
    last (logged w') = Some (FailedToFetchPage p).
Proof.
  induction remaining as [|n IH]; intros page allLogs w w' err; [done|].
  cbn [fetchPages]. unfold bind.
  destruct (requestPage e options page w) as [w1 [pg|err1]] eqn:E.
  - pose proof (requestPage_ok_served _ _ _ _ E) as Hserved.
    apply requestPage_ok in E as [-> ->].
    pose proof (api_page_length page).
    repeat case_decide; unfold ret; try done.
    intros (p & -> & Hp & Hnot & Hfull & Hlog)%IH.
    exists p. split_and!; [done|lia|lia|done| |done].
    intros q Hq. destruct (decide (q = page)) as [->|]; [split; [done|lia]|].
    apply Hfull. lia.
  - pose proof (requestPage_err _ _ _ _ _ _ E) as ->.
    apply requestPage_err_log in E as [Hnot Hlog].
    intros [= <- <-]. exists page. split_and!; [done|lia|lia|done| |done].
    intros q Hq. lia.
Qed.

End fetch_outcomes.

(** X1.  Whenever [fetchLogs] returns a list, the list is the listing of
    the API for the request cut after [maxPages × per_page] records: a
    prefix of the listing, in the listing's order, of at most that many
    records, all of them source records that match the request's filter.
    The world is unchanged. *)
Theorem fetchLogs_returns_listing_prefix e options w w' logs :
  fetchLogs e options w = (w', Ok logs) →
  w' = w ∧
  logs = take (maxPages options * LOGS_PER_PAGE e) (api_listing e options) ∧
  logs `prefix_of` api_listing e options ∧
  length logs ≤ maxPages options * LOGS_PER_PAGE e ∧
  (∀ r, r ∈ logs → api_matches options r ∧ r ∈ source e).
Proof.
  intros H. pose proof (λ r, fetchLogs_elem_of _ _ _ _ _ r H) as Helem.
  apply fetchPages_ok_prefix in H as [-> ->]; [|lia].
  rewrite Nat.mul_0_l, drop_0 in *. simpl.
  split; [done|]. split; [done|]. split; [apply prefix_take|].
  split; [rewrite length_take; lia|]. intros r Hr. by apply Helem.
Qed.

Lemma fetchLogs_returns_listing_prefix_witness :
  let e := Sample.smallPages Burst.records in
  let options := mkOptions OpEq Sample.t10 (Some (KindGt, "1")) true 5 in
  ∃ logs,
    fetchLogs e options Sample.fresh = (Sample.fresh, Ok logs) ∧
    logs = take 5 (api_listing e options) ∧
    length logs = 5 ∧ length (api_listing e options) = 6.
Proof.
  eexists. split; [by vm_compute|].
  destruct (fetchLogs_returns_listing_prefix
    (Sample.smallPages Burst.records)
    (mkOptions OpEq Sample.t10 (Some (KindGt, "1")) true 5)
    Sample.fresh Sample.fresh
    (take 5 (api_listing (Sample.smallPages Burst.records)
       (mkOptions OpEq Sample.t10 (Some (KindGt, "1")) true 5))))
    as (_ & Heq & _); [by vm_compute|].
  split; [exact Heq|]. split; by vm_compute.
Defined.

(** X2.  When [fetchLogs] throws, it throws for a page [p] within the page
    budget that the API did not serve, after pages [1 .. p-1] were each
    served with a full page; the records of those pages are not returned.
    The stores and the effects are as before, and the last line logged
    names the page. *)
Theorem fetchLogs_failure e options w w' err :
  fetchLogs e options w = (w', Err err) →
  ∃ p, err = SourceError p ∧ 1 ≤ p ≤ maxPages options ∧
    logs_api e options p ≠ Served ∧
    (∀ q, 1 ≤ q < p →
       logs_api e options q = Served ∧
       length (api_page e options q) = LOGS_PER_PAGE e) ∧
    quietly w w' ∧
    last (logged w') = Some (FailedToFetchPage p).
Proof.
  intros H. pose proof (fetchLogs_frame _ _ _ _ _ H) as Hq.
  apply fetchPages_err_page in H as (p & -> & Hp & Hnot & Hfull & Hlog).
  exists p. split_and!; try done; lia.
Qed.

Lemma fetchLogs_failure_witness :
  let e := Sample.apiDown [Sample.A] in
  let options := mkOptions OpGt Sample.t00 None true 20 in
  ∃ w', fetchLogs e options Sample.fresh = (w', Err (SourceError 1)) ∧
    logged w' = [CfLogsApiError 500; FailedToFetchPage 1] ∧
    quietly Sample.fresh w'.
Proof.
  eexists. split; [by vm_compute|]. split; [done|].
  destruct (fetchLogs_failure (Sample.apiDown [Sample.A])
    (mkOptions OpGt Sample.t00 None true 20) Sample.fresh
    (mkWorld (mkState None None None) ∅ []
       [CfLogsApiError 500; FailedToFetchPage 1])
    (SourceError 1)) as (p & _ & _ & _ & _ & Hq & _); [by vm_compute|].
  exact Hq.
Defined.

(** ** What the dedup filter returns, in general *)

Section dedup_outcomes.
Context (e : Env).

(** Whenever the loop returns, it has decided as the design document says,
    also when lookups that it did not make would have been rejected. *)
Lemma dedupLoop_ok_accepted logs : ∀ seen earlier output w w' out,
  (∀ i, truthy i → i ∈ seen ↔ i ∈ earlier) →
  dedupLoop e logs seen output w = (w', Ok out) →
  out = output ++ accepted (marked (now e) (IDS_KV w)) earlier logs.
Proof.
  induction logs as [|r rest IH]; intros seen earlier output w w' out Hseen.
  { simpl. unfold ret. intros [= <- <-]. by rewrite app_nil_r. }
  cbn [dedupLoop accepted].
  destruct (truthy (id r)) eqn:Hid; simpl.
  - assert (∀ i, truthy i → i ∈ {[id r]} ∪ seen ↔ i ∈ earlier ++ [id r])
      as Hseen'.
    { intros i Hi. rewrite elem_of_union, elem_of_singleton, elem_of_app,
        list_elem_of_singleton, (Hseen i Hi). tauto. }
    destruct (decide (id r ∈ seen)) as [Hin|Hin].
    + rewrite bool_decide_true by (apply Hseen; [by rewrite Hid|done]).
      simpl. apply IH.
      intros i Hi. rewrite elem_of_app, list_elem_of_singleton, (Hseen i Hi).
      split; [tauto|]. intros [?| ->]; [done|]. by apply Hseen.
    + rewrite bool_decide_false
        by (rewrite <-Hseen; [done|by rewrite Hid]).
      unfold bind. rewrite idsGet_run.
      destruct (faults e _); [done|].
      fold (marked (now e) (IDS_KV w) (id r)).
      destruct (marked (now e) (IDS_KV w) (id r)); simpl.
      * by apply IH.
      * intros ->%(IH _ (earlier ++ [id r])); [|done].
        by rewrite <-app_assoc.
  - run_m. intros ->%(IH _ (earlier ++ [id r])); [done|].
    intros i Hi. rewrite elem_of_app, list_elem_of_singleton, (Hseen i Hi).
    split; [tauto|]. intros [?| ->]; [done|]. by rewrite Hid in Hi.
Qed.

Lemma dedupAndFilter_ok_accepted logs w w' output :
  dedupAndFilter e logs w = (w', Ok output) →
  output = accepted (marked (now e) (IDS_KV w)) [] logs.
Proof.
  unfold dedupAndFilter, bind.
  destruct (dedupLoop e logs ∅ [] w) as [w1 [out|err]] eqn:E; [|done].
  apply (dedupLoop_ok_accepted _ _ []) in E; [|intros i _; set_solver].
  case_decide; [rewrite markProcessed_run|]; unfold ret;
    by intros [= <- <-].
Qed.

(** The loop throws at the first record whose lookup is rejected, and
    returns when there is none.  [seen] holds ids that were looked up. *)
Lemma dedupLoop_rejection logs : ∀ seen output w,
  (∀ i, i ∈ seen → faults e (CallIdsGet (kvKey i)) = false) →
  match (dedupLoop e logs seen output w).2 with
  | Err err =>
      ∃ before r rest, logs = before ++ r :: rest ∧
        (∀ x, x ∈ before → lookupRejected e x = false) ∧
        lookupRejected e r = true ∧
        err = CallRejected (CallIdsGet (kvKey (id r)))
  | Ok _ => ∀ x, x ∈ logs → lookupRejected e x = false
  end.
Proof.
  induction logs as [|r rest IH]; intros seen output w Hseen.
  { simpl. by intros x ?%elem_of_nil. }
  assert (∀ seen' output' w',
    lookupRejected e r = false →
    (∀ i, i ∈ seen' → faults e (CallIdsGet (kvKey i)) = false) →
    match (dedupLoop e rest seen' output' w').2 with
    | Err err =>
        ∃ before r0 rest0, r :: rest = before ++ r0 :: rest0 ∧
          (∀ x, x ∈ before → lookupRejected e x = false) ∧
          lookupRejected e r0 = true ∧
          err = CallRejected (CallIdsGet (kvKey (id r0)))
    | Ok _ => ∀ x, x ∈ r :: rest → lookupRejected e x = false
    end) as Hnext.
  { intros seen' output' w' Hr Hseen'.
    specialize (IH seen' output' w' Hseen').
    destruct (dedupLoop e rest seen' output' w').2 as [out|err].
    - intros x [->|?]%elem_of_cons; auto.
    - destruct IH as (before & r0 & rest0 & -> & Hbefore & Hr0 & ->).
      exists (r :: before), r0, rest0. split_and!; try done.
      intros x [->|?]%elem_of_cons; auto. }
  cbn [dedupLoop]. unfold lookupRejected in *.
  destruct (truthy (id r)) eqn:Hid; simpl.
  - destruct (decide (id r ∈ seen)) as [Hin|Hin].
    { apply Hnext; [by apply Hseen|done]. }
    unfold bind. rewrite idsGet_run.
    destruct (faults e (CallIdsGet (kvKey (id r)))) eqn:Hf.
    { simpl. exists [], r, rest. rewrite Hid, Hf. split_and!; try done.
      by intros x ?%elem_of_nil. }
    destruct (truthy_opt _); apply Hnext; try done.
    all: intros i [->%elem_of_singleton|?]%elem_of_union; auto.
  - run_m. by apply Hnext.
Qed.

End dedup_outcomes.

(** X3.  The dedup filter throws exactly when, somewhere in the batch, a
    record with an id has its marker lookup rejected.  It then throws the
    error of the first such record, and nothing was written: no marker,
    not even for the records accepted before it.  Otherwise it returns the
    batch filtered in input order. *)
Theorem dedup_lookup_rejection e logs w :
  let w' := (dedupAndFilter e logs w).1 in
  match (dedupAndFilter e logs w).2 with
  | Err err =>
      quietly w w' ∧
      ∃ before r rest, logs = before ++ r :: rest ∧
        (∀ x, x ∈ before → lookupRejected e x = false) ∧
        lookupRejected e r = true ∧
        err = CallRejected (CallIdsGet (kvKey (id r)))
  | Ok output =>
      (∀ x, x ∈ logs → lookupRejected e x = false) ∧
      output = accepted (marked (now e) (IDS_KV w)) [] logs
  end.
Proof.
  simpl. destruct (dedupAndFilter e logs w) as [w' res] eqn:E. simpl.
  pose proof (dedupLoop_rejection e logs ∅ [] w) as Hloop.
  pose proof (dedupAndFilter_inv e _ _ _ _ E) as Hinv.
  unfold dedupAndFilter, bind in E.
  destruct (dedupLoop e logs ∅ [] w) as [w1 [out|err]] eqn:E1; simpl in Hloop.
  - assert (res = Ok out) as ->.
    { revert E. case_decide; [rewrite markProcessed_run|]; unfold ret;
        by intros [= <- <-]. }
    split; [apply Hloop; set_solver|].
    by apply (dedupLoop_ok_accepted _ _ _ []) in E1; [|intros i _; set_solver].
  - injection E as <- <-. split; [by eapply dedupLoop_quietly|].
    apply Hloop. set_solver.
Qed.

(** X4.  After the filter has returned, the marker of an accepted record
    whose write went through is found by a lookup at time [t] exactly when
    [t] is before the call's clock plus [DEDUP_TTL_DAYS] days; the ids of
    the other records are marked as they were before the call. *)
Theorem marker_lifetime e logs w w' output :
  dedupAndFilter e logs w = (w', Ok output) →
  (∀ r t, r ∈ output → faults e (CallIdsPut (kvKey (id r))) = false →
     marked t (IDS_KV w') (id r) =
       bool_decide (t < now e + DEDUP_TTL_DAYS e * 86400)%N) ∧
  (∀ i t, i ∉ id <$> written e output →
     marked t (IDS_KV w') i = marked t (IDS_KV w) i).
Proof.
  intros H.
  destruct (dedupAndFilter_inv e _ _ _ _ H)
    as [(err & [=] & _)|(out & [= <-] & _ & Hids & _)].
  split.
  - intros r t Hr Hf. unfold marked. rewrite Hids.
    rewrite (withMarks_lookup e (written e output) (IDS_KV w) r).
    + simpl. unfold live, ttlSeconds. simpl.
      replace (DEDUP_TTL_DAYS e * 86400)%N
        with (DEDUP_TTL_DAYS e * 24 * 60 * 60)%N by lia.
      case_decide; simpl; [by rewrite bool_decide_true|by rewrite bool_decide_false].
    + left. unfold written. by apply list_elem_of_filter.
  - intros i t Hi. unfold marked. rewrite Hids.
    by rewrite withMarks_lookup_other.
Qed.

Lemma marker_lifetime_witness :
  let e := Sample.env [] in
  let w' := (dedupAndFilter e Batch.logs Batch.bKnown).1 in
  marked 3888999 (IDS_KV w') (id Sample.A) = true ∧
  marked 3889000 (IDS_KV w') (id Sample.A) = false.
Proof.
  intros e w'. subst e w'.
  destruct (marker_lifetime (Sample.env []) Batch.logs Batch.bKnown
    (dedupAndFilter (Sample.env []) Batch.logs Batch.bKnown).1
    [Sample.A; Sample.C]) as [Hlive _]; [by vm_compute|].
  split.
  - rewrite (Hlive Sample.A 3888999%N); [done| |done].
    apply (bool_decide_unpack _). by vm_compute.
  - rewrite (Hlive Sample.A 3889000%N); [done| |done].
    apply (bool_decide_unpack _). by vm_compute.
Defined.

(** ** The sink writer, in general *)

(** X5.  [bqInsertAll] touches no KV namespace and posts at most once: the
    whole batch, in order, when the batch is not empty and both the token
    exchange and the request go through; nothing otherwise.  For an empty
    batch it returns at once, whatever the state of the sink.  It returns
    without error only when the batch is empty or the POST was made and
    answered with a success status. *)
Theorem bqInsertAll_posts_at_most_once e logs w :
  let w' := (bqInsertAll e logs w).1 in
  STATE_KV w' = STATE_KV w ∧ IDS_KV w' = IDS_KV w ∧
  effects w' = effects w ++
    (if bool_decide (logs ≠ []) && sinkReachable e then [InsertAll logs]
     else []) ∧
  (logs = [] → bqInsertAll e logs w = (w, Ok ())) ∧
  ((bqInsertAll e logs w).2 = Ok () →
   logs = [] ∨ (sinkReachable e ∧ ok (insertAll_response e logs))).
Proof.
  simpl. destruct logs as [|r logs].
  { rewrite bqInsertAll_nil. simpl. rewrite app_nil_r. split_and!; auto. }
  rewrite bqInsertAll_run by done. unfold sinkReachable.
  rewrite bool_decide_true by done.
  destruct (faults e CallAccessToken), (faults e CallInsertAll),
    (ok (insertAll_response e (r :: logs))); simpl;
    (split_and!; try done); tauto.
Qed.

(** X5, an instance: a batch of two records that the sink accepts. *)
Lemma bqInsertAll_posts_at_most_once_witness :
  let e := Sample.env [] in
  bqInsertAll e [Sample.A; Sample.B] Sample.fresh =
    (after Sample.fresh [InsertAll [Sample.A; Sample.B]] [], Ok ()) ∧
  sinkReachable e ∧ ok (insertAll_response e [Sample.A; Sample.B]).
Proof.
  intros e. split; [by vm_compute|].
  destruct (bqInsertAll_posts_at_most_once e [Sample.A; Sample.B] Sample.fresh)
    as (_ & _ & _ & _ & Hok).
  destruct Hok as [[=]|Hok]; [by vm_compute|exact Hok].
Defined.

(** ** The shape of a cycle *)

Section cycle_shapes.
Context (e : Env).

Lemma catch_log {A} (body : M A) msg w :
  catch body (λ err, wait logger msg then throw err) w =
    match body w with
    | (w1, Ok a) => (w1, Ok a)
    | (w1, Err err) => (after w1 [] [msg], Err err)
    end.
Proof.
  unfold catch. destruct (body w) as [w1 [a|err]]; [done|].
  run_m. unfold after. by rewrite app_nil_r.
Qed.

Lemma fetchLogs_ok_prefix options w w' logs :
  fetchLogs e options w = (w', Ok logs) →
  w' = w ∧
  logs = take (maxPages options * LOGS_PER_PAGE e) (api_listing e options).
Proof.
  intros [-> ->]%fetchPages_ok_prefix; [|lia].
  by rewrite Nat.mul_0_l, drop_0.
Qed.

Lemma forwardBatch_ok w w1 toSend :
  forwardBatch e w = (w1, Ok toSend) →
  ∃ allLogs,
    fetchForward e (lastTsOf e w) (lastIdOf w) w = (w, Ok allLogs) ∧
    dedupAndFilter e allLogs w = (w1, Ok toSend).
Proof.
  unfold forwardBatch, bind, lastTsOf, lastIdOf. rewrite stateGetForward_run.
  destruct (faults e (CallStateGet "forward")); [done|].
  destruct (fetchForward e _ _ w) as [w0 [allLogs|err]] eqn:E0; [|done].
  intros Hdedup. exists allLogs.
  assert (w0 = w) as ->; [|done].
  revert E0. unfold fetchForward, bind.
  destruct (fetchLogs e _ w) as [w2 [phase1|err]] eqn:E1; [|done].
  apply fetchLogs_ok_prefix in E1 as [-> _].
  destruct (fetchLogs e _ w) as [w3 [phase2|err]] eqn:E2; [|done].
  apply fetchLogs_ok_prefix in E2 as [-> _].
  unfold ret. by intros [= <- _].
Qed.

(** The second half of a forward cycle: at most one post, then the state. *)
Lemma forwardCommit_shape toSend w w' res :
  forwardCommit e toSend w = (w', res) →
  IDS_KV w' = IDS_KV w ∧
  backfill_stop_at (STATE_KV w') = backfill_stop_at (STATE_KV w) ∧
  ∃ posts tail,
    effects w' = effects w ++ posts ++ tail ∧
    (posts = [] ∨ posts = [InsertAll toSend]) ∧
    sinkWrites tail = [] ∧
    (forward (STATE_KV w') = forward (STATE_KV w) ∧
       cursorPuts (posts ++ tail) = [] ∨
     ∃ first, head toSend = Some first ∧
       forward (STATE_KV w') = Some (cursorOf (List.last toSend first)) ∧
       cursorPuts (posts ++ tail) = [cursorOf (List.last toSend first)]).
Proof.
  destruct toSend as [|first rest].
  { simpl. unfold ret. intros [= <- <-]. split_and!; try done.
    exists [], []. rewrite !app_nil_r. split_and!; auto. }
  unfold forwardCommit. remember (first :: rest) as toSend eqn:Hts.
  assert (toSend ≠ []) as Hne by (by rewrite Hts).
  assert (head toSend = Some first) as Hhead by (by rewrite Hts).
  clear Hts. unfold bind.
  destruct (bqInsertAll e toSend w) as [w1 [[]|err]] eqn:Ebq.
  - destruct (bqInsertAll_ok _ _ _ _ Hne Ebq) as (_ & _ & He).
    destruct (bqInsertAll_stores _ _ _ _ _ Ebq) as [Hs Hi].
    rewrite statePutForward_run.
    destruct (faults e (CallStatePut "forward")).
    { intros [= <- <-]. rewrite Hs, Hi, He. split_and!; try done.
      exists [InsertAll toSend], []. rewrite app_nil_r. split_and!; auto. }
    rewrite stateGetOldest_run. cbn [STATE_KV oldest].
    destruct (faults e (CallStateGet "oldest")).
    { intros [= <- <-]. simpl. rewrite Hs, Hi, He, <-app_assoc.
      split_and!; try done.
      exists [InsertAll toSend], [StatePutForward (mkCursor
        (created_at (List.last toSend first))
        (id (List.last toSend first)))]. split_and!; eauto. }
    destruct (negb (truthy_opt (oldest (STATE_KV w1)))).
    + rewrite statePutOldest_run. cbn [STATE_KV IDS_KV effects logged
        forward oldest backfill_stop_at].
      destruct (faults e (CallStatePut "oldest")); intros [= <- <-]; simpl;
        rewrite Hs, Hi, He, <-?app_assoc; (split_and!; try done).
      * exists [InsertAll toSend], [StatePutForward (mkCursor
          (created_at (List.last toSend first))
          (id (List.last toSend first)))]. split_and!; eauto.
      * exists [InsertAll toSend], [StatePutForward (mkCursor
          (created_at (List.last toSend first))
          (id (List.last toSend first)));
          StatePutOldest (created_at first)]. split_and!; eauto.
    + unfold ret. intros [= <- <-]. simpl. rewrite Hs, Hi, He, <-app_assoc.
      split_and!; try done.
      exists [InsertAll toSend], [StatePutForward (mkCursor
        (created_at (List.last toSend first))
        (id (List.last toSend first)))]. split_and!; eauto.
  - intros [= <- <-].
    destruct (bqInsertAll_stores _ _ _ _ _ Ebq) as [Hs Hi].
    rewrite Hs, Hi. split_and!; try done.
    destruct (bqInsertAll_err _ _ _ _ _ Ebq) as [_ [He|He]]; rewrite He.
    + exists [], []. rewrite !app_nil_r. split_and!; auto.
    + exists [InsertAll toSend], []. rewrite app_nil_r. split_and!; auto.
Qed.

(** The end of a backfill cycle: at most one post, then the marker. *)
Lemma backfillAdvance_shape stopAt toSend w w' res :
  backfillAdvance e stopAt toSend w = (w', res) →
  IDS_KV w' = IDS_KV w ∧
  forward (STATE_KV w') = forward (STATE_KV w) ∧
  backfill_stop_at (STATE_KV w') = backfill_stop_at (STATE_KV w) ∧
  (oldest (STATE_KV w') = oldest (STATE_KV w) ∨
   oldest (STATE_KV w') = None ∨
   ∃ first, head toSend = Some first ∧
            oldest (STATE_KV w') = Some (created_at first)) ∧
  ∃ posts tail,
    effects w' = effects w ++ posts ++ tail ∧
    (posts = [] ∨ posts = [InsertAll toSend]) ∧
    sinkWrites tail = [] ∧ cursorPuts (posts ++ tail) = [].
Proof.
  destruct toSend as [|first rest].
  { simpl. unfold ret. intros [= <- <-]. split_and!; auto.
    exists [], []. by rewrite !app_nil_r; auto. }
  unfold backfillAdvance. remember (first :: rest) as toSend eqn:Hts.
  assert (toSend ≠ []) as Hne by (by rewrite Hts).
  assert (head toSend = Some first) as Hhead by (by rewrite Hts).
  clear Hts. unfold bind.
  destruct (bqInsertAll e toSend w) as [w1 [[]|err]] eqn:Ebq.
  - destruct (bqInsertAll_ok _ _ _ _ Hne Ebq) as (_ & _ & He).
    destruct (bqInsertAll_stores _ _ _ _ _ Ebq) as [Hs Hi].
    destruct (str_le _ _);
      rewrite ?stateDeleteOldest_run, ?statePutOldest_run;
      destruct (faults e _); intros [= <- <-]; simpl;
      rewrite ?Hs, ?Hi, ?He, <-?app_assoc; (split_and!; eauto).
    + exists [InsertAll toSend], []. by rewrite app_nil_r; auto.
    + exists [InsertAll toSend], [StateDeleteOldest]. auto.
    + exists [InsertAll toSend], []. by rewrite app_nil_r; auto.
    + exists [InsertAll toSend], [StatePutOldest (created_at first)]. auto.
  - intros [= <- <-].
    destruct (bqInsertAll_stores _ _ _ _ _ Ebq) as [Hs Hi].
    rewrite Hs, Hi. split_and!; auto.
    destruct (bqInsertAll_err _ _ _ _ _ Ebq) as [_ [He|He]]; rewrite He.
    + exists [], []. by rewrite !app_nil_r; auto.
    + exists [InsertAll toSend], []. by rewrite app_nil_r; auto.
Qed.

Lemma sinkWrites_app evs1 evs2 :
  sinkWrites (evs1 ++ evs2) = sinkWrites evs1 ++ sinkWrites evs2.
Proof. apply omap_app. Qed.

Lemma catch_log_quietly {A} (body : M A) msg w :
  quietly (body w).1 (catch body (λ err, wait logger msg then throw err) w).1.
Proof.
  rewrite catch_log. destruct (body w) as [w1 [a|err]]; [done|].
  unfold quietly. simpl. by rewrite app_nil_r.
Qed.

Lemma cycleShape_quiet w w' : quietly w w' → cycleShape e w w' [].
Proof.
  intros (Hs & Hi & He). unfold cycleShape. rewrite Hs, Hi, He.
  split_and!; try done; [by exists []|].
  exists [], []. simpl. rewrite app_nil_r. auto.
Qed.

Lemma cycleShape_quietly_r w w1 w2 batch :
  cycleShape e w w1 batch → quietly w1 w2 → cycleShape e w w2 batch.
Proof.
  intros H (Hs & Hi & He). unfold cycleShape. by rewrite Hs, Hi, He.
Qed.

Lemma last_elem_of {A} (l : list A) x d : List.last (x :: l) d ∈ x :: l.
Proof.
  revert x. induction l as [|y l IH]; intros x; [by left|].
  right. apply IH.
Qed.

(** The forward fetch only returns source records after the cursor. *)
Lemma fetchForward_elem_of lastTs lastId w w' allLogs r :
  fetchForward e lastTs lastId w = (w', Ok allLogs) →
  r ∈ allLogs →
  r ∈ source e ∧ after_cursor lastTs lastId r.
Proof.
  unfold fetchForward, bind.
  destruct (fetchLogs e _ w) as [w1 [phase1|err]] eqn:E1; [|done].
  destruct (fetchLogs e _ w1) as [w2 [phase2|err]] eqn:E2; [|done].
  unfold ret. intros [= <- <-] [Hr|Hr]%elem_of_app.
  - destruct (fetchLogs_elem_of _ _ _ _ _ _ E1 Hr) as [Hm ?].
    split; [done|]. rewrite phase1_matches in Hm.
    rewrite after_cursor_split. by destruct (same_ts_after lastTs lastId r).
  - destruct (fetchLogs_elem_of _ _ _ _ _ _ E2 Hr) as [Hm ?].
    split; [done|]. rewrite phase2_matches in Hm.
    rewrite after_cursor_split. destruct (newer lastTs r); [|done].
    by rewrite orb_true_r.
Qed.

(** The body of a forward cycle, inside its [try]. *)
Lemma forwardBody_shape w :
  let w' := ((await toSend := forwardBatch e in forwardCommit e toSend) w).1 in
  (∃ batch, cycleShape e w w' batch) ∧
  ∃ evs, effects w' = effects w ++ evs ∧
    (forward (STATE_KV w') = forward (STATE_KV w) ∧ cursorPuts evs = [] ∨
     ∃ r, r ∈ source e ∧ after_cursor (lastTsOf e w) (lastIdOf w) r ∧
       forward (STATE_KV w') = Some (cursorOf r) ∧
       cursorPuts evs = [cursorOf r]).
Proof.
  simpl. unfold bind.
  destruct (forwardBatch e w) as [w1 [toSend|err]] eqn:Hbatch.
  - destruct (forwardBatch_inv e _ _ _ Hbatch) as (Hs1 & Hi1 & He1).
    destruct (forwardBatch_ok _ _ _ Hbatch) as (allLogs & Hfetch & Hdedup).
    pose proof (dedupAndFilter_ok_accepted e _ _ _ _ Hdedup) as Hacc.
    pose proof (dedupAndFilter_sublist e _ _ _ _ Hdedup) as Hsub.
    destruct (forwardCommit e toSend w1) as [w2 res] eqn:Hcommit.
    apply forwardCommit_shape in Hcommit
      as (Hi2 & Hstop & posts & tail & He2 & Hposts & Htail & Hcur).
    simpl. split.
    + exists toSend. unfold cycleShape. split_and!.
      * by exists allLogs.
      * by rewrite Hi2, Hi1.
      * by rewrite Hstop, Hs1.
      * exists posts, tail. by rewrite He2, He1, <-!app_assoc.
    + exists ((markEffect e <$> written e toSend) ++ posts ++ tail).
      split; [by rewrite He2, He1, <-!app_assoc|].
      rewrite cursorPuts_app, cursorPuts_marks. rewrite Hs1 in Hcur. simpl.
      destruct Hcur as [?|(first & Hhead & Hfwd & Hputs)]; [by left|right].
      exists (List.last toSend first).
      assert (List.last toSend first ∈ allLogs) as Hin.
      { eapply elem_of_sublist; [|done].
        destruct toSend as [|x l]; [done|].
        injection Hhead as ->. apply last_elem_of. }
      destruct (fetchForward_elem_of _ _ _ _ _ _ Hfetch Hin). done.
  - apply forwardBatch_inv in Hbatch as (_ & Hq & _). simpl. split.
    + exists []. by apply cycleShape_quiet.
    + exists []. rewrite app_nil_r. destruct Hq as (-> & _ & ->). auto.
Qed.

End cycle_shapes.

(** ** Every cycle has the same shape *)

Section cycles.
Context (e : Env).

Lemma runForward_shape w :
  let w' := (runForward e w).1 in
  (∃ batch, cycleShape e w w' batch) ∧
  ∃ evs, effects w' = effects w ++ evs ∧
    (forward (STATE_KV w') = forward (STATE_KV w) ∧ cursorPuts evs = [] ∨
     ∃ r, r ∈ source e ∧ after_cursor (lastTsOf e w) (lastIdOf w) r ∧
       forward (STATE_KV w') = Some (cursorOf r) ∧
       cursorPuts evs = [cursorOf r]).
Proof.
  simpl. rewrite runForward_stages.
  destruct (catch_log_quietly
    (await toSend := forwardBatch e in forwardCommit e toSend)
    ForwardFailed w) as (Hs & Hi & He).
  destruct (forwardBody_shape e w) as [[batch Hshape] (evs & Hevs & Hcur)].
  split.
  - exists batch. by eapply cycleShape_quietly_r.
  - exists evs. by rewrite He, Hs.
Qed.

Lemma backfillOutcome_quiet oldestTs w w' :
  quietly w w' → backfillOutcome e oldestTs w w'.
Proof.
  intros Hq. pose proof (cycleShape_quiet e _ _ Hq).
  destruct Hq as (Hs & Hi & He). unfold backfillOutcome. rewrite Hs.
  split_and!; eauto; [|exists []; by rewrite app_nil_r].
  exists []. split; [done|]. by intros r ?%elem_of_nil.
Qed.

Lemma backfillOutcome_quietly_r oldestTs w w1 w2 :
  backfillOutcome e oldestTs w w1 → quietly w1 w2 →
  backfillOutcome e oldestTs w w2.
Proof.
  intros ((batch & Hshape & Hbatch) & Hrest) Hq. split.
  - exists batch. split; [by eapply cycleShape_quietly_r|done].
  - destruct Hq as (Hs & Hi & He). by rewrite Hs, He.
Qed.

(** A backfill cycle from the fetch on. *)
Lemma backfillRest_shape stopAt oldestTs batch w :
  (∀ r, r ∈ batch → r ∈ source e ∧ str_lt (created_at r) oldestTs) →
  backfillOutcome e oldestTs w
    ((if decide (length batch = 0) then stateDeleteOldest e
      else
        await toSend := dedupAndFilter e (merge_sort log_le batch) in
        backfillAdvance e stopAt toSend) w).1.
Proof.
  intros Hbatch. case_decide.
  { rewrite stateDeleteOldest_run. destruct (faults e _); simpl.
    - by apply backfillOutcome_quiet.
    - unfold backfillOutcome. simpl. split_and!; eauto.
      exists []. split; [|by intros r ?%elem_of_nil].
      unfold cycleShape. simpl.
      split_and!; try done; [by exists []|].
      exists [], [StateDeleteOldest]. auto. }
  unfold bind.
  destruct (dedupAndFilter e _ w) as [w1 [toSend|err]] eqn:Hdedup.
  - pose proof (dedupAndFilter_ok_accepted e _ _ _ _ Hdedup) as Hacc.
    pose proof (dedupAndFilter_sublist e _ _ _ _ Hdedup) as Hsub.
    destruct (dedupAndFilter_inv e _ _ _ _ Hdedup)
      as [(? & [=] & _)|(out & [= <-] & Hs1 & Hi1 & He1)].
    destruct (backfillAdvance e stopAt toSend w1) as [w2 res] eqn:Hadv.
    apply backfillAdvance_shape in Hadv
      as (Hi2 & Hfwd & Hstop & Hold & posts & tail & He2 & Hposts & Htail
          & Hcur).
    simpl. rewrite Hs1 in Hfwd, Hstop, Hold.
    assert (∀ r, r ∈ toSend → r ∈ batch) as Hin.
    { intros r Hr. eapply elem_of_sublist in Hr; [|done].
      by rewrite merge_sort_Permutation in Hr. }
    unfold backfillOutcome. split_and!; try done.
    + exists toSend. split; [|by intros r ?%Hin%Hbatch].
      unfold cycleShape. split_and!.
      * by eexists.
      * by rewrite Hi2, Hi1.
      * done.
      * exists posts, tail. by rewrite He2, He1, <-!app_assoc.
    + exists ((markEffect e <$> written e toSend) ++ posts ++ tail).
      split; [by rewrite He2, He1, <-!app_assoc|].
      by rewrite cursorPuts_app, cursorPuts_marks.
    + destruct Hold as [?|[?|(first & Hhead & ?)]]; auto.
      right; right. exists first.
      assert (first ∈ toSend) as Hfirst
        by (destruct toSend; [done|injection Hhead as ->; by left]).
      destruct (Hbatch _ (Hin _ Hfirst)). done.
  - apply dedupAndFilter_inv in Hdedup
      as [(? & _ & Hq)|(out & [=] & _)].
    by apply backfillOutcome_quiet.
Qed.

Lemma runBackfill_shape w :
  backfillOutcome e (oldestOf w) w (runBackfill e w).1.
Proof.
  rewrite runBackfill_stages.
  eapply backfillOutcome_quietly_r; [|apply catch_log_quietly].
  destruct (faults e (CallStateGet "oldest"));
    [by apply backfillOutcome_quiet|].
  destruct (negb (truthy_opt (oldest (STATE_KV w))));
    [by apply backfillOutcome_quiet|].
  destruct (faults e (CallStateGet "backfill_stop_at"));
    [by apply backfillOutcome_quiet|].
  unfold bind at 1.
  destruct (fetchLogs e _ w) as [w1 [batch|err]] eqn:Hfetch.
  - pose proof (λ r, fetchLogs_elem_of e _ _ _ _ r Hfetch) as Helem.
    apply fetchLogs_ok_prefix in Hfetch as [-> _].
    apply backfillRest_shape. intros r [Hm ?]%Helem.
    unfold backfillOptions in Hm. by rewrite backfill_matches in Hm.
  - apply backfillOutcome_quiet. by apply fetchLogs_frame in Hfetch.
Qed.

(** Every tick runs a cycle of that shape. *)
Lemma scheduled_shape cron w :
  (∃ batch, cycleShape e w (scheduled cron e w).1 batch) ∧
  ∃ evs, effects (scheduled cron e w).1 = effects w ++ evs ∧
    (forward (STATE_KV (scheduled cron e w).1) = forward (STATE_KV w) ∧
       cursorPuts evs = [] ∨
     ∃ r, r ∈ source e ∧ after_cursor (lastTsOf e w) (lastIdOf w) r ∧
       forward (STATE_KV (scheduled cron e w).1) = Some (cursorOf r) ∧
       cursorPuts evs = [cursorOf r]).
Proof.
  unfold scheduled. destruct (String.eqb cron "0 * * * *").
  - destruct (runBackfill_shape w)
      as ((batch & Hshape & _) & Hfwd & (evs & He & Hc) & _).
    split; [by exists batch|]. exists evs. auto.
  - apply runForward_shape.
Qed.

End cycles.

(** ** What a forward cycle sends *)

Section forward_batches.
Context (e : Env).

Lemma fetchForward_sorted lastTs lastId w w' allLogs :
  fetchForward e lastTs lastId w = (w', Ok allLogs) →
  StronglySorted log_le allLogs.
Proof.
  unfold fetchForward, bind.
  destruct (fetchLogs e _ w) as [w1 [phase1|err]] eqn:E1; [|done].
  destruct (fetchLogs e _ w1) as [w2 [phase2|err]] eqn:E2; [|done].
  unfold ret. intros [= <- <-].
  pose proof (λ r, fetchLogs_elem_of e _ _ _ _ r E1) as H1.
  pose proof (λ r, fetchLogs_elem_of e _ _ _ _ r E2) as H2.
  apply fetchLogs_ok_prefix in E1 as [-> ->].
  apply fetchLogs_ok_prefix in E2 as [-> ->].
  apply StronglySorted_app_2.
  - intros x1 x2 [Hm1 _]%H1 [Hm2 _]%H2.
    rewrite phase1_matches in Hm1. rewrite phase2_matches in Hm2.
    by eapply phase1_before_phase2.
  - eapply StronglySorted_sublist; [apply sublist_take|].
    by apply api_listing_ascending.
  - eapply StronglySorted_sublist; [apply sublist_take|].
    by apply api_listing_ascending.
Qed.

(** In a sorted list, the last element is a greatest one. *)
Lemma StronglySorted_last_greatest {A} (R : relation A) `{!Reflexive R}
    (l : list A) : ∀ x d y,
  StronglySorted R (x :: l) → y ∈ x :: l → R y (List.last (x :: l) d).
Proof.
  induction l as [|x' l IH]; intros x d y Hsorted Hy.
  { apply list_elem_of_singleton in Hy as ->. simpl. done. }
  apply StronglySorted_cons in Hsorted as [Hx Hsorted].
  change (List.last (x :: x' :: l) d) with (List.last (x' :: l) d).
  apply elem_of_cons in Hy as [->|Hy]; [|by apply IH].
  rewrite Forall_forall in Hx. apply Hx, last_elem_of.
Qed.

Global Instance log_le_refl : Reflexive log_le.
Proof. intros a. by destruct (total log_le a a). Qed.

End forward_batches.

(** X6.  The batch that a forward cycle hands to the sink holds source
    records that are strictly after the cursor the cycle started from,
    with a non-empty id and without a live marker at the start of the
    cycle; it is in ascending [(created_at, id)] order without a repeated
    id.  Its last record, which becomes the cursor, is therefore a greatest
    one: no record of the batch is after the new cursor. *)
Theorem forward_batch_after_cursor e w w1 toSend :
  forwardBatch e w = (w1, Ok toSend) →
  (∀ r, r ∈ toSend →
     r ∈ source e ∧ after_cursor (lastTsOf e w) (lastIdOf w) r ∧
     truthy (id r) ∧ marked (now e) (IDS_KV w) (id r) = false) ∧
  StronglySorted log_le toSend ∧
  NoDup (id <$> toSend) ∧
  (∀ first r, head toSend = Some first → r ∈ toSend →
     log_le r (List.last toSend first)).
Proof.
  intros (allLogs & Hfetch & Hdedup)%forwardBatch_ok.
  pose proof (dedupAndFilter_ok_accepted e _ _ _ _ Hdedup) as Hacc.
  pose proof (dedupAndFilter_sublist e _ _ _ _ Hdedup) as Hsub.
  assert (StronglySorted log_le toSend) as Hsorted.
  { eapply StronglySorted_sublist; [done|]. by eapply fetchForward_sorted. }
  split_and!; [|done| |].
  - intros r Hr.
    assert (r ∈ allLogs) as Hin by (by eapply elem_of_sublist).
    destruct (fetchForward_elem_of _ _ _ _ _ _ _ Hfetch Hin).
    rewrite Hacc in Hr. apply accepted_elem_of in Hr as (_ & ? & ? & _).
    done.
  - rewrite Hacc. apply accepted_NoDup.
  - intros first r Hhead Hr. destruct toSend as [|x l]; [done|].
    by apply (StronglySorted_last_greatest log_le).
Qed.

Lemma forward_batch_after_cursor_witness :
  let e := Sample.env [Sample.A; Sample.B; Sample.C] in
  (forwardBatch e Sample.atA).2 = Ok [Sample.B; Sample.C] ∧
  StronglySorted log_le [Sample.B; Sample.C] ∧
  (∀ r, r ∈ [Sample.B; Sample.C] → after_cursor Sample.t10 "1" r).
Proof.
  destruct (forward_batch_after_cursor
    (Sample.env [Sample.A; Sample.B; Sample.C]) Sample.atA
    (forwardBatch (Sample.env [Sample.A; Sample.B; Sample.C]) Sample.atA).1
    [Sample.B; Sample.C]) as (Hafter & Hsorted & _); [by vm_compute|].
  split; [by vm_compute|]. split; [done|].
  intros r Hr. by destruct (Hafter r Hr) as (_ & ? & _).
Defined.

Lemma runForward_idle e w w1 :
  forwardBatch e w = (w1, Ok []) →
  runForward e w = (w1, Ok ()) ∧ quietly w w1.
Proof.
  intros H. rewrite runForward_stages. unfold catch, bind. rewrite H.
  split; [done|].
  apply forwardBatch_inv in H as (Hs & Hi & He).
  unfold written in *. simpl in *. rewrite app_nil_r in He. done.
Qed.

(** X7.  A forward cycle whose filter returns nothing is a no-op: it
    returns without error and writes neither a marker, nor to the sink,
    nor to the state store. *)
Theorem forward_nothing_new_is_noop e w w1 :
  forwardBatch e w = (w1, Ok []) →
  runForward e w = (w1, Ok ()) ∧ quietly w w1.
Proof. apply runForward_idle. Qed.

Lemma forward_nothing_new_is_noop_witness :
  let e := Sample.env [Sample.A] in
  runForward e Sample.atA = (Sample.atA, Ok ()).
Proof.
  by destruct (forward_nothing_new_is_noop (Sample.env [Sample.A])
    Sample.atA Sample.atA) as [? _]; [by vm_compute|].
Defined.

(** ** The state keys over time *)

Section trails.

Lemma cursor_lt_compare c c' :
  cursor_lt c c' ↔
  compareLogs (mkLog (cur_id c) (cur_ts c) "")
              (mkLog (cur_id c') (cur_ts c') "") = Lt.
Proof.
  unfold cursor_lt, compareLogs, str_lt. simpl.
  rewrite (localeCompare_flip (cur_ts c) (cur_ts c')).
  destruct (localeCompare (cur_ts c) (cur_ts c')); simpl;
    destruct (localeCompare (cur_id c) (cur_id c')); simpl; split; done.
Qed.

Global Instance cursor_lt_trans : Transitive (λ c c', cursor_lt c c').
Proof.
  intros a b c. rewrite !cursor_lt_compare. apply compareLogs_lt_trans.
Qed.

Lemma after_cursor_cursor_lt c r :
  after_cursor (cur_ts c) (cur_id c) r = cursor_lt c (cursorOf r).
Proof. done. Qed.

Lemma StronglySorted_below_last {A} (R : relation A) (l : list A) c x :
  StronglySorted R l → last l = Some c → x ∈ l → x = c ∨ R x c.
Proof.
  intros Hsorted (l' & ->)%last_Some [Hx|Hx%list_elem_of_singleton]%elem_of_app;
    [right|by left].
  eapply StronglySorted_app_1_elem_of; [done..|]. by left.
Qed.

Context (w0 : World).

(** The trail stays sorted and ends at the stored cursor, tick by tick. *)
Lemma cursor_trail_step t w evs :
  let trail evs := option_list (forward (STATE_KV w0)) ++ cursorPuts evs in
  effects w = effects w0 ++ evs →
  StronglySorted (λ c c', cursor_lt c c') (trail evs) →
  forward (STATE_KV w) = last (trail evs) →
  ∃ evs', effects (runTick t w) = effects w0 ++ evs' ∧
    StronglySorted (λ c c', cursor_lt c c') (trail evs') ∧
    forward (STATE_KV (runTick t w)) = last (trail evs').
Proof.
  intros trail He Hsorted Hfwd. unfold runTick.
  destruct (scheduled_shape t.2 t.1 w) as [_ (evs1 & He1 & Hcur)].
  exists (evs ++ evs1). split; [by rewrite He1, He, <-app_assoc|].
  unfold trail in *. rewrite cursorPuts_app.
  destruct Hcur as [[-> ->]|(r & _ & Hafter & -> & ->)].
  { by rewrite app_nil_r. }
  rewrite app_assoc, last_snoc. split; [|done].
  apply StronglySorted_app_2; [|done|repeat constructor].
  intros x1 x2 Hx1 ->%list_elem_of_singleton.
  unfold lastTsOf, lastIdOf in Hafter. rewrite Hfwd in Hafter.
  destruct (last _) as [c|] eqn:Hlast.
  - simpl in Hafter. rewrite after_cursor_cursor_lt in Hafter.
    destruct (StronglySorted_below_last _ _ _ _ Hsorted Hlast Hx1)
      as [->|Hlt]; [done|].
    by etrans.
  - apply last_None in Hlast. rewrite Hlast in Hx1.
    by apply elem_of_nil in Hx1.
Qed.

Lemma cursor_trail_steps ticks : ∀ w evs,
  let trail evs := option_list (forward (STATE_KV w0)) ++ cursorPuts evs in
  effects w = effects w0 ++ evs →
  StronglySorted (λ c c', cursor_lt c c') (trail evs) →
  forward (STATE_KV w) = last (trail evs) →
  ∃ evs', effects (runTicks ticks w) = effects w0 ++ evs' ∧
    StronglySorted (λ c c', cursor_lt c c') (trail evs') ∧
    forward (STATE_KV (runTicks ticks w)) = last (trail evs').
Proof.
  induction ticks as [|t ticks IH]; intros w evs trail He Hsorted Hfwd.
  { by exists evs. }
  destruct (cursor_trail_step t w evs He Hsorted Hfwd)
    as (evs1 & He1 & Hsorted1 & Hfwd1).
  apply (IH _ evs1); done.
Qed.

End trails.

(** X8.  Along any sequence of ticks, whatever fails, the forward cursor
    only advances: the positions written to it, after the one the run
    started from, are strictly increasing in [(ts, id)], and the stored
    cursor is the last of them.  A backfill cycle never writes it. *)
Theorem forward_cursor_only_advances ticks w :
  let w' := runTicks ticks w in
  StronglySorted (λ c c', cursor_lt c c') (cursorTrail w w') ∧
  forward (STATE_KV w') = last (cursorTrail w w') ∧
  (∀ e, forward (STATE_KV (runBackfill e w).1) = forward (STATE_KV w) ∧
        cursorPuts (newEffects w (runBackfill e w).1) = []).
Proof.
  simpl. unfold cursorTrail, newEffects.
  destruct (cursor_trail_steps w ticks w []) as (evs & He & Hsorted & Hfwd).
  { by rewrite app_nil_r. }
  { simpl. rewrite app_nil_r. destruct (forward _); repeat constructor. }
  { simpl. rewrite app_nil_r. by destruct (forward _). }
  rewrite He, drop_app_length. split_and!; try done.
  intros e. destruct (runBackfill_shape e w) as (_ & ? & (evs1 & -> & ?) & _).
  by rewrite drop_app_length.
Qed.

(** X9.  No cycle writes the stop boundary: after any sequence of ticks
    [backfill_stop_at] holds what it held before. *)
Theorem stop_boundary_never_written ticks w :
  backfill_stop_at (STATE_KV (runTicks ticks w)) =
  backfill_stop_at (STATE_KV w).
Proof.
  revert w. induction ticks as [|t ticks IH]; intros w; [done|].
  simpl. rewrite IH. unfold runTick.
  by destruct (scheduled_shape t.2 t.1 w) as [(batch & _ & _ & ? & _) _].
Qed.

(** X10.  A backfill cycle, whatever fails in it, never moves the marker
    to a later time: afterwards the marker is as before, or deleted, or
    the timestamp of a source record strictly older than the marker the
    cycle started from. *)
Theorem backfill_marker_never_moves_later e w :
  let w' := (runBackfill e w).1 in
  oldest (STATE_KV w') = oldest (STATE_KV w) ∨
  oldest (STATE_KV w') = None ∨
  ∃ r, r ∈ source e ∧ str_lt (created_at r) (oldestOf w) ∧
       oldest (STATE_KV w') = Some (created_at r).
Proof. apply runBackfill_shape. Qed.

(** ** No id is posted twice while the markers live *)

Section once.
Context (horizon : N).

Lemma posted_app evs1 evs2 :
  posted (evs1 ++ evs2) = posted evs1 ++ posted evs2.
Proof. unfold posted. by rewrite sinkWrites_app, concat_app. Qed.

Lemma written_all e output :
  (∀ key, faults e (CallIdsPut key) = false) → written e output = output.
Proof.
  intros Hputs. unfold written. induction output as [|r rest IH]; [done|].
  by rewrite filter_cons_True, IH.
Qed.

Lemma covered_marked e kv i :
  (now e < horizon)%N → covered horizon kv i → marked (now e) kv i = true.
Proof.
  intros Hnow (v & expiry & Hlook & Hv & Hexp).
  eapply marked_live; [done..|lia].
Qed.

(** Writing markers at a time whose retention reaches the horizon keeps
    every covered id covered, and covers the marked ones. *)
Lemma covered_withMarks e kv rs i :
  (horizon ≤ now e + ttlSeconds e)%N →
  covered horizon kv i ∨ i ∈ id <$> rs →
  covered horizon (withMarks e kv rs) i.
Proof.
  intros Hexp Hi.
  destruct (decide (i ∈ id <$> rs)) as [(r & -> & Hr)%list_elem_of_fmap|Hout].
  - exists "1", (now e + ttlSeconds e)%N.
    rewrite (withMarks_lookup e rs kv r) by auto. done.
  - destruct Hi as [(v & expiry & Hlook & ?)|?]; [|done].
    exists v, expiry. by rewrite withMarks_lookup_other.
Qed.

(** One cycle keeps the invariant: what was posted so far has distinct
    ids, each covered by a marker. *)
Lemma once_step e w w' batch (w0 : World) evs :
  cycleShape e w w' batch →
  (∀ key, faults e (CallIdsPut key) = false) →
  (now e < horizon ≤ now e + ttlSeconds e)%N →
  effects w = effects w0 ++ evs →
  NoDup (id <$> posted evs) →
  (∀ r, r ∈ posted evs → truthy (id r) ∧ covered horizon (IDS_KV w) (id r)) →
  ∃ evs', effects w' = effects w0 ++ evs' ∧
    NoDup (id <$> posted evs') ∧
    (∀ r, r ∈ posted evs' →
       truthy (id r) ∧ covered horizon (IDS_KV w') (id r)).
Proof.
  intros ([l Hacc] & Hids & _ & posts & tail & He' & Hposts & Htail)
    Hputs [Hnow Hexp] He Hnodup Hcov.
  rewrite written_all in Hids, He' by done.
  exists (evs ++ (markEffect e <$> batch) ++ posts ++ tail).
  split; [by rewrite He', He, <-app_assoc|].
  assert (posted (evs ++ (markEffect e <$> batch) ++ posts ++ tail) =
          posted evs ++ posted posts) as ->.
  { rewrite !posted_app. unfold posted at 2 4.
    by rewrite sinkWrites_marks, Htail, app_nil_r. }
  assert (∀ r, r ∈ posted evs →
    truthy (id r) ∧ covered horizon (IDS_KV w') (id r)) as Hcov'.
  { intros r [? ?]%Hcov. split; [done|]. rewrite Hids.
    apply covered_withMarks; auto. }
  destruct Hposts as [->| ->].
  { unfold posted at 2 4. simpl. by rewrite app_nil_r. }
  assert (posted [InsertAll batch] = batch) as ->
    by (unfold posted; simpl; by rewrite app_nil_r).
  split.
  - rewrite fmap_app. apply NoDup_app. split_and!; [done| |].
    + intros i (r0 & -> & Hr0%Hcov)%list_elem_of_fmap
        (r & Heq & Hr)%list_elem_of_fmap.
      rewrite Hacc in Hr. apply accepted_elem_of in Hr as (_ & _ & Hm & _).
      destruct Hr0 as [_ Hr0]. apply (covered_marked e) in Hr0; [|done].
      congruence.
    + rewrite Hacc. apply accepted_NoDup.
  - intros r [?|Hr]%elem_of_app; [by apply Hcov'|]. split.
    + rewrite Hacc in Hr. by apply accepted_elem_of in Hr as (_ & ? & _).
    + rewrite Hids. apply covered_withMarks; [done|].
      right. by apply list_elem_of_fmap_2.
Qed.

Lemma once_steps (w0 : World) ticks : ∀ w evs,
  (∀ t, t ∈ ticks →
     (∀ key, faults t.2 (CallIdsPut key) = false) ∧
     (now t.2 < horizon ≤ now t.2 + ttlSeconds t.2)%N) →
  effects w = effects w0 ++ evs →
  NoDup (id <$> posted evs) →
  (∀ r, r ∈ posted evs → truthy (id r) ∧ covered horizon (IDS_KV w) (id r)) →
  ∃ evs', effects (runTicks ticks w) = effects w0 ++ evs' ∧
    NoDup (id <$> posted evs') ∧
    (∀ r, r ∈ posted evs' →
       truthy (id r) ∧
       covered horizon (IDS_KV (runTicks ticks w)) (id r)).
Proof.
  induction ticks as [|t ticks IH]; intros w evs Hticks He Hnodup Hcov.
  { by exists evs. }
  destruct (Hticks t) as [Hputs Hwindow]; [by left|].
  destruct (scheduled_shape t.2 t.1 w) as [[batch Hshape] _].
  destruct (once_step _ _ _ _ w0 evs Hshape Hputs Hwindow He Hnodup Hcov)
    as (evs1 & He1 & Hnodup1 & Hcov1).
  apply (IH _ evs1); try done.
  intros t' Ht'. apply Hticks. by right.
Qed.

End once.

(** X11.  Take any sequence of forward and backfill cycles that all run
    within one retention window (each cycle's clock is before [horizon],
    and [horizon] is not after that clock plus the retention time) and in
    which no marker write is rejected.  Whatever else fails, no id is
    posted to the sink twice: the records of all batches posted during the
    sequence have pairwise distinct, non-empty ids, and each of them is
    left with a marker that lives until [horizon]. *)
Theorem no_id_posted_twice ticks w horizon :
  (∀ t, t ∈ ticks →
     (∀ key, faults t.2 (CallIdsPut key) = false) ∧
     (now t.2 < horizon ≤ now t.2 + ttlSeconds t.2)%N) →
  let w' := runTicks ticks w in
  NoDup (id <$> posted (newEffects w w')) ∧
  (∀ r, r ∈ posted (newEffects w w') →
     truthy (id r) ∧ covered horizon (IDS_KV w') (id r)).
Proof.
  intros Hticks. simpl. unfold newEffects.
  destruct (once_steps horizon w ticks w [] Hticks)
    as (evs & He & Hnodup & Hcov).
  { by rewrite app_nil_r. }
  { constructor. }
  { by intros r ?%elem_of_nil. }
  by rewrite He, drop_app_length.
Qed.

Lemma no_id_posted_twice_witness :
  let ticks :=
    [(everyMinute, Sample.sinkDown [Sample.A; Sample.B; Sample.C]);
     (everyMinute, Sample.env [Sample.A; Sample.B; Sample.C; Sample.D]);
     (hourly, Sample.env [Sample.A; Sample.B; Sample.C; Sample.D])] in
  let w' := runTicks ticks Sample.atA in
  posted (newEffects Sample.atA w') = [Sample.B; Sample.C; Sample.D; Sample.A] ∧
  NoDup (id <$> posted (newEffects Sample.atA w')).
Proof.
  split; [by vm_compute|].
  apply (no_id_posted_twice
    [(everyMinute, Sample.sinkDown [Sample.A; Sample.B; Sample.C]);
     (everyMinute, Sample.env [Sample.A; Sample.B; Sample.C; Sample.D]);
     (hourly, Sample.env [Sample.A; Sample.B; Sample.C; Sample.D])]
    Sample.atA 2000%N).
  intros t Ht. repeat (apply elem_of_cons in Ht as [->|Ht]);
    [..|by apply elem_of_nil in Ht]; split; try done; by vm_compute.
Defined.

(** ** Failures of a cycle *)

Section failure_lines.
Context (e : Env).

Lemma stageLines_nil : stageLines [].
Proof. split; by intros ?%elem_of_nil. Qed.

Lemma stageLines_app msgs1 msgs2 :
  stageLines msgs1 → stageLines msgs2 → stageLines (msgs1 ++ msgs2).
Proof.
  intros [? ?] [? ?]. split; rewrite not_elem_of_app; by split.
Qed.

Lemma logs_silent {A} (m : M A) :
  (∀ w, logged (m w).1 = logged w) → logsStageLines m.
Proof.
  intros H w. exists []. rewrite app_nil_r. split; [done|]. apply stageLines_nil.
Qed.

Lemma logs_ret {A} (a : A) : logsStageLines (ret a).
Proof. by apply logs_silent. Qed.

Lemma logs_throw {A} err : logsStageLines (@throw A err).
Proof. by apply logs_silent. Qed.

Lemma logs_calling c : logsStageLines (calling e c).
Proof. apply logs_silent. intros w. unfold calling. by destruct (faults e c). Qed.

Lemma logs_perform ev : logsStageLines (perform ev).
Proof. by apply logs_silent. Qed.

Lemma logs_setState f : logsStageLines (setState f).
Proof. by apply logs_silent. Qed.

Lemma logs_setIds f : logsStageLines (setIds f).
Proof. by apply logs_silent. Qed.

Lemma logs_read {A} (f : World → A) : logsStageLines (λ w, (w, Ok (f w))).
Proof. by apply logs_silent. Qed.

Lemma logs_logger msg :
  msg ≠ ForwardFailed → msg ≠ BackfillFailed → logsStageLines (logger msg).
Proof.
  intros H1 H2 w. exists [msg]. split; [done|].
  split; intros ?%list_elem_of_singleton; congruence.
Qed.

Lemma logs_bind {A B} (m : M A) (k : A → M B) :
  logsStageLines m → (∀ a, logsStageLines (k a)) → logsStageLines (bind m k).
Proof.
  intros Hm Hk w. unfold bind. destruct (Hm w) as (msgs1 & H1 & Hs1).
  destruct (m w) as [w1 [a|err]]; simpl in *.
  - destruct (Hk a w1) as (msgs2 & H2 & Hs2).
    exists (msgs1 ++ msgs2). rewrite H2, H1, <-app_assoc.
    split; [done|]. by apply stageLines_app.
  - by exists msgs1.
Qed.

Lemma logs_catch {A} (m : M A) (h : Error → M A) :
  logsStageLines m → (∀ err, logsStageLines (h err)) →
  logsStageLines (catch m h).
Proof.
  intros Hm Hh w. unfold catch. destruct (Hm w) as (msgs1 & H1 & Hs1).
  destruct (m w) as [w1 [a|err]]; simpl in *.
  - by exists msgs1.
  - destruct (Hh err w1) as (msgs2 & H2 & Hs2).
    exists (msgs1 ++ msgs2). rewrite H2, H1, <-app_assoc.
    split; [done|]. by apply stageLines_app.
Qed.

Ltac stage_lines :=
  repeat lazymatch goal with
    | |- logsStageLines (bind _ _) => apply logs_bind; [|intros ?]
    | |- logsStageLines (catch _ _) => apply logs_catch; [|intros ?]
    | |- logsStageLines (ret _) => apply logs_ret
    | |- logsStageLines (throw _) => apply logs_throw
    | |- logsStageLines (calling _ _) => apply logs_calling
    | |- logsStageLines (perform _) => apply logs_perform
    | |- logsStageLines (setState _) => apply logs_setState
    | |- logsStageLines (setIds _) => apply logs_setIds
    | |- logsStageLines (logger _) => by apply logs_logger
    | |- logsStageLines (λ w, (w, Ok _)) => apply logs_read
    end.

Lemma logs_state_store :
  logsStageLines (stateGetForward e) ∧ logsStageLines (stateGetOldest e) ∧
  logsStageLines (stateGetStopAt e) ∧ logsStageLines (stateDeleteOldest e) ∧
  (∀ c, logsStageLines (statePutForward e c)) ∧
  (∀ v, logsStageLines (statePutOldest e v)).
Proof.
  unfold stateGetForward, stateGetOldest, stateGetStopAt, stateDeleteOldest,
    statePutForward, statePutOldest.
  split_and!; [| | | |intros c|intros v]; stage_lines.
Qed.

Lemma logs_fetchPages options remaining : ∀ page allLogs,
  logsStageLines (fetchPages e options remaining page allLogs).
Proof.
  induction remaining as [|n IH]; intros page allLogs; cbn [fetchPages].
  { stage_lines. }
  apply logs_bind.
  - unfold requestPage. destruct (logs_api e options page); stage_lines.
  - intros logs. repeat case_decide; stage_lines. apply IH.
Qed.

Lemma logs_fetchLogs options : logsStageLines (fetchLogs e options).
Proof. apply logs_fetchPages. Qed.

Lemma logs_dedupLoop logs : ∀ seen output,
  logsStageLines (dedupLoop e logs seen output).
Proof.
  induction logs as [|log rest IH]; intros seen output; cbn [dedupLoop].
  { stage_lines. }
  destruct (negb (truthy (id log))).
  { stage_lines. apply IH. }
  case_decide; [apply IH|]. cbv zeta.
  apply logs_bind.
  - unfold idsGet. stage_lines.
  - intros existing. destruct (truthy_opt existing); apply IH.
Qed.

Lemma logs_markProcessed output : logsStageLines (markProcessed e output).
Proof.
  induction output as [|log rest IH]; cbn [markProcessed]; [stage_lines|].
  apply logs_bind; [|by intros _].
  unfold idsPut. stage_lines.
Qed.

Lemma logs_dedupAndFilter logs : logsStageLines (dedupAndFilter e logs).
Proof.
  unfold dedupAndFilter. apply logs_bind; [apply logs_dedupLoop|].
  intros output. apply logs_bind; [|intros _; stage_lines].
  case_decide; [apply logs_markProcessed|stage_lines].
Qed.

Lemma logs_logInsertErrors logs errs :
  logsStageLines (logInsertErrors logs errs).
Proof.
  induction errs as [|insertError rest IH]; cbn [logInsertErrors];
    [stage_lines|].
  cbv zeta. apply logs_bind; [by apply logs_logger|by intros _].
Qed.

Lemma logs_bqInsertAll logs : logsStageLines (bqInsertAll e logs).
Proof.
  unfold bqInsertAll. case_decide; [stage_lines|].
  apply logs_catch; [|intros err; stage_lines].
  stage_lines. cbv zeta.
  destruct (negb (ok _)); [stage_lines|].
  case_decide; stage_lines. apply logs_logInsertErrors.
Qed.

(** A cycle is a body under a [catch] that logs the failure line and throws
    again: the line is logged exactly when the body throws, and last. *)
Lemma catch_failure_line {A} (body : M A) msg w :
  logsStageLines body →
  let run := catch body (λ err, wait logger msg then throw err) w in
  ∃ msgs, logged run.1 = logged w ++ msgs ∧
    match run.2 with
    | Ok _ => stageLines msgs
    | Err _ => ∃ pre, msgs = pre ++ [msg] ∧ stageLines pre
    end.
Proof.
  intros Hbody. simpl. unfold catch.
  destruct (Hbody w) as (msgs & Hlog & Hstage).
  destruct (body w) as [w1 [a|err]]; simpl in *.
  - by exists msgs.
  - exists (msgs ++ [msg]). rewrite Hlog, <-app_assoc. split; [done|].
    by exists msgs.
Qed.

End failure_lines.

(** X12.  The failure line of a cycle is an exact signal.  A forward cycle
    that throws has logged [Forward process failed] once, as its last line;
    a forward cycle that completes has not logged it, whatever its stages
    logged; and no forward cycle logs the failure line of backfill.  The
    same holds of a backfill cycle and [Backfill process failed]. *)
Theorem cycle_failure_line_is_exact e w :
  (∃ msgs, logged (runForward e w).1 = logged w ++ msgs ∧
     (BackfillFailed ∉ msgs) ∧
     match (runForward e w).2 with
     | Ok _ => ForwardFailed ∉ msgs
     | Err _ => ∃ pre, msgs = pre ++ [ForwardFailed] ∧ (ForwardFailed ∉ pre)
     end) ∧
  (∃ msgs, logged (runBackfill e w).1 = logged w ++ msgs ∧
     (ForwardFailed ∉ msgs) ∧
     match (runBackfill e w).2 with
     | Ok _ => BackfillFailed ∉ msgs
     | Err _ => ∃ pre, msgs = pre ++ [BackfillFailed] ∧ (BackfillFailed ∉ pre)
     end).
Proof.
  destruct (logs_state_store e) as (HgetF & HgetO & HgetS & HdelO & HputF & HputO).
  split.
  - unfold runForward.
    match goal with |- context [catch ?b _ w] =>
      destruct (catch_failure_line b ForwardFailed w) as (msgs & Hlog & Hres)
    end.
    { apply logs_bind; [done|]. intros cursor. cbv zeta.
      apply logs_bind.
      { unfold fetchForward.
        apply logs_bind; [apply logs_fetchLogs|]. intros phase1.
        apply logs_bind; [apply logs_fetchLogs|]. intros phase2.
        apply logs_ret. }
      intros allLogs. apply logs_bind; [apply logs_dedupAndFilter|].
      intros [|first rest]; [apply logs_ret|].
      apply logs_bind; [apply logs_bqInsertAll|]. intros _. cbv zeta.
      apply logs_bind; [done|]. intros _.
      apply logs_bind; [done|]. intros oldestNow.
      destruct (negb (truthy_opt oldestNow)); [done|apply logs_ret]. }
    exists msgs. split; [done|].
    match type of Hres with match ?r with _ => _ end => destruct r end.
    + by destruct Hres.
    + destruct Hres as (pre & -> & Hf & Hb). split; [|by exists pre].
      rewrite not_elem_of_app. split; [done|].
      by intros [=]%list_elem_of_singleton.
  - unfold runBackfill.
    match goal with |- context [catch ?b _ w] =>
      destruct (catch_failure_line b BackfillFailed w) as (msgs & Hlog & Hres)
    end.
    { apply logs_bind; [done|]. intros oldestNow.
      destruct (negb (truthy_opt oldestNow)); [apply logs_ret|]. cbv zeta.
      apply logs_bind; [done|]. intros stop.
      apply logs_bind; [apply logs_fetchLogs|]. intros batch.
      case_decide; [done|].
      apply logs_bind; [apply logs_dedupAndFilter|].
      intros [|first rest]; [apply logs_ret|].
      apply logs_bind; [apply logs_bqInsertAll|]. intros _. cbv zeta.
      by destruct (str_le _ _). }
    exists msgs. split; [done|].
    match type of Hres with match ?r with _ => _ end => destruct r end.
    + by destruct Hres.
    + destruct Hres as (pre & -> & Hf & Hb). split; [|by exists pre].
      rewrite not_elem_of_app. split; [done|].
      by intros [=]%list_elem_of_singleton.
Qed.

(** ** The logger *)

(** X15.  The levels are thresholds: a logger that prints a message of
    some level prints every message of a level with the same or a higher
    priority, and in particular every error. *)
Theorem shouldLog_monotone lg m m' p p' :
  levelPriority (levelName m) = Some p →
  levelPriority (levelName m') = Some p' →
  p ≤ p' →
  shouldLog lg m = true →
  shouldLog lg m' = true ∧ shouldLog lg LevelError = true.
Proof.
  unfold shouldLog. intros Hp Hp' Hle.
  assert (p ≤ 3) as Hmax by (destruct m; injection Hp as <-; lia).
  rewrite Hp, Hp'.
  destruct (levelPriority (level lg)) as [q|]; [|done].
  intros Hq%Nat.leb_le. split; simpl; apply Nat.leb_le; lia.
Qed.

Lemma shouldLog_monotone_witness :
  shouldLog (newLogger "WARN") LevelWarn = true ∧
  shouldLog (newLogger "WARN") LevelError = true ∧
  shouldLog (newLogger "WARN") LevelInfo = false.
Proof.
  destruct (shouldLog_monotone (newLogger "WARN") LevelWarn LevelError 2 3)
    as [H _]; try done; lia.
Defined.

Lemma toLowerCase_truthy s : truthy s → truthy (toLowerCase s).
Proof. by destruct s. Qed.

Lemma printed_none lg msgs :
  Forall (λ msg, shouldLog lg (severity msg) = false) msgs →
  printed lg msgs = [].
Proof.
  unfold printed. induction 1 as [|msg msgs Hmsg _ IH]; [done|].
  rewrite filter_cons_False; [done|]. by rewrite Hmsg.
Qed.

Lemma printed_all lg msgs :
  Forall (λ msg, shouldLog lg (severity msg) = true) msgs →
  printed lg msgs = msgs.
Proof.
  unfold printed. induction 1 as [|msg msgs Hmsg _ IH]; [done|].
  by rewrite filter_cons_True, IH.
Qed.

(** X16.  A logger built from a non-empty string that is not, up to the
    case of its letters, one of the four level names prints nothing at
    all, whatever the level of the message: not even the errors. *)
Theorem misspelt_level_prints_nothing lvl :
  truthy lvl → levelPriority (toLowerCase lvl) = None →
  (∀ m, shouldLog (newLogger lvl) m = false) ∧
  (∀ msgs, printed (newLogger lvl) msgs = []).
Proof.
  intros Hlvl%toLowerCase_truthy Hnone.
  assert (∀ m, shouldLog (newLogger lvl) m = false) as Hsilent.
  { intros m. unfold shouldLog, newLogger. simpl.
    destruct (truthy (toLowerCase lvl)); [|done].
    rewrite Hnone. by destruct (levelPriority (levelName m)). }
  split; [done|]. intros msgs. apply printed_none.
  apply Forall_forall. auto.
Qed.

Lemma misspelt_level_prints_nothing_witness :
  printed (newLogger "WARNING") [ForwardFailed; BqInsertAllFailed] = [] ∧
  printed (newLogger "WARN") [ForwardFailed; BqInsertAllFailed] =
    [ForwardFailed; BqInsertAllFailed].
Proof.
  split; [|by vm_compute].
  by apply (misspelt_level_prints_nothing "WARNING").
Defined.

Section filter_lines.
Context (e : Env).

(** Each line that the loop of the filter logs is a warning. *)
Lemma dedupLoop_logged logs : ∀ seen output w w' res,
  dedupLoop e logs seen output w = (w', res) →
  ∃ msgs, logged w' = logged w ++ msgs ∧
          Forall (λ msg, severity msg = LevelWarn) msgs.
Proof.
  induction logs as [|r rest IH]; intros seen output w w' res.
  { simpl. unfold ret. intros [= <- <-]. exists []. by rewrite app_nil_r. }
  cbn [dedupLoop].
  destruct (negb (truthy (id r))).
  { run_m. intros (msgs & -> & Hmsgs)%IH. simpl.
    exists (LogWithoutId r :: msgs). rewrite <-app_assoc. split; [done|].
    by constructor. }
  destruct (decide (id r ∈ seen)); [apply IH|].
  unfold bind. rewrite idsGet_run.
  destruct (faults e _).
  { intros [= <- <-]. exists []. by rewrite app_nil_r. }
  destruct (truthy_opt _); apply IH.
Qed.

Lemma dedupAndFilter_logged logs w :
  Forall (λ msg, severity msg = LevelWarn)
         (newLogged w (dedupAndFilter e logs w).1).
Proof.
  unfold newLogged, dedupAndFilter, bind.
  destruct (dedupLoop e logs ∅ [] w) as [w1 [out|err]] eqn:E;
    apply dedupLoop_logged in E as (msgs & Hlog & Hmsgs).
  - case_decide; [rewrite markProcessed_run|]; simpl; rewrite Hlog.
    + rewrite <-app_assoc, drop_app_length. apply Forall_app. split; [done|].
      unfold markFailures. apply Forall_fmap, Forall_forall. done.
    + by rewrite drop_app_length.
  - simpl. by rewrite Hlog, drop_app_length.
Qed.

End filter_lines.

(** X17.  Every line the dedup filter logs (a record without id, a
    rejected marker write) is a warning.  So at [LOG_LEVEL=error] nothing
    the filter logs is printed, a swallowed marker-write failure leaves no
    trace; with [LOG_LEVEL] unset or empty, the level is [info] and every
    such line is printed. *)
Theorem filter_lines_are_warnings e logs w :
  let lines := newLogged w (dedupAndFilter e logs w).1 in
  Forall (λ msg, severity msg = LevelWarn) lines ∧
  printed (loggerOf (Some "error")) lines = [] ∧
  printed (loggerOf None) lines = lines ∧
  printed (loggerOf (Some "")) lines = lines.
Proof.
  simpl. pose proof (dedupAndFilter_logged e logs w) as Hwarn.
  split; [done|]. split_and!.
  - apply printed_none. eapply Forall_impl; [done|].
    by intros msg ->.
  - apply printed_all. eapply Forall_impl; [done|].
    by intros msg ->.
  - apply printed_all. eapply Forall_impl; [done|].
    by intros msg ->.
Qed.

(** ** The encoding of the JWT *)

Section base64.

Lemma append_cons x (s1 s2 : string) :
  String x s1 +:+ s2 = String x (s1 +:+ s2).
Proof. done. Qed.

Lemma append_nil_r (s : string) : s +:+ "" = s.
Proof. induction s as [|x s IH]; [done|]. by rewrite append_cons, IH. Qed.

Lemma append_assoc (s1 s2 s3 : string) :
  (s1 +:+ s2) +:+ s3 = s1 +:+ (s2 +:+ s3).
Proof.
  induction s1 as [|x s1 IH]; [done|]. by rewrite !append_cons, IH.
Qed.

Lemma append_length (s1 s2 : string) :
  String.length (s1 +:+ s2) = String.length s1 + String.length s2.
Proof.
  induction s1 as [|x s1 IH]; [done|]. rewrite append_cons. simpl.
  by rewrite IH.
Qed.

Lemma allChars_app P (s1 s2 : string) :
  allChars P (s1 +:+ s2) = allChars P s1 && allChars P s2.
Proof.
  induction s1 as [|x s1 IH]; [done|]. rewrite append_cons. simpl.
  by rewrite IH, andb_assoc.
Qed.

Lemma countChar_app c (s1 s2 : string) :
  countChar c (s1 +:+ s2) = countChar c s1 + countChar c s2.
Proof.
  induction s1 as [|x s1 IH]; [done|]. rewrite append_cons. simpl.
  rewrite IH. lia.
Qed.

Lemma replaceAll_app c r s1 s2 :
  replaceAll c r (s1 +:+ s2) = replaceAll c r s1 +:+ replaceAll c r s2.
Proof.
  induction s1 as [|x s1 IH]; [done|].
  rewrite append_cons. cbn [replaceAll]. by rewrite IH, append_assoc.
Qed.

Lemma base64url_cons x s :
  replaceAll "=" "" (replaceAll "/" "_" (replaceAll "+" "-" (String x s))) =
  urlChar x +:+
  replaceAll "=" "" (replaceAll "/" "_" (replaceAll "+" "-" s)).
Proof.
  unfold urlChar. change (String x s) with (String x "" +:+ s).
  by rewrite !replaceAll_app.
Qed.

(** The encoding, case by case: two, three or four characters for one,
    two or three bytes. *)
Lemma base64url_1 a :
  base64url (String a "") =
    urlChar (base64Char (nat_of_ascii a / 4)) +:+
    urlChar (base64Char (nat_of_ascii a mod 4 * 16)).
Proof.
  unfold base64url. cbn [btoa]. rewrite !base64url_cons.
  change (urlChar "=" +:+ urlChar "=" +:+ _) with "".
  by rewrite append_nil_r.
Qed.

Lemma base64url_2 a b :
  base64url (String a (String b "")) =
    urlChar (base64Char (nat_of_ascii a / 4)) +:+
    urlChar (base64Char (nat_of_ascii a mod 4 * 16 + nat_of_ascii b / 16)) +:+
    urlChar (base64Char (nat_of_ascii b mod 16 * 4)).
Proof.
  unfold base64url. cbn [btoa]. rewrite !base64url_cons.
  change (urlChar "=" +:+ _) with "".
  by rewrite append_nil_r.
Qed.

Lemma base64url_3 a b c rest :
  base64url (String a (String b (String c rest))) =
    urlChar (base64Char (nat_of_ascii a / 4)) +:+
    urlChar (base64Char (nat_of_ascii a mod 4 * 16 + nat_of_ascii b / 16)) +:+
    urlChar (base64Char (nat_of_ascii b mod 16 * 4 + nat_of_ascii c / 64)) +:+
    urlChar (base64Char (nat_of_ascii c mod 64)) +:+
    base64url rest.
Proof. unfold base64url. cbn [btoa]. by rewrite !base64url_cons. Qed.

(** The character of a 6-bit value goes through the replacements as one
    URL-safe character. *)
Lemma urlChar_sextet n :
  n < 64 →
  String.length (urlChar (base64Char n)) = 1 ∧
  allChars urlSafe (urlChar (base64Char n)) = true ∧
  countChar "." (urlChar (base64Char n)) = 0.
Proof.
  intros Hn. do 64 (destruct n as [|n]; [by vm_compute|]). lia.
Qed.

Lemma sextets a b c :
  let a := nat_of_ascii a in
  let b := nat_of_ascii b in
  let c := nat_of_ascii c in
  a / 4 < 64 ∧ a mod 4 * 16 < 64 ∧ a mod 4 * 16 + b / 16 < 64 ∧
  b mod 16 * 4 < 64 ∧ b mod 16 * 4 + c / 64 < 64 ∧ c mod 64 < 64.
Proof.
  cbv zeta.
  pose proof (nat_ascii_bounded a). pose proof (nat_ascii_bounded b).
  pose proof (nat_ascii_bounded c).
  pose proof (Nat.mod_upper_bound (nat_of_ascii a) 4).
  pose proof (Nat.mod_upper_bound (nat_of_ascii b) 16).
  pose proof (Nat.mod_upper_bound (nat_of_ascii c) 64).
  assert (nat_of_ascii a / 4 < 64)
    by (apply Nat.Div0.div_lt_upper_bound; lia).
  assert (nat_of_ascii b / 16 < 16)
    by (apply Nat.Div0.div_lt_upper_bound; lia).
  assert (nat_of_ascii c / 64 < 4)
    by (apply Nat.Div0.div_lt_upper_bound; lia).
  lia.
Qed.

(** Strings, three characters at a time. *)
Lemma string_ind3 (P : string → Prop) :
  P "" → (∀ a, P (String a "")) → (∀ a b, P (String a (String b ""))) →
  (∀ a b c rest, P rest → P (String a (String b (String c rest)))) →
  ∀ s, P s.
Proof.
  intros H0 H1 H2 H3.
  assert (∀ s, P s ∧ (∀ a, P (String a s)) ∧
               (∀ a b, P (String a (String b s)))) as Hall.
  { induction s as [|c s (IH0 & IH1 & IH2)]; [by auto|].
    split_and!; auto. }
  intros s. apply Hall.
Qed.

Lemma base64url_shape data :
  String.length (base64url data) = (4 * String.length data + 2) / 3 ∧
  allChars urlSafe (base64url data) = true ∧
  countChar "." (base64url data) = 0.
Proof.
  induction data as [|a|a b|a b c rest (IHlen & IHsafe & IHdots)]
    using string_ind3.
  - done.
  - rewrite base64url_1. destruct (sextets a a a) as (H1 & H2 & _).
    destruct (urlChar_sextet _ H1) as (L1 & S1 & D1).
    destruct (urlChar_sextet _ H2) as (L2 & S2 & D2).
    by rewrite append_length, allChars_app, countChar_app,
      L1, L2, S1, S2, D1, D2.
  - rewrite base64url_2. destruct (sextets a b b) as (H1 & _ & H2 & H3 & _).
    destruct (urlChar_sextet _ H1) as (L1 & S1 & D1).
    destruct (urlChar_sextet _ H2) as (L2 & S2 & D2).
    destruct (urlChar_sextet _ H3) as (L3 & S3 & D3).
    by rewrite !append_length, !allChars_app, !countChar_app,
      L1, L2, L3, S1, S2, S3, D1, D2, D3.
  - rewrite base64url_3.
    destruct (sextets a b c) as (H1 & _ & H2 & _ & H3 & H4).
    destruct (urlChar_sextet _ H1) as (L1 & S1 & D1).
    destruct (urlChar_sextet _ H2) as (L2 & S2 & D2).
    destruct (urlChar_sextet _ H3) as (L3 & S3 & D3).
    destruct (urlChar_sextet _ H4) as (L4 & S4 & D4).
    rewrite !append_length, !allChars_app, !countChar_app,
      L1, L2, L3, L4, S1, S2, S3, S4, D1, D2, D3, D4, IHlen, IHsafe, IHdots.
    split_and!; try done. simpl String.length.
    replace (4 * S (S (S (String.length rest))) + 2)
      with ((4 * String.length rest + 2) + 4 * 3) by lia.
    rewrite Nat.div_add by done. lia.
Qed.

Lemma prefix_append (s t : string) : String.prefix s (s +:+ t) = true.
Proof.
  induction s as [|x s IH]; [by destruct t|].
  rewrite append_cons. simpl. by destruct (ascii_dec x x).
Qed.

End base64.

(** X18.  [base64url] encodes [n] bytes as [ceil(4n/3)] characters, each
    of them a letter, a digit, [-] or [_]: the padding and the two
    characters of Base64 that are not URL-safe never come out of it. *)
Theorem base64url_is_url_safe data :
  allChars urlSafe (base64url data) = true ∧
  String.length (base64url data) = (4 * String.length data + 2) / 3.
Proof. by destruct (base64url_shape data) as (? & ? & _). Qed.

(** X19.  Whatever the claims and the signature, the token made by
    [createJWT] has exactly three segments separated by two dots, each
    segment URL-safe, and it starts with the encoding of the fixed header
    [{alg: RS256, typ: JWT}]. *)
Theorem jwt_has_three_segments claimsJson signRS256 :
  countChar "." (createJWT claimsJson signRS256) = 2 ∧
  String.prefix "eyJhbGciOiJSUzI1NiIsInR5cCI6IkpXVCJ9."
                (createJWT claimsJson signRS256) = true ∧
  createJWT claimsJson signRS256 =
    base64url headerJson +:+ "." +:+ base64url claimsJson +:+ "." +:+
    base64url (signRS256
      (base64url headerJson +:+ "." +:+ base64url claimsJson)).
Proof.
  unfold createJWT. split_and!.
  - rewrite !countChar_app.
    destruct (base64url_shape headerJson) as (_ & _ & ->).
    destruct (base64url_shape claimsJson) as (_ & _ & ->).
    by destruct (base64url_shape (signRS256
      (base64url headerJson +:+ "." +:+ base64url claimsJson)))
      as (_ & _ & ->).
  - change (base64url headerJson) with "eyJhbGciOiJSUzI1NiIsInR5cCI6IkpXVCJ9".
    rewrite !append_assoc.
    apply (prefix_append "eyJhbGciOiJSUzI1NiIsInR5cCI6IkpXVCJ9.").
  - by rewrite !append_assoc.
Qed.

Section base64_injective.

(** The character of a 6-bit value, after the replacements. *)
Lemma urlChar_single n :
  n < 64 → ∃ c, urlChar (base64Char n) = String c "".
Proof.
  intros Hn. do 64 (destruct n as [|n]; [by eexists|]). lia.
Qed.

Lemma urlChar_inj n m :
  n < 64 → m < 64 →
  urlChar (base64Char n) = urlChar (base64Char m) → n = m.
Proof.
  intros Hn Hm Heq.
  assert (forallb (λ i, forallb (λ j,
      implb (String.eqb (urlChar (base64Char i)) (urlChar (base64Char j)))
            (i =? j)) (seq 0 64)) (seq 0 64) = true) as Hall
    by (by vm_compute).
  rewrite forallb_forall in Hall.
  specialize (Hall n). rewrite forallb_forall in Hall.
  assert (implb (String.eqb (urlChar (base64Char n)) (urlChar (base64Char m)))
                (n =? m) = true) as Himp.
  { apply Hall; apply in_seq; lia. }
  rewrite Heq, String.eqb_refl in Himp. by apply Nat.eqb_eq.
Qed.

Lemma urlChar_app_inj n m s t :
  n < 64 → m < 64 →
  urlChar (base64Char n) +:+ s = urlChar (base64Char m) +:+ t →
  n = m ∧ s = t.
Proof.
  intros Hn Hm.
  destruct (urlChar_single n Hn) as [c Hc].
  destruct (urlChar_single m Hm) as [d Hd].
  rewrite Hc, Hd. change (String c s = String d t → n = m ∧ s = t).
  intros [= -> ->]. split; [|done].
  apply urlChar_inj; congruence.
Qed.

Lemma nat_of_ascii_inj a b : nat_of_ascii a = nat_of_ascii b → a = b.
Proof.
  intros H. by rewrite <-(ascii_nat_embedding a), <-(ascii_nat_embedding b), H.
Qed.

(** The bytes are read back from the 6-bit values. *)
Lemma sextets_inj a b c a' b' c' :
  a < 256 → b < 256 → c < 256 → a' < 256 → b' < 256 → c' < 256 →
  a / 4 = a' / 4 →
  a mod 4 * 16 + b / 16 = a' mod 4 * 16 + b' / 16 →
  b mod 16 * 4 + c / 64 = b' mod 16 * 4 + c' / 64 →
  c mod 64 = c' mod 64 →
  a = a' ∧ b = b' ∧ c = c'.
Proof.
  intros.
  pose proof (Nat.div_mod_eq a 4). pose proof (Nat.div_mod_eq a' 4).
  pose proof (Nat.div_mod_eq b 16). pose proof (Nat.div_mod_eq b' 16).
  pose proof (Nat.div_mod_eq c 64). pose proof (Nat.div_mod_eq c' 64).
  pose proof (Nat.mod_upper_bound a 4). pose proof (Nat.mod_upper_bound a' 4).
  pose proof (Nat.mod_upper_bound b 16).
  pose proof (Nat.mod_upper_bound b' 16).
  pose proof (Nat.mod_upper_bound c 64).
  pose proof (Nat.mod_upper_bound c' 64).
  assert (b / 16 < 16) by (apply Nat.Div0.div_lt_upper_bound; lia).
  assert (b' / 16 < 16) by (apply Nat.Div0.div_lt_upper_bound; lia).
  assert (c / 64 < 4) by (apply Nat.Div0.div_lt_upper_bound; lia).
  assert (c' / 64 < 4) by (apply Nat.Div0.div_lt_upper_bound; lia).
  lia.
Qed.

Lemma base64url_inj_length data : ∀ data',
  String.length data = String.length data' →
  base64url data = base64url data' → data = data'.
Proof.
  induction data as [|a|a b|a b c rest IH] using string_ind3;
    intros data' Hlen.
  - by destruct data'.
  - destruct data' as [|a' [|? ?]]; try done.
    rewrite !base64url_1.
    destruct (sextets a a a) as (H1 & H2 & _).
    destruct (sextets a' a' a') as (H1' & H2' & _).
    intros [E1 E2%urlChar_inj]%urlChar_app_inj; try done.
    destruct (sextets_inj (nat_of_ascii a) 0 0 (nat_of_ascii a') 0 0)
      as (Ha & _); try done; try lia;
      try apply nat_ascii_bounded.
    by apply nat_of_ascii_inj in Ha as ->.
  - destruct data' as [|a' [|b' [|? ?]]]; try done.
    rewrite !base64url_2.
    destruct (sextets a b b) as (H1 & _ & H2 & H3 & _).
    destruct (sextets a' b' b') as (H1' & _ & H2' & H3' & _).
    intros [E1 [E2 E3%urlChar_inj]%urlChar_app_inj]%urlChar_app_inj;
      try done.
    destruct (sextets_inj (nat_of_ascii a) (nat_of_ascii b) 0
                          (nat_of_ascii a') (nat_of_ascii b') 0)
      as (Ha & Hb & _); try done; try lia;
      try apply nat_ascii_bounded.
    apply nat_of_ascii_inj in Ha as ->.
    by apply nat_of_ascii_inj in Hb as ->.
  - destruct data' as [|a' [|b' [|c' rest']]]; try done.
    rewrite !base64url_3.
    destruct (sextets a b c) as (H1 & _ & H2 & _ & H3 & H4).
    destruct (sextets a' b' c') as (H1' & _ & H2' & _ & H3' & H4').
    intros [E1 [E2 [E3 [E4 Erest]%urlChar_app_inj]%urlChar_app_inj]
      %urlChar_app_inj]%urlChar_app_inj; try done.
    destruct (sextets_inj (nat_of_ascii a) (nat_of_ascii b) (nat_of_ascii c)
                (nat_of_ascii a') (nat_of_ascii b') (nat_of_ascii c'))
      as (Ha & Hb & Hc); try done; try apply nat_ascii_bounded.
    apply nat_of_ascii_inj in Ha as ->.
    apply nat_of_ascii_inj in Hb as ->.
    apply nat_of_ascii_inj in Hc as ->.
    f_equal. f_equal. f_equal. apply IH; [|done].
    simpl in Hlen. lia.
Qed.

End base64_injective.

Lemma base64url_inj data data' :
  base64url data = base64url data' → data = data'.
Proof.
  intros Heq. apply base64url_inj_length; [|done].
  destruct (base64url_shape data) as (Hlen & _).
  destruct (base64url_shape data') as (Hlen' & _).
  rewrite Heq, Hlen' in Hlen.
  pose proof (Nat.div_mod_eq (4 * String.length data + 2) 3).
  pose proof (Nat.div_mod_eq (4 * String.length data' + 2) 3).
  pose proof (Nat.mod_upper_bound (4 * String.length data + 2) 3).
  pose proof (Nat.mod_upper_bound (4 * String.length data' + 2) 3).
  lia.
Qed.

(** X20.  [base64url] loses nothing, although it strips the padding: two
    different byte strings never have the same encoding.  So two tokens
    with the same signing input were made from the same claims. *)
Theorem base64url_injective data data' :
  data ≠ data' → base64url data ≠ base64url data'.
Proof. intros Hne Heq. by apply Hne, base64url_inj. Qed.

Lemma base64url_injective_witness :
  base64url "Ma" = "TWE" ∧ base64url "Mb" = "TWI" ∧
  base64url "Ma" ≠ base64url "Mb".
Proof.
  split; [by vm_compute|]. split; [by vm_compute|].
  by apply (base64url_injective "Ma" "Mb").
Defined.

(** ** The order of a fetch *)

Section request_order.
Context (e : Env).

Lemma api_listing_sorted options :
  StronglySorted (requestOrder options) (api_listing e options).
Proof.
  unfold api_listing, requestOrder. destruct (asc options).
  - apply (StronglySorted_merge_sort log_le).
  - apply (StronglySorted_merge_sort log_ge).
Qed.

End request_order.

(** X21.  What [fetchLogs] returns is in the order of the request, and
    the page budget only cuts at the end: every matching source record
    that is not returned comes, in that order, after every record that is.
    When the matching records fit in the budget, all of them are
    returned. *)
Theorem fetchLogs_returns_first_in_order e options w w' logs :
  fetchLogs e options w = (w', Ok logs) →
  StronglySorted (requestOrder options) logs ∧
  (∀ b r, b ∈ logs → r ∈ source e → api_matches options r → r ∉ logs →
     requestOrder options b r) ∧
  (length (filter (λ r, api_matches options r) (source e))
     ≤ maxPages options * LOGS_PER_PAGE e →
   logs ≡ₚ filter (λ r, api_matches options r) (source e)).
Proof.
  intros [-> ->]%fetchLogs_ok_prefix.
  pose proof (api_listing_sorted e options) as Hsorted.
  set (n := maxPages options * LOGS_PER_PAGE e) in *.
  rewrite <-(take_drop n (api_listing e options)) in Hsorted.
  split_and!.
  - by eapply StronglySorted_app_1_l.
  - intros b r Hb Hr Hm Hout.
    eapply StronglySorted_app_1_elem_of; [done..|].
    assert (r ∈ api_listing e options) as Hin
      by (by apply api_listing_elem_of).
    rewrite <-(take_drop n (api_listing e options)) in Hin.
    by apply elem_of_app in Hin as [?|?].
  - intros Hfit. rewrite take_ge; [apply api_listing_Permutation|].
    by rewrite api_listing_Permutation.
Qed.

Lemma fetchLogs_returns_first_in_order_witness :
  let e := Sample.smallPages [Sample.A; Sample.B; Sample.C; Sample.D] in
  let options := mkOptions OpLt Sample.t30 None false 2 in
  (fetchLogs e options Sample.fresh).2 = Ok [Sample.C; Sample.B] ∧
  requestOrder options Sample.B Sample.A.
Proof.
  split; [by vm_compute|].
  destruct (fetchLogs_returns_first_in_order
    (Sample.smallPages [Sample.A; Sample.B; Sample.C; Sample.D])
    (mkOptions OpLt Sample.t30 None false 2) Sample.fresh Sample.fresh
    [Sample.C; Sample.B]) as (_ & Hcut & _); [by vm_compute|].
  apply Hcut; try done; apply (bool_decide_unpack _); by vm_compute.
Defined.

(** ** Backfill only goes back *)

Section backfill_older.
Context (es : nat → Env) (w0 : World).

Lemma str_lt_le a b : str_lt a b → str_le a b.
Proof. unfold str_lt, str_le. by destruct (localeCompare a b). Qed.

Lemma backfill_older_steps n : ∀ start w evs,
  effects w = effects w0 ++ evs →
  (∀ r, r ∈ posted evs → str_lt (created_at r) (oldestOf w0)) →
  str_le (oldestOf w) (oldestOf w0) →
  ∃ evs', effects (backfillFrom es start n w) = effects w0 ++ evs' ∧
    (∀ r, r ∈ posted evs' → str_lt (created_at r) (oldestOf w0)) ∧
    str_le (oldestOf (backfillFrom es start n w)) (oldestOf w0).
Proof.
  induction n as [|n IH]; intros start w evs He Hposted Hmarker.
  { by exists evs. }
  cbn [backfillFrom].
  destruct (runBackfill_shape (es start) w)
    as ((batch & (_ & _ & _ & posts & tail & He1 & Hposts & Htail) & Hbatch)
        & _ & _ & Hold).
  apply (IH _ _ (evs ++ (markEffect (es start) <$> written (es start) batch)
                     ++ posts ++ tail)).
  - by rewrite He1, He, <-app_assoc.
  - intros r. rewrite !posted_app. unfold posted at 2 4.
    rewrite sinkWrites_marks, Htail. simpl. rewrite app_nil_r.
    intros [?|Hr]%elem_of_app; [by apply Hposted|].
    destruct Hposts as [->| ->]; [by apply elem_of_nil in Hr|].
    unfold posted in Hr. simpl in Hr. rewrite app_nil_r in Hr.
    destruct (Hbatch r Hr) as [_ Hlt].
    by eapply str_lt_le_trans.
  - unfold oldestOf in *.
    destruct Hold as [->|[->|(r & _ & Hlt & ->)]]; [done|apply str_le_empty|].
    simpl. apply str_lt_le. by eapply str_lt_le_trans.
Qed.

End backfill_older.

(** X22.  Backfill only goes back.  However many backfill cycles run, and
    whatever fails in them, every record they post is strictly older than
    the marker the run started from, and the marker never ends later than
    it started.  A record that carries exactly the timestamp of the marker
    is therefore never fetched by a later backfill cycle. *)
Theorem backfill_posts_only_older_records es start n w :
  let w' := backfillFrom es start n w in
  (∀ r, r ∈ posted (newEffects w w') →
     str_lt (created_at r) (oldestOf w)) ∧
  str_le (oldestOf w') (oldestOf w).
Proof.
  simpl. unfold newEffects.
  destruct (backfill_older_steps es w n start w []) as (evs & He & Hposted & ?).
  { by rewrite app_nil_r. }
  { by intros r ?%elem_of_nil. }
  { apply str_le_refl. }
  by rewrite He, drop_app_length.
Qed.

(** ** A forward cycle that succeeded leaves nothing to do *)

Section accepted_batches.
Context (isMarked : string → bool).

(** A batch whose ids are all empty or marked is rejected as a whole. *)
Lemma accepted_nil batch : ∀ earlier,
  (∀ r, r ∈ batch → truthy (id r) → isMarked (id r) = true) →
  accepted isMarked earlier batch = [].
Proof.
  induction batch as [|r rest IH]; intros earlier Hall; [done|].
  cbn [accepted]. rewrite IH by (intros; apply Hall; [by right|done]).
  destruct (truthy (id r)) eqn:Hid; [|done].
  rewrite (Hall r) by (by left || by rewrite Hid).
  by rewrite andb_false_r.
Qed.

(** Every id of the batch that is not empty, not marked and not met
    earlier is the id of an accepted record. *)
Lemma accepted_covers batch : ∀ earlier r,
  r ∈ batch → truthy (id r) → isMarked (id r) = false → id r ∉ earlier →
  id r ∈ id <$> accepted isMarked earlier batch.
Proof.
  induction batch as [|x rest IH]; intros earlier r Hr Hid Hm Hearlier.
  { by apply elem_of_nil in Hr. }
  cbn [accepted]. rewrite fmap_app, elem_of_app.
  destruct (decide (id x = id r)) as [Heq|Hne].
  - left. rewrite Heq, Hm. rewrite bool_decide_false by done.
    destruct (truthy (id r)); [|done]. simpl. rewrite Heq. by left.
  - right. apply elem_of_cons in Hr as [->|Hr]; [done|].
    apply IH; try done.
    rewrite elem_of_app, list_elem_of_singleton. intros [?|?]; auto.
Qed.

End accepted_batches.

Section forward_twice.
Context (e : Env) (Hserves : serves e) (Hfaultless : faultless e).
Context (Hsink : sinkAccepts e) (Httl : (0 < DEDUP_TTL_DAYS e)%N).

(** After the filter has marked what it accepted, every non-empty id of
    the batch is marked. *)
Lemma batch_marked kv batch r :
  r ∈ batch → truthy (id r) →
  marked (now e)
    (withMarks e kv (accepted (marked (now e) kv) [] batch)) (id r) = true.
Proof.
  intros Hr Hid.
  set (out := accepted (marked (now e) kv) [] batch).
  assert ((now e < now e + ttlSeconds e)%N) as Hlive
    by (unfold ttlSeconds; lia).
  destruct (decide (id r ∈ id <$> out)) as [(x & Heq & Hx)%list_elem_of_fmap|Hout].
  - apply (marked_live _ _ _ "1" (now e + ttlSeconds e)%N); [|done..].
    rewrite Heq. apply withMarks_lookup. by left.
  - destruct (marked (now e) kv (id r)) eqn:Hm.
    + unfold marked in *. by rewrite withMarks_lookup_other.
    + destruct Hout. apply accepted_covers; try done. by intros ?%elem_of_nil.
Qed.

Lemma forwardListing_elem_of st r :
  r ∈ forwardListing e st →
  r ∈ source e ∧
  after_cursor (from_option cur_ts (nowMinus10m e) (forward st))
               (from_option cur_id "" (forward st)) r.
Proof.
  unfold forwardListing. rewrite after_cursor_split.
  intros [Hr|Hr]%elem_of_app;
    (eapply elem_of_sublist in Hr; [|apply sublist_take]);
    apply api_listing_elem_of in Hr as [Hm ?]; split; try done.
  - rewrite phase1_matches in Hm. by destruct (same_ts_after _ _ r).
  - rewrite phase2_matches in Hm. destruct (newer _ r); [|done].
    by rewrite orb_true_r.
Qed.

Lemma forwardListing_complete st r :
  let lastTs := from_option cur_ts (nowMinus10m e) (forward st) in
  let lastId := from_option cur_id "" (forward st) in
  length (filter (λ r, same_ts_after lastTs lastId r) (source e))
    ≤ 5 * LOGS_PER_PAGE e →
  length (filter (λ r, newer lastTs r) (source e))
    ≤ FORWARD_MAX_PAGES e * LOGS_PER_PAGE e →
  r ∈ source e → after_cursor lastTs lastId r →
  r ∈ forwardListing e st.
Proof.
  intros lastTs lastId H1 H2 Hr Hafter. unfold forwardListing.
  fold lastTs lastId.
  set (o1 := mkOptions OpEq lastTs (Some (KindGt, lastId)) true 5).
  set (o2 := mkOptions OpGt lastTs None true (FORWARD_MAX_PAGES e)).
  assert (api_listing e o1 ≡ₚ
          filter (λ r, same_ts_after lastTs lastId r) (source e)) as HP1.
  { rewrite api_listing_Permutation. apply reflexive_eq, list_filter_iff.
    intros x. unfold o1. by rewrite phase1_matches. }
  assert (api_listing e o2 ≡ₚ filter (λ r, newer lastTs r) (source e)) as HP2.
  { rewrite api_listing_Permutation. apply reflexive_eq, list_filter_iff.
    intros x. unfold o2. by rewrite phase2_matches. }
  rewrite !take_ge by (by rewrite ?HP1, ?HP2).
  rewrite elem_of_app, HP1, HP2, !list_elem_of_filter.
  rewrite after_cursor_split in Hafter.
  apply orb_True in Hafter as [?|?]; auto.
Qed.

(** What a cycle accepted and committed, the next one finds marked. *)
Lemma forwardResult_after_commit st kv :
  let lastTs := from_option cur_ts (nowMinus10m e) (forward st) in
  let lastId := from_option cur_id "" (forward st) in
  length (filter (λ r, same_ts_after lastTs lastId r) (source e))
    ≤ 5 * LOGS_PER_PAGE e →
  length (filter (λ r, newer lastTs r) (source e))
    ≤ FORWARD_MAX_PAGES e * LOGS_PER_PAGE e →
  let toSend := forwardResult e st kv in
  forwardResult e (committed toSend st) (withMarks e kv toSend) = [].
Proof.
  intros lastTs lastId H1 H2 toSend.
  destruct toSend as [|first rest] eqn:Hsend; [done|].
  rewrite <-Hsend. unfold forwardResult at 1. apply accepted_nil.
  intros r Hr Hid.
  assert (List.last toSend first ∈ toSend) as Hlast
    by (rewrite Hsend; apply last_elem_of).
  apply forwardListing_elem_of in Hr as [Hsrc Hafter].
  assert (forward (committed toSend st) =
          Some (cursorOf (List.last toSend first))) as Hfwd
    by (by rewrite Hsend).
  rewrite Hfwd in Hafter. simpl in Hafter.
  unfold toSend, forwardResult in Hlast.
  apply accepted_elem_of in Hlast as (Hlast & _).
  apply forwardListing_elem_of in Hlast as [_ Hlast].
  fold lastTs lastId in Hlast. fold (forwardResult e st kv) in *.
  fold toSend in Hlast, Hafter.
  apply batch_marked; [|done].
  apply forwardListing_complete; try done. fold lastTs lastId.
  change (Is_true (cursor_lt (mkCursor lastTs lastId) (cursorOf r))).
  change (Is_true (cursor_lt (mkCursor lastTs lastId)
                     (cursorOf (List.last toSend first)))) in Hlast.
  change (Is_true (cursor_lt (cursorOf (List.last toSend first))
                     (cursorOf r))) in Hafter.
  by etrans.
Qed.

End forward_twice.

(** X23.  A forward cycle in which nothing fails, and whose page budgets
    cover the records after the cursor, leaves nothing to do: run again
    at once on the same source, the cycle returns without error and
    writes nothing, provided the markers are kept for some time
    ([DEDUP_TTL_DAYS] is not 0). *)
Theorem forward_twice_is_noop e w :
  serves e → faultless e → sinkAccepts e →
  (0 < DEDUP_TTL_DAYS e)%N →
  length (filter (λ r, same_ts_after (lastTsOf e w) (lastIdOf w) r) (source e))
    ≤ 5 * LOGS_PER_PAGE e →
  length (filter (λ r, newer (lastTsOf e w) r) (source e))
    ≤ FORWARD_MAX_PAGES e * LOGS_PER_PAGE e →
  let w1 := (runForward e w).1 in
  (runForward e w).2 = Ok () ∧
  (runForward e w1).2 = Ok () ∧
  quietly w1 (runForward e w1).1.
Proof.
  intros Hserves Hfaultless Hsink Httl H1 H2. simpl.
  destruct (runForward_quiet e Hserves Hfaultless w Hsink)
    as (w1 & -> & Hs1 & Hi1). simpl.
  split; [done|].
  destruct (forwardBatch_quiet e Hserves Hfaultless w1) as (w2 & Hbatch & _).
  rewrite Hs1, Hi1 in Hbatch.
  rewrite (forwardResult_after_commit e Httl) in Hbatch by done.
  apply runForward_idle in Hbatch as [-> Hq]. done.
Qed.

Lemma forward_twice_is_noop_witness :
  let e := Sample.env [Sample.A; Sample.B; Sample.C] in
  let w1 := (runForward e Sample.atA).1 in
  sinkWrites (effects w1) = [[Sample.B; Sample.C]] ∧
  (runForward e w1).2 = Ok () ∧
  quietly w1 (runForward e w1).1.
Proof.
  split; [by vm_compute|].
  destruct (forward_twice_is_noop
    (Sample.env [Sample.A; Sample.B; Sample.C]) Sample.atA)
    as (_ & Hok & Hq); try done; vm_compute; lia.
Defined.

(** ** The maintenance functions of the dedup filter *)

Section list_facts.
Context {A : Type}.

Lemma filter_none (P : A → Prop) `{∀ x, Decision (P x)} (l : list A) :
  (∀ x, x ∈ l → ¬ P x) → filter P l = [].
Proof.
  induction l as [|x l IH]; intros Hall; [done|].
  rewrite filter_cons_False by (apply Hall; by left).
  apply IH. intros y Hy. apply Hall. by right.
Qed.

Lemma filter_all (P : A → Prop) `{∀ x, Decision (P x)} (l : list A) :
  (∀ x, x ∈ l → P x) → filter P l = l.
Proof.
  induction l as [|x l IH]; intros Hall; [done|].
  rewrite filter_cons_True by (apply Hall; by left).
  f_equal. apply IH. intros y Hy. apply Hall. by right.
Qed.

(** A list cut after [n] elements, around the last element of the cut. *)
Lemma take_last_split (l : list A) n :
  0 < n → n < length l →
  ∃ c, last (take n l) = Some c ∧ l = take (n - 1) l ++ c :: drop n l.
Proof.
  intros Hn Hlen. destruct n as [|m]; [lia|].
  destruct (lookup_lt_is_Some_2 l m) as [c Hc]; [lia|].
  exists c. rewrite (take_S_r _ _ _ Hc), last_snoc. split; [done|].
  replace (S m - 1) with m by lia.
  by rewrite <-(drop_S _ _ _ Hc), take_drop.
Qed.

End list_facts.

Section names.
Context (t : N) (prefix : string).

Lemma liveNames_elem_of store name :
  name ∈ liveNames t store prefix ↔
  String.prefix prefix name = true ∧ is_Some (store !! name ≫= live t).
Proof.
  unfold liveNames.
  rewrite merge_sort_Permutation, list_elem_of_filter, elem_of_elements.
  split; [by intros [? _]|]. intros [? Hlive]. split; [done|].
  apply elem_of_dom. destruct (store !! name); [done|].
  by destruct Hlive as [? [=]].
Qed.

Lemma liveNames_NoDup store : NoDup (liveNames t store prefix).
Proof.
  unfold liveNames. rewrite merge_sort_Permutation.
  apply NoDup_filter, NoDup_elements.
Qed.

Lemma liveNames_sorted store :
  StronglySorted String.le (liveNames t store prefix).
Proof. apply (StronglySorted_merge_sort String.le). Qed.

(** In a listing, what comes after a name is not below it. *)
Lemma names_after (l1 l2 : list string) c x :
  StronglySorted String.le (l1 ++ c :: l2) → NoDup (l1 ++ c :: l2) →
  x ∈ l2 → ¬ String.le x c.
Proof.
  intros Hsorted Hnodup Hx Hle.
  apply StronglySorted_app_1_r, StronglySorted_cons in Hsorted as [Hc _].
  rewrite Forall_forall in Hc.
  apply NoDup_app in Hnodup as (_ & _ & [Hnotin _]%NoDup_cons).
  assert (x = c) as -> by (apply (anti_symm String.le); auto).
  done.
Qed.

Lemma filter_after_split (l1 l2 : list string) c :
  StronglySorted String.le (l1 ++ c :: l2) → NoDup (l1 ++ c :: l2) →
  filter (λ name, ¬ String.le name c) (l1 ++ c :: l2) = l2.
Proof.
  intros Hsorted Hnodup. rewrite filter_app, filter_cons_False.
  - rewrite filter_none, filter_all; [done| |].
    + intros x Hx. by eapply names_after.
    + intros x Hx Hnot. apply Hnot.
      eapply StronglySorted_app_1_elem_of; [done..|by left].
  - intros Hnot. by apply Hnot.
Qed.

(** The names that remain after some were deleted. *)
Lemma liveNames_delete (store store' : gmap string (string * N)) (page : list string) :
  (∀ key, store' !! key = if decide (key ∈ page) then None else store !! key) →
  liveNames t store' prefix =
    filter (λ name, name ∉ page) (liveNames t store prefix).
Proof.
  intros Hstore'. apply (StronglySorted_unique String.le).
  - apply liveNames_sorted.
  - eapply StronglySorted_sublist; [apply sublist_filter|].
    apply liveNames_sorted.
  - apply NoDup_Permutation.
    + apply liveNames_NoDup.
    + apply NoDup_filter, liveNames_NoDup.
    + intros x. rewrite list_elem_of_filter, !liveNames_elem_of, Hstore'.
      case_decide; [|tauto].
      split; [by intros [_ []]|tauto].
Qed.

Lemma filter_notin_take (l : list string) n :
  NoDup l → filter (λ x, x ∉ take n l) l = drop n l.
Proof.
  intros Hnodup. rewrite <-(take_drop n l) in Hnodup.
  apply NoDup_app in Hnodup as (_ & Hdisj & _).
  set (P := λ x, x ∉ take n l).
  rewrite <-(take_drop n l) at 1. rewrite filter_app.
  rewrite filter_none, filter_all; [done| |]; unfold P.
  - intros x Hx Hin. by eapply Hdisj.
  - intros x Hx Hnot. done.
Qed.

End names.

Section listing_pages.
Context (t : N) (store : gmap string (string * N)).

Lemma prefix_truthy name : String.prefix "id:" name = true → truthy name.
Proof. by destruct name. Qed.

Lemma prefix_kvKey name :
  String.prefix "id:" name = true → name = kvKey (dropChars 3 name).
Proof.
  intros Hp. apply prefix_correct in Hp. simpl in Hp.
  destruct name as [|a [|b [|c rest]]]; try done.
  by injection Hp as -> -> ->.
Qed.

Lemma replaceFirst_prefix name :
  String.prefix "id:" name = true →
  replaceFirst "id:" "" name = dropChars 3 name.
Proof. intros Hp. destruct name; [done|]. simpl in *. by rewrite Hp. Qed.

Lemma kvList_keys_elem_of limit cur name :
  name ∈ keys (kvList t store "id:" limit cur) →
  name ∈ liveNames t store "id:".
Proof.
  unfold kvList. simpl. intros Hin.
  eapply elem_of_sublist in Hin; [|apply sublist_take].
  destruct cur; [|done]. by apply list_elem_of_filter in Hin as [_ ?].
Qed.

(** One call of [list], when the names still to list are [rest]. *)
Lemma kvList_page limit cur done rest :
  liveNames t store "id:" = done ++ rest →
  match cur with
  | None => liveNames t store "id:"
  | Some c => filter (λ name, ¬ String.le name c) (liveNames t store "id:")
  end = rest →
  0 < limit →
  keys (kvList t store "id:" limit cur) = take limit rest ∧
  if decide (limit < length rest) then
    ∃ c, cursor (kvList t store "id:" limit cur) = Some c ∧ truthy c ∧
      filter (λ name, ¬ String.le name c) (liveNames t store "id:") =
        drop limit rest ∧
      ∀ x, x ∈ drop limit rest → ¬ String.le x c
  else cursor (kvList t store "id:" limit cur) = None.
Proof.
  intros Hnames Hrest Hlimit. unfold kvList. rewrite Hrest. simpl.
  split; [done|]. case_decide as Hmore; [|done].
  destruct (take_last_split rest limit) as (c & -> & Hsplit); [done..|].
  exists c.
  pose proof (liveNames_sorted t "id:" store) as Hsorted.
  pose proof (liveNames_NoDup t "id:" store) as Hnodup.
  rewrite Hnames, Hsplit, app_assoc in Hsorted, Hnodup.
  assert (c ∈ liveNames t store "id:") as Hc.
  { rewrite Hnames, Hsplit. set_solver. }
  apply liveNames_elem_of in Hc as [Hc _].
  split_and!; [done|by apply prefix_truthy| |].
  - rewrite Hnames. rewrite Hsplit at 1. rewrite app_assoc.
    by apply filter_after_split.
  - intros x Hx. by eapply names_after.
Qed.

End listing_pages.

Section stats.
Context (e : Env) (rejects : KvCall → bool) (store : gmap string (string * N)).
Context (Hlist : ∀ cur, rejects (KvList cur) = false).

Lemma collectSamples_full samples names :
  10 ≤ length samples → collectSamples samples names = samples.
Proof.
  intros Hfull. destruct names; [done|]. simpl. by rewrite decide_True.
Qed.

Lemma collectSamples_app names1 : ∀ samples names2,
  collectSamples samples (names1 ++ names2) =
    collectSamples (collectSamples samples names1) names2.
Proof.
  induction names1 as [|name names1 IH]; intros samples names2; [done|].
  simpl. case_decide; [by rewrite collectSamples_full|apply IH].
Qed.

Lemma collectSamples_take names : ∀ samples,
  length samples ≤ 10 →
  collectSamples samples names =
    samples ++ take (10 - length samples) (replaceFirst "id:" "" <$> names).
Proof.
  induction names as [|name names IH]; intros samples Hlen; simpl.
  { by rewrite take_nil, app_nil_r. }
  case_decide as Hfull.
  - replace (10 - length samples) with 0 by lia. by rewrite app_nil_r.
  - rewrite IH by (rewrite length_app; simpl; lia).
    rewrite length_app, <-app_assoc. simpl.
    replace (10 - length samples) with (S (10 - (length samples + 1))) by lia.
    done.
Qed.

(** The loop goes through the names that are still to list. *)
Lemma statsLoop_returns fuel : ∀ cur total samples done rest,
  liveNames (now e) store "id:" = done ++ rest →
  match cur with
  | None => liveNames (now e) store "id:"
  | Some c =>
      filter (λ name, ¬ String.le name c) (liveNames (now e) store "id:")
  end = rest →
  length rest ≤ listLimit * fuel → 0 < fuel →
  statsLoop e rejects fuel cur total samples store =
    Returned (mkStats (total + length rest) (collectSamples samples rest)).
Proof.
  induction fuel as [|fuel IH]; intros cur total samples done rest
    Hnames Hrest Hlen Hfuel; [lia|].
  cbn [statsLoop]. rewrite Hlist.
  assert (0 < listLimit) as Hlimit by (unfold listLimit; lia).
  destruct (kvList_page (now e) store listLimit cur done rest Hnames Hrest
              Hlimit) as [-> Hcursor].
  assert ((if decide (length samples < 10)
           then collectSamples samples (take listLimit rest) else samples)
          = collectSamples samples (take listLimit rest)) as ->.
  { destruct (decide (length samples < 10)); [done|].
    rewrite collectSamples_full; [done|lia]. }
  destruct (decide (listLimit < length rest)) as [Hmore|Hmore].
  - destruct Hcursor as (c & -> & Hc & Hnext & _). simpl.
    destruct (truthy c); [|done].
    rewrite (IH _ _ _ (done ++ take listLimit rest) (drop listLimit rest)).
    + rewrite length_take, length_drop.
      rewrite <-collectSamples_app, take_drop.
      do 2 f_equal. lia.
    + by rewrite <-app_assoc, take_drop.
    + done.
    + rewrite length_drop. lia.
    + destruct fuel; [|lia]. lia.
  - rewrite Hcursor. simpl. by rewrite take_ge by lia.
Qed.

End stats.

(** X24.  When no call of [list] is rejected, [getDedupStats] returns
    after at most one iteration per [1000] live markers (and one for an
    empty store), with the number of ids whose marker is stored and has
    not expired and, as samples, the first ten of these ids in the order
    of their keys, each without the [id:] of its key. *)
Theorem getDedupStats_counts e rejects fuel store :
  (∀ cur, rejects (KvList cur) = false) →
  length (liveIds (now e) store) ≤ listLimit * fuel → 0 < fuel →
  getDedupStats e rejects fuel store =
    Returned (mkStats (length (liveIds (now e) store))
                      (take 10 (liveIds (now e) store))) ∧
  (∀ i, i ∈ liveIds (now e) store ↔
        is_Some (store !! kvKey i ≫= live (now e))).
Proof.
  intros Hlist Hlen Hfuel. unfold liveIds in *. rewrite length_fmap in *.
  split.
  - unfold getDedupStats.
    rewrite (statsLoop_returns e rejects store Hlist fuel None 0 []
               [] (liveNames (now e) store "id:")) by done.
    rewrite collectSamples_take by (simpl; lia). simpl.
    do 3 f_equal. apply list_fmap_ext. intros j name Hname.
    apply list_elem_of_lookup_2, liveNames_elem_of in Hname as [Hp _].
    by apply replaceFirst_prefix.
  - intros i. rewrite list_elem_of_fmap. split.
    + intros (name & -> & [Hp Hlive]%liveNames_elem_of).
      by rewrite <-prefix_kvKey.
    + intros Hlive. exists (kvKey i). split; [done|].
      apply liveNames_elem_of. split; [apply (prefix_append "id:")|done].
Qed.

Lemma getDedupStats_counts_witness :
  getDedupStats (Sample.env []) (λ _, false) 1 Markers.store =
    Returned (mkStats 2 ["1"; "10"]).
Proof.
  destruct (getDedupStats_counts (Sample.env []) (λ _, false) 1
    Markers.store) as [Hstats _]; [done|vm_compute; lia|lia|].
  rewrite Hstats. by vm_compute.
Defined.

Section clearing.
Context (e : Env) (rejects : KvCall → bool).

(** Whatever is rejected, [deleteAll] only removes listed keys. *)
Lemma deleteAll_frame names : ∀ store key,
  (deleteAll rejects names store).1 !! key = store !! key ∨
  (deleteAll rejects names store).1 !! key = None ∧ key ∈ names.
Proof.
  induction names as [|name names IH]; intros store key; [by left|].
  cbn [deleteAll]. destruct (rejects (KvDelete name)); simpl.
  - destruct (IH store key) as [?|[? ?]]; [by left|right].
    split; [done|by right].
  - destruct (IH (delete name store) key) as [->|[? ?]].
    + destruct (decide (key = name)) as [->|Hne].
      * right. rewrite lookup_delete_eq. split; [done|by left].
      * left. by rewrite lookup_delete_ne.
    + right. split; [done|by right].
Qed.

(** Without a rejection it removes all of them. *)
Lemma deleteAll_returns names : ∀ store,
  (∀ key, rejects (KvDelete key) = false) →
  ∃ store', deleteAll rejects names store = (store', None) ∧
    ∀ key, store' !! key =
      if decide (key ∈ names) then None else store !! key.
Proof.
  induction names as [|name names IH]; intros store Hdel.
  { exists store. split; [done|]. intros key.
    by rewrite decide_False by apply not_elem_of_nil. }
  cbn [deleteAll]. rewrite Hdel.
  destruct (IH (delete name store) Hdel) as (store' & -> & Hstore').
  exists store'. split; [done|]. intros key. rewrite Hstore'.
  destruct (decide (key = name)) as [->|Hne].
  - rewrite lookup_delete_eq, (decide_True _ _ (list_elem_of_here _ _)).
    by case_decide.
  - rewrite lookup_delete_ne by done.
    destruct (decide (key ∈ names)) as [Hin|Hout].
    + by rewrite decide_True by (by right).
    + rewrite decide_False; [done|].
      by intros [?|?]%elem_of_cons.
Qed.

(** Whatever is rejected and however long the loop runs, it only removes
    live markers. *)
Lemma clearLoop_frame fuel : ∀ cur deleted store key,
  (clearLoop e rejects fuel cur deleted store).1 !! key = store !! key ∨
  (clearLoop e rejects fuel cur deleted store).1 !! key = None ∧
    String.prefix "id:" key = true ∧
    is_Some (store !! key ≫= live (now e)).
Proof.
  induction fuel as [|fuel IH]; intros cur deleted store key; [by left|].
  cbn [clearLoop]. destruct (rejects (KvList cur)); [by left|].
  set (reply := kvList (now e) store "id:" listLimit cur).
  pose proof (deleteAll_frame (keys reply) store key) as Hpage.
  assert (key ∈ keys reply → String.prefix "id:" key = true ∧
            is_Some (store !! key ≫= live (now e))) as Hlisted.
  { unfold reply. intros Hin%kvList_keys_elem_of.
    by apply liveNames_elem_of in Hin. }
  destruct (deleteAll rejects (keys reply) store) as [store1 [c|]];
    cbn [fst snd] in *.
  { destruct Hpage as [?|[? ?]]; auto. }
  destruct (truthy_opt (cursor reply)); cbn [fst snd];
    [|destruct Hpage as [?|[? ?]]; auto].
  destruct (IH (cursor reply) (deleted + length (keys reply)) store1 key)
    as [Hsame|(Hgone & Hp & Hlive)].
  - rewrite Hsame. destruct Hpage as [?|[? ?]]; auto.
  - destruct Hpage as [Heq|[Heq _]].
    + right. by rewrite <-Heq.
    + rewrite Heq in Hlive. by destruct Hlive as [? [=]].
Qed.

Context (Hnone : ∀ c, rejects c = false).

(** Without a rejection, the loop removes the live markers, all of them
    being after the cursor, page by page. *)
Lemma clearLoop_returns fuel : ∀ cur deleted store,
  (∀ c x, cur = Some c → x ∈ liveNames (now e) store "id:" →
          ¬ String.le x c) →
  length (liveNames (now e) store "id:") ≤ listLimit * fuel → 0 < fuel →
  ∃ store',
    clearLoop e rejects fuel cur deleted store =
      (store', Returned (deleted + length (liveNames (now e) store "id:"))) ∧
    ∀ key, store' !! key =
      if decide (key ∈ liveNames (now e) store "id:") then None
      else store !! key.
Proof.
  induction fuel as [|fuel IH]; intros cur deleted store Hafter Hlen Hfuel;
    [lia|].
  cbn [clearLoop]. rewrite Hnone.
  set (names := liveNames (now e) store "id:") in *.
  assert (0 < listLimit) as Hlimit by (unfold listLimit; lia).
  destruct (kvList_page (now e) store listLimit cur [] names) as [-> Hcursor];
    [done| |done|].
  { destruct cur as [c|]; [|done]. apply filter_all. eauto. }
  destruct (deleteAll_returns (take listLimit names) store)
    as (store1 & -> & Hstore1); [done|].
  pose proof (liveNames_delete (now e) "id:" store store1 _ Hstore1) as Hnames1.
  fold names in Hnames1.
  rewrite filter_notin_take in Hnames1 by apply liveNames_NoDup.
  destruct (decide (listLimit < length names)) as [Hmore|Hmore].
  - destruct Hcursor as (c & -> & Hc & _ & Hnext). simpl.
    destruct (truthy c); [|done].
    destruct (IH (Some c) (deleted + length (take listLimit names)) store1)
      as (store' & -> & Hstore').
    + intros c' x [= <-]. rewrite Hnames1. apply Hnext.
    + rewrite Hnames1, length_drop. lia.
    + destruct fuel; lia.
    + exists store'. rewrite Hnames1, length_take, length_drop.
      split; [do 2 f_equal; lia|].
      intros key. rewrite Hstore', Hnames1, Hstore1.
      assert (key ∈ names ↔
              key ∈ take listLimit names ∨ key ∈ drop listLimit names) as Hin
        by (by rewrite <-elem_of_app, take_drop).
      repeat case_decide; try done; tauto.
  - rewrite Hcursor. simpl. exists store1.
    rewrite take_ge in * by lia. done.
Qed.

End clearing.

(** X25.  When no call is rejected, [clearDedupCache] returns after at
    most one iteration per [1000] live markers, having deleted exactly
    the markers that were stored and not expired, and it reports their
    number.  Afterwards no id is marked, at the clock of the call or
    later, so the filter accepts again what it had already passed on, and
    [getDedupStats] counts nothing. *)
Theorem clearDedupCache_clears e rejects fuel store :
  (∀ c, rejects c = false) →
  length (liveIds (now e) store) ≤ listLimit * fuel → 0 < fuel →
  ∃ store',
    clearDedupCache e rejects fuel store =
      (store', Returned (length (liveIds (now e) store))) ∧
    (∀ key, store' !! key =
       if decide (key ∈ liveNames (now e) store "id:") then None
       else store !! key) ∧
    (∀ t i, (now e ≤ t)%N → marked t store' i = false) ∧
    getDedupStats e rejects 1 store' = Returned (mkStats 0 []).
Proof.
  intros Hnone Hlen Hfuel. unfold liveIds in *. rewrite length_fmap in *.
  destruct (clearLoop_returns e rejects Hnone fuel None 0 store)
    as (store' & Hrun & Hstore'); [done..|].
  exists store'. split; [done|]. split; [done|].
  assert (liveNames (now e) store' "id:" = []) as Hempty.
  { rewrite (liveNames_delete _ _ store store' _ Hstore').
    apply filter_none. by intros x Hx Hnot. }
  split.
  - intros t i Ht. unfold marked.
    destruct (store' !! kvKey i) as [entry|] eqn:Hentry; [|done].
    assert (kvKey i ∉ liveNames (now e) store' "id:") as Hout
      by (rewrite Hempty; apply not_elem_of_nil).
    rewrite liveNames_elem_of, Hentry in Hout.
    change (Some entry ≫= live t) with (live t entry).
    change (Some entry ≫= live (now e)) with (live (now e) entry) in Hout.
    unfold live in *. destruct (decide (t < entry.2)%N) as [Hlive|]; [|done].
    destruct Hout. split; [apply (prefix_append "id:")|].
    rewrite decide_True by lia. done.
  - unfold getDedupStats.
    rewrite (statsLoop_returns e rejects store' (λ cur, Hnone (KvList cur))
               1 None 0 [] [] []); [done|by rewrite Hempty..|simpl; lia|lia].
Qed.

Lemma clearDedupCache_clears_witness :
  ∃ store',
    clearDedupCache (Sample.env []) (λ _, false) 1 Markers.store =
      (store', Returned 2) ∧
    store' !! "other" = Some ("x", 9000%N) ∧
    store' !! "id:2" = Some ("1", 500%N) ∧
    marked 1000 store' "1" = false ∧ marked 1000 store' "2" = false.
Proof.
  destruct (clearDedupCache_clears (Sample.env []) (λ _, false) 1
    Markers.store) as (store' & Hrun & Hstore' & Hmarked & _).
  - done.
  - apply (bool_decide_unpack _). by vm_compute.
  - lia.
  - exists store'. split; [exact Hrun|].
    split; [rewrite Hstore'; by vm_compute|].
    split; [rewrite Hstore'; by vm_compute|].
    split; by apply Hmarked.
Defined.

(** X26.  Whatever is rejected and however long it runs,
    [clearDedupCache] only ever deletes markers that are stored and not
    expired: every other key of the namespace keeps its entry, and no
    entry is added or changed. *)
Theorem clearDedupCache_only_deletes_markers e rejects fuel store key :
  let store' := (clearDedupCache e rejects fuel store).1 in
  store' !! key = store !! key ∨
  store' !! key = None ∧ String.prefix "id:" key = true ∧
    is_Some (store !! key ≫= live (now e)).
Proof. apply clearLoop_frame. Qed.

(** ** [checkBigQueryTable] *)

Lemma checkBigQueryTable_run e tableGet w :
  checkBigQueryTable e tableGet w =
    if faults e CallAccessToken then (w, Ok false)
    else
      match tableGet w with
      | (w1, Ok code) =>
          (w1, Ok (negb (bool_decide (code = 404)) && response_ok code))
      | (w1, Err _) => (w1, Ok false)
      end.
Proof.
  unfold checkBigQueryTable, catch, bind, calling.
  destruct (faults e CallAccessToken); [done|].
  unfold ret at 1. destruct (tableGet w) as [w1 [code|err]]; [|done].
  destruct (decide (code = 404)) as [->|Hne].
  - by rewrite bool_decide_true.
  - rewrite bool_decide_false by done.
    by destruct (response_ok code).
Qed.

(** X27.  [checkBigQueryTable] never throws, whatever the token exchange
    and the request do: it always returns a boolean, and it returns [true]
    exactly when the token exchange went through and the request was
    answered with a status from 200 to 299. *)
Theorem checkBigQueryTable_never_throws e tableGet w :
  ∃ found, (checkBigQueryTable e tableGet w).2 = Ok found ∧
    (found = true ↔
     faults e CallAccessToken = false ∧
     ∃ w1 code, tableGet w = (w1, Ok code) ∧ 200 ≤ code ≤ 299).
Proof.
  rewrite checkBigQueryTable_run.
  destruct (faults e CallAccessToken).
  { exists false. split; [done|]. split; [done|]. by intros [? _]. }
  destruct (tableGet w) as [w1 [code|err]] eqn:Hget.
  - eexists. split; [done|]. unfold response_ok.
    rewrite !andb_true_iff, negb_true_iff, bool_decide_eq_false,
      !Nat.leb_le.
    split.
    + intros (? & ? & ?). split; [done|]. exists w1, code. auto.
    + intros (_ & w2 & code' & [= _ <-] & ?). lia.
  - exists false. split; [done|]. split; [done|].
    by intros (_ & w2 & code & [=] & _).
Qed.

(** ** Markers are written once *)

(** X28.  A cycle, forward or backfill, leaves every live marker as it
    is: the marker of an id that a lookup at the cycle's clock finds is
    neither removed nor rewritten, so its retention time is not renewed
    when the record is fetched again. *)
Theorem live_markers_are_left_alone cron e w i :
  marked (now e) (IDS_KV w) i = true →
  IDS_KV (scheduled cron e w).1 !! kvKey i = IDS_KV w !! kvKey i.
Proof.
  intros Hmarked.
  destruct (scheduled_shape e cron w) as [(batch & [l ->] & -> & _) _].
  apply withMarks_lookup_other.
  intros (r & -> & Hr)%list_elem_of_fmap.
  apply list_elem_of_filter in Hr as [_ Hr].
  apply accepted_elem_of in Hr as (_ & _ & Hunmarked & _).
  congruence.
Qed.

Lemma live_markers_are_left_alone_witness :
  IDS_KV (scheduled hourly (Sample.env [Sample.A; Sample.B; Sample.C])
            Sample.allKnown).1 !! kvKey "1" =
    Some ("1", 5000%N).
Proof.
  rewrite (live_markers_are_left_alone hourly
    (Sample.env [Sample.A; Sample.B; Sample.C]) Sample.allKnown "1");
    by vm_compute.
Defined.

(** ** Forward only goes forward *)

Section forward_only.
Context (w0 : World) (c0 : CursorState).

(** What one forward cycle posts is after the cursor it starts from. *)
Lemma runForward_posts_after e w r :
  r ∈ posted (newEffects w (runForward e w).1) →
  after_cursor (lastTsOf e w) (lastIdOf w) r.
Proof.
  unfold newEffects. rewrite runForward_stages.
  destruct (catch_log_quietly
    (await toSend := forwardBatch e in forwardCommit e toSend)
    ForwardFailed w) as (_ & _ & ->).
  unfold bind.
  destruct (forwardBatch e w) as [w1 [toSend|err]] eqn:Hbatch.
  - destruct (forwardBatch_inv e _ _ _ Hbatch) as (_ & _ & He1).
    destruct (forwardBatch_ok _ _ _ _ Hbatch) as (allLogs & Hfetch & Hdedup).
    pose proof (dedupAndFilter_sublist e _ _ _ _ Hdedup) as Hsub.
    destruct (forwardCommit e toSend w1) as [w2 res] eqn:Hcommit.
    apply forwardCommit_shape in Hcommit
      as (_ & _ & posts & tail & He2 & Hposts & Htail & _).
    simpl.
    rewrite He2, He1, <-app_assoc, drop_app_length, !posted_app.
    unfold posted at 1 3. rewrite sinkWrites_marks, Htail. simpl.
    rewrite app_nil_r. destruct Hposts as [->| ->].
    { by intros ?%elem_of_nil. }
    unfold posted. simpl. rewrite app_nil_r. intros Hr.
    eapply elem_of_sublist in Hr; [|done].
    by destruct (fetchForward_elem_of _ _ _ _ _ _ _ Hfetch Hr).
  - apply forwardBatch_inv in Hbatch as (_ & (_ & _ & He) & _).
    simpl. rewrite He, drop_all.
    by intros ?%elem_of_nil.
Qed.

(** The cursor of the run is at [c0] or beyond, and so is what it
    posted. *)
Lemma forward_only_steps ticks : ∀ w evs,
  (∀ t, t ∈ ticks → String.eqb t.1 hourly = false) →
  effects w = effects w0 ++ evs →
  (∀ r, r ∈ posted evs → cursor_lt c0 (cursorOf r)) →
  (∃ c, forward (STATE_KV w) = Some c ∧ (c = c0 ∨ cursor_lt c0 c)) →
  ∃ evs', effects (runTicks ticks w) = effects w0 ++ evs' ∧
    (∀ r, r ∈ posted evs' → cursor_lt c0 (cursorOf r)).
Proof.
  induction ticks as [|t ticks IH]; intros w evs Hcron He Hposted Hcursor.
  { by exists evs. }
  assert (String.eqb t.1 hourly = false) as Ht by (apply Hcron; by left).
  assert (runTick t w = (runForward t.2 w).1) as Hrun.
  { unfold runTick, scheduled. unfold hourly in Ht. by rewrite Ht. }
  destruct Hcursor as (c & Hc & Hc0).
  assert (∀ r, after_cursor (lastTsOf t.2 w) (lastIdOf w) r →
               cursor_lt c0 (cursorOf r)) as Hafter.
  { intros r. unfold lastTsOf, lastIdOf. rewrite Hc. simpl.
    rewrite after_cursor_cursor_lt. destruct Hc0 as [->|Hlt]; [done|].
    intros ?. by etrans. }
  destruct (runForward_shape t.2 w) as [_ (evs1 & He1 & Hcur)].
  simpl. apply (IH _ (evs ++ evs1)).
  - intros t' Ht'. apply Hcron. by right.
  - by rewrite Hrun, He1, He, <-app_assoc.
  - intros r. rewrite posted_app. intros [?|Hr]%elem_of_app; [auto|].
    apply Hafter, runForward_posts_after.
    unfold newEffects. by rewrite He1, drop_app_length.
  - rewrite Hrun.
    destruct Hcur as [[-> _]|(r & _ & Hr & -> & _)]; [by exists c|].
    exists (cursorOf r). split; [done|]. right. by apply Hafter.
Qed.

End forward_only.

(** X29.  Forward only goes forward.  In a run of forward cycles that
    starts with a cursor, whatever fails, every record posted to the sink
    is strictly after that cursor in [(created_at, id)]: nothing at or
    before the cursor is sent again. *)
Theorem forward_posts_only_newer_records ticks w c0 :
  forward (STATE_KV w) = Some c0 →
  (∀ t, t ∈ ticks → String.eqb t.1 hourly = false) →
  ∀ r, r ∈ posted (newEffects w (runTicks ticks w)) →
       cursor_lt c0 (cursorOf r).
Proof.
  intros Hc0 Hcron.
  destruct (forward_only_steps w c0 ticks w []) as (evs & He & Hposted);
    try done.
  - by rewrite app_nil_r.
  - by intros r ?%elem_of_nil.
  - exists c0. auto.
  - unfold newEffects. by rewrite He, drop_app_length.
Qed.

Lemma forward_posts_only_newer_records_witness :
  let ticks :=
    [(everyMinute, Sample.env [Sample.A; Sample.B]);
     (everyMinute, Sample.env [Sample.A; Sample.B; Sample.C; Sample.D])] in
  posted (newEffects Sample.atA (runTicks ticks Sample.atA)) =
    [Sample.B; Sample.C; Sample.D] ∧
  cursor_lt (cursorOf Sample.A) (cursorOf Sample.B).
Proof.
  split; [by vm_compute|].
  apply (forward_posts_only_newer_records
    [(everyMinute, Sample.env [Sample.A; Sample.B]);
     (everyMinute, Sample.env [Sample.A; Sample.B; Sample.C; Sample.D])]
    Sample.atA (cursorOf Sample.A)).
  - done.
  - intros t Ht. repeat (apply elem_of_cons in Ht as [->|Ht]);
      [..|by apply elem_of_nil in Ht]; by vm_compute.
  - apply (bool_decide_unpack _). by vm_compute.
Defined.

(** ** The two-phase fetch within the budget of phase 1 *)

(** X30.  For every cursor [(lastTs, lastId)] and every source that the API
    serves, if the records at [lastTs] with a greater id fit in the 5 pages
    of phase 1, then phase 1 followed by phase 2 is an initial segment of
    the records after the cursor: together with the records [rest] that the
    page budget of phase 2 leaves for a later cycle, it holds exactly the
    source records whose [(created_at, id)] is strictly greater than the
    cursor, each as often as the source holds it, in ascending
    [(created_at, id)] order.  Nothing is left when the records newer than
    [lastTs] fit in the [FORWARD_MAX_PAGES] pages of phase 2.  The fetch
    changes nothing. *)
Theorem fetchForward_gap_free_prefix e lastTs lastId w :
  (∀ options page, logs_api e options page = Served) →
  length (filter (λ r, same_ts_after lastTs lastId r) (source e))
    ≤ 5 * LOGS_PER_PAGE e →
  ∃ allLogs rest,
    fetchForward e lastTs lastId w = (w, Ok allLogs) ∧
    allLogs ++ rest ≡ₚ filter (λ r, after_cursor lastTs lastId r) (source e) ∧
    StronglySorted log_le (allLogs ++ rest) ∧
    (length (filter (λ r, newer lastTs r) (source e))
       ≤ FORWARD_MAX_PAGES e * LOGS_PER_PAGE e → rest = []).
Proof.
  intros Hserved Hb1.
  unfold fetchForward, bind. rewrite !fetchLogs_served by done. unfold ret.
  cbn [maxPages].
  set (o1 := mkOptions OpEq lastTs (Some (KindGt, lastId)) true 5).
  set (o2 := mkOptions OpGt lastTs None true (FORWARD_MAX_PAGES e)).
  set (budget := FORWARD_MAX_PAGES e * LOGS_PER_PAGE e).
  assert (api_listing e o1 ≡ₚ
          filter (λ r, same_ts_after lastTs lastId r) (source e)) as HP1.
  { rewrite api_listing_Permutation. apply reflexive_eq, list_filter_iff.
    intros r. unfold o1. by rewrite phase1_matches. }
  assert (api_listing e o2 ≡ₚ filter (λ r, newer lastTs r) (source e)) as HP2.
  { rewrite api_listing_Permutation. apply reflexive_eq, list_filter_iff.
    intros r. unfold o2. by rewrite phase2_matches. }
  exists (take (5 * LOGS_PER_PAGE e) (api_listing e o1) ++
          take budget (api_listing e o2)), (drop budget (api_listing e o2)).
  split; [done|].
  rewrite <-app_assoc, take_drop, take_ge by (by rewrite HP1).
  split_and!.
  - by rewrite HP1, HP2, filter_after_cursor.
  - apply StronglySorted_app. split_and!.
    + intros x1 x2. rewrite HP1, HP2, !list_elem_of_filter.
      intros [? _] [? _]. by eapply phase1_before_phase2.
    + by apply api_listing_ascending.
    + by apply api_listing_ascending.
  - intros Hb2. apply drop_ge. by rewrite HP2.
Qed.

(** X30, two instances.  The sample scenario fits in both budgets: nothing
    is left.  With pages of one record and a budget of one page for phase
    2, the fetch returns B and C and leaves D. *)
Lemma fetchForward_gap_free_prefix_witness :
  (∃ allLogs,
     fetchForward (Sample.env [Sample.A; Sample.B; Sample.C]) Sample.t10 "1"
       Sample.atA = (Sample.atA, Ok allLogs) ∧
     allLogs ≡ₚ filter (λ r, after_cursor Sample.t10 "1" r)
                       [Sample.A; Sample.B; Sample.C] ∧
     StronglySorted log_le allLogs) ∧
  (let e := mkEnv 1 1 40 45 [Sample.D; Sample.C; Sample.A; Sample.B] 1000
              Sample.t00 (λ _ _, Served) Sample.accepting (λ _, false) in
   ∃ rest,
     fetchForward e Sample.t10 "1" Sample.atA
       = (Sample.atA, Ok [Sample.B; Sample.C]) ∧
     StronglySorted log_le ([Sample.B; Sample.C] ++ rest) ∧
     [Sample.B; Sample.C] ++ rest ≡ₚ [Sample.C; Sample.D; Sample.B]).
Proof.
  split.
  - destruct (fetchForward_gap_free_prefix
             (Sample.env [Sample.A; Sample.B; Sample.C]) Sample.t10 "1"
             Sample.atA) as (allLogs & rest & Hrun & Hperm & Hsorted & Hrest).
    + intros options page. reflexivity.
    + vm_compute. lia.
    + rewrite Hrest, app_nil_r in Hperm, Hsorted by (vm_compute; lia).
      by exists allLogs.
  - intros e.
    destruct (fetchForward_gap_free_prefix e Sample.t10 "1" Sample.atA)
      as (allLogs & rest & Hrun & Hperm & Hsorted & _).
    + intros options page. reflexivity.
    + vm_compute. lia.
    + assert (allLogs = [Sample.B; Sample.C]) as ->.
      { vm_compute in Hrun. by injection Hrun as <-. }
      exists rest. split; [by vm_compute|]. split; [done|].
      rewrite Hperm. apply (bool_decide_unpack _). by vm_compute.
Defined.
